(** * frontdoor: the route descriptor ([lib/route.js])

    A shallow embedding of [Route]: the pattern compiler [normalizePath],
    the schema normaliser [normalizeParams], the matcher [Route.match], the
    validating middleware [decodeParams] and [Route.describe], together with
    the part of the JavaScript runtime they rest on: strings, objects with
    the properties they inherit from [Object.prototype],
    [String.prototype.replace] with the two regular expressions of the
    source, and [RegExp] (the pattern syntax of the language with its
    backtracking matcher). *)

From Stdlib Require Import List Ascii String Bool Arith Lia NArith ZArith Permutation.
Import ListNotations.

(** ** Strings *)

(** A JavaScript string is modelled as the list of its characters (8-bit
    characters stand in for UTF-16 code units). *)
Definition str := list ascii.

Definition lit (s : string) : str := list_ascii_of_string s.

Fixpoint str_eqb (a b : str) : bool :=
  match a, b with
  | [], [] => true
  | x :: a', y :: b' => Ascii.eqb x y && str_eqb a' b'
  | _, _ => false
  end.

Definition ch_bslash : ascii := "\"%char.

(** [\w] of a JavaScript regular expression: [A-Za-z0-9_]. *)
Definition is_word (c : ascii) : bool :=
  let n := nat_of_ascii c in
  ((65 <=? n) && (n <=? 90)) || ((97 <=? n) && (n <=? 122))
  || ((48 <=? n) && (n <=? 57)) || (n =? 95).

(** [String.prototype.toLowerCase] on the ASCII range. *)
Definition toLowerCase (s : str) : str :=
  map (fun c => let n := nat_of_ascii c in
                if (65 <=? n) && (n <=? 90) then ascii_of_nat (n + 32) else c) s.

(** ** Values, exceptions, outcomes *)

#[local] Unset Elimination Schemes.
Inductive value :=
| VUndefined
| VNull
| VBool (b : bool)
| VNum (z : Z)
| VStr (s : str)
| VArr (l : list value)
| VObj (l : list (str * value))
| VBuiltin (name : str).
#[local] Set Elimination Schemes.

(** What a [throw] carries: the message of an [Error] or of a [TypeError]
    (those of the engine in the words of V8); for the [SyntaxError] of
    [new RegExp] the pattern it refuses, the message being the engine's. *)
Inductive exn :=
| Error (message : str)
| TypeError (message : str)
| SyntaxError (pattern : str).

(** A call returns or throws. *)
Inductive result (A : Type) :=
| Ok (a : A)
| Throw (e : exn).
Arguments Ok {A} a.
Arguments Throw {A} e.

Definition bind {A B} (r : result A) (f : A -> result B) : result B :=
  match r with Ok a => f a | Throw e => Throw e end.

Notation "x <- r ;; k" := (bind r (fun x => k))
  (at level 61, r at next level, right associativity).

(** What the model says of a call of the program: how it ends, or nothing
    ([Unsupported]) where the call leaves what is modelled.  That is the case
    for a pattern with a group that opens with [(?] other than [(?:], [(?=]
    and [(?!] (the engines differ on those), for an assignment that goes to
    the accessor [__proto__] of [Object.prototype], and for a construction
    that succeeds after it has written to [Object.prototype]. *)
Inductive outcome (A : Type) :=
| Done (r : result A)
| Unsupported.
Arguments Done {A} r.
Arguments Unsupported {A}.

Coercion Done : result >-> outcome.
Arguments pair {A B}%_type_scope & a b.

Definition and_then {A B} (r : outcome A) (f : A -> outcome B) : outcome B :=
  match r with
  | Done (Ok a) => f a
  | Done (Throw e) => Throw e
  | Unsupported => Unsupported
  end.

Notation "x <-- r ;; k" := (and_then r (fun x => k))
  (at level 61, r at next level, right associativity).

(** A type object of [./types]: [parse] and [check] may throw, [toString]
    is the display name. *)
Record type := Type_ {
  parse : value -> result value;
  check : value -> result bool;
  toString : str
}.

(** ** Objects *)

(** An ordinary object used as a map is the list of its own properties in
    the order [for (k in o)] visits them: the array indices in ascending
    order, then the other names in the order of their creation.  Its
    prototype is [Object.prototype], taken as the language defines it when a
    call starts: twelve properties, none of them enumerable. *)
Definition obj (A : Type) := list (str * A).

(** The own property [k] of [o]. *)
Fixpoint get {A} (o : obj A) (k : str) : option A :=
  match o with
  | [] => None
  | (k', v) :: o' => if str_eqb k' k then Some v else get o' k
  end.

(** [o.hasOwnProperty(k)] *)
Definition has {A} (o : obj A) (k : str) : bool :=
  match get o k with Some _ => true | None => false end.

Definition builtin_names : list str :=
  map lit ["constructor"; "__defineGetter__"; "__defineSetter__"; "hasOwnProperty";
           "__lookupGetter__"; "__lookupSetter__"; "isPrototypeOf";
           "propertyIsEnumerable"; "toString"; "valueOf"; "__proto__";
           "toLocaleString"]%string.

(** [k] names a property of [Object.prototype]. *)
Definition inherited (k : str) : bool := existsb (str_eqb k) builtin_names.

(** [k in o] *)
Definition in_ {A} (o : obj A) (k : str) : bool := has o k || inherited k.

(** [o[k]] on an object of values: an own property, else what
    [Object.prototype] holds under [k] (one of its functions, or for
    [__proto__] the prototype itself), else [undefined]. *)
Definition lookup (o : obj value) (k : str) : value :=
  match get o k with
  | Some v => v
  | None => if inherited k then VBuiltin k else VUndefined
  end.

Definition digit_value (c : ascii) : option N :=
  let n := N_of_ascii c in
  if (48 <=? n)%N && (n <=? 57)%N then Some (n - 48)%N else None.

Fixpoint decimal (s : str) (acc : N) : option N :=
  match s with
  | [] => Some acc
  | c :: s' => match digit_value c with
               | Some d => decimal s' (10 * acc + d)%N
               | None => None
               end
  end.

(** An array index: the canonical decimal form of an integer below
    [2^32 - 1]. *)
Definition array_index (k : str) : option N :=
  match k with
  | [] => None
  | c :: k' =>
      if Ascii.eqb c "0" && negb (str_eqb k' []) then None
      else match decimal k 0 with
           | Some n => if (n <=? 4294967294)%N then Some n else None
           | None => None
           end
  end.

Fixpoint update {A} (o : obj A) (k : str) (v : A) : obj A :=
  match o with
  | [] => []
  | (k', v') :: o' => if str_eqb k' k then (k', v) :: o' else (k', v') :: update o' k v
  end.

(** A new array index goes before the first property that is not a smaller
    array index. *)
Fixpoint insert_index {A} (o : obj A) (n : N) (k : str) (v : A) : obj A :=
  match o with
  | [] => [(k, v)]
  | (k', v') :: o' =>
      match array_index k' with
      | Some n' => if (n' <? n)%N then (k', v') :: insert_index o' n k v
                   else (k, v) :: o
      | None => (k, v) :: o
      end
  end.

(** [o[k] = v] on an own property, or for a name that [Object.prototype]
    has no accessor for: an existing property keeps its place, a new one
    goes to its place in the order of enumeration. *)
Definition set {A} (o : obj A) (k : str) (v : A) : obj A :=
  if has o k then update o k v
  else match array_index k with
       | Some n => insert_index o n k v
       | None => o ++ [(k, v)]
       end.

(** [o[k] = v].  When [k] is [__proto__] and [o] has no such property of its
    own the assignment goes to the accessor of [Object.prototype], which
    changes the prototype of [o] or does nothing. *)
Definition put {A} (o : obj A) (k : str) (v : A) : outcome (obj A) :=
  if str_eqb k (lit "__proto__") && negb (has o k) then Unsupported
  else Ok (set o k v).

(** ** Regular expressions *)

(** [new RegExp(source)] without flags and [exec], after the pattern grammar
    of the language (ECMA-262, 15.10 and the compatibility grammar of its
    annex B): a lexer, a parser on its tokens and the backtracking matcher
    in continuation-passing style. *)
Module RegExp.

Definition code (c : ascii) : N := N_of_ascii c.

(** A member of a character class. *)
Inductive citem :=
| CRange (lo hi : N)
| CDigit (neg : bool)
| CSpace (neg : bool)
| CWord (neg : bool).

Inductive re :=
| Empty
| Char (c : N)
| AnyChar
| Class (neg : bool) (cs : list citem)
| Bol
| Eol
| WordB (neg : bool)
| Look (neg : bool) (a : re)
| Backref (i : nat)
| Seq (a b : re)
| Alt (a b : re)
| Repeat (min : N) (max : option N) (greedy : bool) (a : re)
| Group (i : nat) (a : re).

(** *** The tokens of a pattern *)

Inductive gkind :=
| Capture
| NonCapture
| Lookahead (neg : bool).

Inductive token :=
| TAtom (a : re)
| TAssert (a : re)
| TOpen (k : gkind)
| TClose
| TBar
| TQuant (min : N) (max : option N) (greedy : bool).

(** A pattern is fine, is a [SyntaxError], or is beyond the syntax that is
    modelled. *)
Inductive answer (A : Type) :=
| Fine (a : A)
| Bad
| Beyond.
Arguments Fine {A} a.
Arguments Bad {A}.
Arguments Beyond {A}.

Definition is_digit (c : ascii) : bool := (48 <=? code c)%N && (code c <=? 57)%N.

Definition is_octal (c : ascii) : bool := (48 <=? code c)%N && (code c <=? 55)%N.

Definition is_letter (c : ascii) : bool :=
  ((65 <=? code c)%N && (code c <=? 90)%N) || ((97 <=? code c)%N && (code c <=? 122)%N).

Definition hex_value (c : ascii) : option N :=
  let n := code c in
  if (48 <=? n)%N && (n <=? 57)%N then Some (n - 48)%N
  else if (65 <=? n)%N && (n <=? 70)%N then Some (n - 55)%N
  else if (97 <=? n)%N && (n <=? 102)%N then Some (n - 87)%N
  else None.

(** The value of [n] hexadecimal digits at the head of [s]. *)
Fixpoint hex (n : nat) (s : str) (acc : N) : option N :=
  match n with
  | 0 => Some acc
  | S n' =>
      match s with
      | c :: s' => match hex_value c with
                   | Some d => hex n' s' (16 * acc + d)%N
                   | None => None
                   end
      | [] => None
      end
  end.

(** The decimal digits at the head of [s]. *)
Fixpoint digits (s : str) : str :=
  match s with
  | c :: s' => if is_digit c then c :: digits s' else []
  | [] => []
  end.

Definition number (ds : str) : N :=
  fold_left (fun acc c => (10 * acc + (code c - 48))%N) ds 0%N.

(** The bound the engine keeps numbers of repetitions under; at the place
    of a maximum it stands for no maximum. *)
Definition infinity : N := 2147483647.

Definition bounded (n : N) : N := N.min n infinity.

Definition maximum (n : N) : option N :=
  if (infinity <=? n)%N then None else Some n.

(** [{n}], [{n,}] or [{n,m}] after the brace: the bounds, and the number of
    characters read. *)
Definition interval_at (s : str) : option (N * option N * nat) :=
  let d1 := digits s in
  match d1 with
  | [] => None
  | _ :: _ =>
      match skipn (List.length d1) s with
      | c :: r =>
          if Ascii.eqb c "}" then
            Some (bounded (number d1), maximum (number d1), List.length d1 + 1)
          else if Ascii.eqb c "," then
            let d2 := digits r in
            match skipn (List.length d2) r with
            | c' :: _ =>
                if Ascii.eqb c' "}" then
                  Some (bounded (number d1),
                        match d2 with [] => None | _ :: _ => maximum (number d2) end,
                        List.length d1 + 1 + List.length d2 + 1)
                else None
            | [] => None
            end
          else None
      | [] => None
      end
  end.

(** An octal escape from its first digit on: up to three digits, with a
    value below 256. *)
Definition octal_at (s : str) : N * nat :=
  match s with
  | d1 :: r1 =>
      let v1 := (code d1 - 48)%N in
      match r1 with
      | d2 :: r2 =>
          if is_octal d2 then
            let v2 := (8 * v1 + (code d2 - 48))%N in
            match r2 with
            | d3 :: _ =>
                if (v2 <? 32)%N && is_octal d3
                then ((8 * v2 + (code d3 - 48))%N, 3)
                else (v2, 2)
            | [] => (v2, 2)
            end
          else (v1, 1)
      | [] => (v1, 1)
      end
  | [] => (0%N, 0)
  end.

(** The escapes that name one character, after the backslash; the second
    component is the length of the escape with its backslash.  [\c] that no
    control letter follows is the backslash alone. *)
Definition control_escape (c : ascii) : option N :=
  if Ascii.eqb c "f" then Some 12%N
  else if Ascii.eqb c "n" then Some 10%N
  else if Ascii.eqb c "r" then Some 13%N
  else if Ascii.eqb c "t" then Some 9%N
  else if Ascii.eqb c "v" then Some 11%N
  else None.

Definition class_escape (c : ascii) : option citem :=
  if Ascii.eqb c "d" then Some (CDigit false)
  else if Ascii.eqb c "D" then Some (CDigit true)
  else if Ascii.eqb c "s" then Some (CSpace false)
  else if Ascii.eqb c "S" then Some (CSpace true)
  else if Ascii.eqb c "w" then Some (CWord false)
  else if Ascii.eqb c "W" then Some (CWord true)
  else None.

Definition hex_escape (c : ascii) (r : str) : option (N * nat) :=
  if Ascii.eqb c "x" then
    match hex 2 r 0 with
    | Some v => Some (v, 4)
    | None => Some (code c, 2)
    end
  else if Ascii.eqb c "u" then
    match hex 4 r 0 with
    | Some v => Some (v, 6)
    | None => Some (code c, 2)
    end
  else None.

(** *** Character classes *)

(** An atom of a class: a character or a class escape. *)
Inductive catom :=
| AChar (c : N)
| AEsc (i : citem).

Definition class_atom (s : str) : answer (catom * nat) :=
  match s with
  | [] => Bad
  | c :: r =>
      if Ascii.eqb c "\" then
        match r with
        | [] => Bad
        | e :: r' =>
            match class_escape e with
            | Some i => Fine (AEsc i, 2)
            | None =>
                if Ascii.eqb e "b" then Fine (AChar 8, 2)
                else match control_escape e with
                | Some v => Fine (AChar v, 2)
                | None =>
                    if Ascii.eqb e "c" then
                      match r' with
                      | l :: _ =>
                          if is_letter l || is_digit l || Ascii.eqb l "_"
                          then Fine (AChar (code l mod 32), 3)
                          else Fine (AChar (code c), 1)
                      | [] => Fine (AChar (code c), 1)
                      end
                    else if is_octal e then
                      let (v, n) := octal_at r in Fine (AChar v, 1 + n)
                    else match hex_escape e r' with
                    | Some (v, n) => Fine (AChar v, n)
                    | None => Fine (AChar (code e), 2)
                    end
                end
            end
        end
      else Fine (AChar (code c), 1)
  end.

Definition item_of (a : catom) : citem :=
  match a with
  | AChar c => CRange c c
  | AEsc i => i
  end.

(** One atom, or a range [a-b], at the head of [s]: the members it adds and
    its length.  A [-] before the closing bracket, or next to a class
    escape, is a character. *)
Definition class_term (s : str) : answer (list citem * nat) :=
  match class_atom s with
  | Fine (a1, l1) =>
      match skipn l1 s with
      | d :: r =>
          if Ascii.eqb d "-" then
            match r with
            | [] => Bad
            | c2 :: _ =>
                if Ascii.eqb c2 "]" then Fine ([item_of a1; CRange 45 45], l1 + 1)
                else match class_atom r with
                | Fine (a2, l2) =>
                    match a1, a2 with
                    | AChar x, AChar y =>
                        if (y <? x)%N then Bad else Fine ([CRange x y], l1 + 1 + l2)
                    | _, _ =>
                        Fine ([item_of a1; CRange 45 45; item_of a2], l1 + 1 + l2)
                    end
                | Bad => Bad
                | Beyond => Beyond
                end
            end
          else Fine ([item_of a1], l1)
      | [] => Fine ([item_of a1], l1)
      end
  | Bad => Bad
  | Beyond => Beyond
  end.

(** The members of a class up to its closing bracket, and the number of
    characters read, the bracket included; [skip] characters belong to the
    term read last. *)
Fixpoint class_loop (s : str) (skip : nat) (acc : list citem) (n : nat)
  : answer (list citem * nat) :=
  match s with
  | [] => Bad
  | c :: s' =>
      match skip with
      | S k => class_loop s' k acc (S n)
      | 0 =>
          if Ascii.eqb c "]" then Fine (acc, S n)
          else match class_term (c :: s') with
               | Fine (items, len) => class_loop s' (len - 1) (acc ++ items) (S n)
               | Bad => Bad
               | Beyond => Beyond
               end
      end
  end.

(** A class after its opening bracket. *)
Definition class_at (s : str) : answer (re * nat) :=
  match s with
  | c :: s' =>
      if Ascii.eqb c "^" then
        match class_loop s' 0 [] 1 with
        | Fine (items, n) => Fine (Class true items, n)
        | Bad => Bad
        | Beyond => Beyond
        end
      else
        match class_loop s 0 [] 0 with
        | Fine (items, n) => Fine (Class false items, n)
        | Bad => Bad
        | Beyond => Beyond
        end
  | [] => Bad
  end.

(** *** The lexer *)

(** The number of groups that capture: the parentheses outside classes and
    escapes that no [?] follows. *)
Fixpoint count_captures (s : str) (in_class escaped : bool) : nat :=
  match s with
  | [] => 0
  | c :: s' =>
      if escaped then count_captures s' in_class false
      else if Ascii.eqb c "\" then count_captures s' in_class true
      else if in_class then count_captures s' (negb (Ascii.eqb c "]")) false
      else if Ascii.eqb c "[" then count_captures s' true false
      else if Ascii.eqb c "(" then
        match s' with
        | q :: _ => if Ascii.eqb q "?" then count_captures s' false false
                    else S (count_captures s' false false)
        | [] => 1
        end
      else count_captures s' false false
  end.

(** A quantifier of [len] characters; a [?] after it makes it lazy. *)
Definition quantifier (min : N) (max : option N) (len : nat) (after : str)
  : answer (token * nat) :=
  match after with
  | c :: _ => if Ascii.eqb c "?" then Fine (TQuant min max false, len + 1)
              else Fine (TQuant min max true, len)
  | [] => Fine (TQuant min max true, len)
  end.

(** The token a backslash starts; [s] is what follows the backslash and
    [total] the number of capturing groups of the pattern: a decimal escape
    up to [total] is a back reference, another one an octal escape or the
    digit itself. *)
Definition escape_at (total : nat) (s : str) : answer (token * nat) :=
  match s with
  | [] => Bad
  | c :: r =>
      if Ascii.eqb c "b" then Fine (TAssert (WordB false), 2)
      else if Ascii.eqb c "B" then Fine (TAssert (WordB true), 2)
      else if is_digit c && negb (Ascii.eqb c "0") then
        let ds := digits s in
        if (number ds <=? N.of_nat total)%N
        then Fine (TAtom (Backref (N.to_nat (number ds))), 1 + List.length ds)
        else if is_octal c then
          let (v, n) := octal_at s in Fine (TAtom (Char v), 1 + n)
        else Fine (TAtom (Char (code c)), 2)
      else if Ascii.eqb c "0" then
        let (v, n) := octal_at s in Fine (TAtom (Char v), 1 + n)
      else match control_escape c with
      | Some v => Fine (TAtom (Char v), 2)
      | None =>
          if Ascii.eqb c "c" then
            match r with
            | l :: _ => if is_letter l then Fine (TAtom (Char (code l mod 32)), 3)
                        else Fine (TAtom (Char 92), 1)
            | [] => Fine (TAtom (Char 92), 1)
            end
          else match hex_escape c r with
          | Some (v, n) => Fine (TAtom (Char v), n)
          | None =>
              match class_escape c with
              | Some i => Fine (TAtom (Class false [i]), 2)
              | None => Fine (TAtom (Char (code c)), 2)
              end
          end
      end
  end.

(** The token at the head of [s] and its length. *)
Definition token_at (total : nat) (s : str) : answer (token * nat) :=
  match s with
  | [] => Bad
  | c :: r =>
      if Ascii.eqb c "\" then escape_at total r
      else if Ascii.eqb c "^" then Fine (TAssert Bol, 1)
      else if Ascii.eqb c "$" then Fine (TAssert Eol, 1)
      else if Ascii.eqb c "." then Fine (TAtom AnyChar, 1)
      else if Ascii.eqb c "|" then Fine (TBar, 1)
      else if Ascii.eqb c ")" then Fine (TClose, 1)
      else if Ascii.eqb c "(" then
        match r with
        | q :: r' =>
            if Ascii.eqb q "?" then
              match r' with
              | k :: _ =>
                  if Ascii.eqb k ":" then Fine (TOpen NonCapture, 3)
                  else if Ascii.eqb k "=" then Fine (TOpen (Lookahead false), 3)
                  else if Ascii.eqb k "!" then Fine (TOpen (Lookahead true), 3)
                  else Beyond
              | [] => Beyond
              end
            else Fine (TOpen Capture, 1)
        | [] => Fine (TOpen Capture, 1)
        end
      else if Ascii.eqb c "[" then
        match class_at r with
        | Fine (a, n) => Fine (TAtom a, 1 + n)
        | Bad => Bad
        | Beyond => Beyond
        end
      else if Ascii.eqb c "*" then quantifier 0 None 1 r
      else if Ascii.eqb c "+" then quantifier 1 None 1 r
      else if Ascii.eqb c "?" then quantifier 0 (Some 1%N) 1 r
      else if Ascii.eqb c "{" then
        match interval_at r with
        | Some (min, max, len) =>
            match max with
            | Some m => if (m <? min)%N then Bad
                        else quantifier min max (1 + len) (skipn len r)
            | None => quantifier min max (1 + len) (skipn len r)
            end
        | None => Fine (TAtom (Char (code c)), 1)
        end
      else Fine (TAtom (Char (code c)), 1)
  end.

(** The tokens of [s], the first [skip] characters of which belong to the
    token read last. *)
Fixpoint lex (total : nat) (s : str) (skip : nat) : answer (list token) :=
  match s with
  | [] => Fine []
  | c :: s' =>
      match skip with
      | S k => lex total s' k
      | 0 =>
          match token_at total (c :: s') with
          | Fine (tok, len) =>
              match lex total s' (len - 1) with
              | Fine toks => Fine (tok :: toks)
              | Bad => Bad
              | Beyond => Beyond
              end
          | Bad => Bad
          | Beyond => Beyond
          end
      end
  end.

(** *** The parser *)

(** One open alternative list: the alternatives already closed by [|], the
    terms of the current one (latest first), whether the latest term can
    take a quantifier, and what the closing parenthesis makes of the
    list. *)
Record frame := Frame {
  alts : list re;
  cur : list re;
  quantifiable : bool;
  kind : gkind;
  gindex : nat
}.

Definition seq_of (terms : list re) : re := fold_right Seq Empty terms.

Definition close_alt (f : frame) : re := seq_of (rev (cur f)).

Definition close_frame (f : frame) : re :=
  fold_left (fun acc a => Alt a acc) (alts f) (close_alt f).

Definition push_term (t : re) (q : bool) (f : frame) : frame :=
  Frame (alts f) (t :: cur f) q (kind f) (gindex f).

Definition quantify (min : N) (max : option N) (greedy : bool) (f : frame)
  : option frame :=
  if quantifiable f then
    match cur f with
    | t :: ts => Some (Frame (alts f) (Repeat min max greedy t :: ts) false
                             (kind f) (gindex f))
    | [] => None
    end
  else None.

Definition group_of (f : frame) : re :=
  match kind f with
  | Capture => Group (gindex f) (close_frame f)
  | NonCapture => close_frame f
  | Lookahead neg => Look neg (close_frame f)
  end.

(** The tree of a token list, and the number of groups that capture. *)
Fixpoint build (toks : list token) (top : frame) (stack : list frame) (n : nat)
  : option (re * nat) :=
  match toks with
  | [] =>
      match stack with
      | [] => Some (close_frame top, n)
      | _ :: _ => None
      end
  | TAtom a :: toks' => build toks' (push_term a true top) stack n
  | TAssert a :: toks' => build toks' (push_term a false top) stack n
  | TQuant min max greedy :: toks' =>
      match quantify min max greedy top with
      | Some f => build toks' f stack n
      | None => None
      end
  | TBar :: toks' =>
      build toks' (Frame (close_alt top :: alts top) [] false (kind top) (gindex top))
            stack n
  | TOpen k :: toks' =>
      match k with
      | Capture => build toks' (Frame [] [] false Capture (S n)) (top :: stack) (S n)
      | _ => build toks' (Frame [] [] false k 0) (top :: stack) n
      end
  | TClose :: toks' =>
      match stack with
      | [] => None
      | f :: fs => build toks' (push_term (group_of top) true f) fs n
      end
  end.

(** A compiled pattern: its source, its syntax tree and the number of
    capture groups. *)
Record regexp := RegExp_ {
  source : str;
  tree : re;
  groups : nat
}.

Definition parse_pattern (src : str) : answer (re * nat) :=
  match lex (count_captures src false false) src 0 with
  | Fine toks =>
      match build toks (Frame [] [] false NonCapture 0) [] 0 with
      | Some r => Fine r
      | None => Bad
      end
  | Bad => Bad
  | Beyond => Beyond
  end.

(** [new RegExp(src)] *)
Definition new (src : str) : outcome regexp :=
  match parse_pattern src with
  | Fine (t, n) => Ok (RegExp_ src t n)
  | Bad => Throw (SyntaxError src)
  | Beyond => Unsupported
  end.

(** *** Matching *)

(** A state of the matcher: the index reached in the input, the input still
    to read, the character before it, and the captures made so far. *)
Record mstate := MState {
  pos : nat;
  rest : str;
  prev : option ascii;
  caps : list (nat * str)
}.

Definition cont := mstate -> option mstate.

Definition step (p : ascii -> bool) (x : mstate) (k : cont) : option mstate :=
  match rest x with
  | c :: s => if p c then k (MState (S (pos x)) s (Some c) (caps x)) else None
  | [] => None
  end.

Definition is_line_terminator (c : ascii) : bool :=
  (code c =? 10)%N || (code c =? 13)%N.

Definition is_space (c : ascii) : bool :=
  ((9 <=? code c)%N && (code c <=? 13)%N) || (code c =? 32)%N || (code c =? 160)%N.

Definition in_item (c : ascii) (i : citem) : bool :=
  match i with
  | CRange lo hi => (lo <=? code c)%N && (code c <=? hi)%N
  | CDigit neg => xorb neg (is_digit c)
  | CSpace neg => xorb neg (is_space c)
  | CWord neg => xorb neg (is_word c)
  end.

Definition in_class (neg : bool) (cs : list citem) (c : ascii) : bool :=
  xorb neg (existsb (in_item c) cs).

Definition set_cap (i : nat) (s : str) (x : mstate) : mstate :=
  MState (pos x) (rest x) (prev x)
         ((i, s) :: filter (fun c => negb (fst c =? i)) (caps x)).

Definition clear_caps (gs : list nat) (x : mstate) : mstate :=
  MState (pos x) (rest x) (prev x)
         (filter (fun c => negb (existsb (Nat.eqb (fst c)) gs)) (caps x)).

Definition capture_of (cs : list (nat * str)) (i : nat) : option str :=
  match find (fun c => fst c =? i) cs with
  | Some (_, s) => Some s
  | None => None
  end.

Fixpoint groups_in (r : re) : list nat :=
  match r with
  | Seq a b | Alt a b => groups_in a ++ groups_in b
  | Repeat _ _ _ a | Look _ a => groups_in a
  | Group i a => i :: groups_in a
  | _ => []
  end.

Definition word_at (c : option ascii) : bool :=
  match c with Some a => is_word a | None => false end.

(** [s] read from the state [x], when the input goes on with it. *)
Fixpoint read (s : str) (x : mstate) : option mstate :=
  match s with
  | [] => Some x
  | c :: s' =>
      match rest x with
      | a :: r => if Ascii.eqb a c
                  then read s' (MState (S (pos x)) r (Some a) (caps x))
                  else None
      | [] => None
      end
  end.

(** RepeatMatcher: the captures of the repeated term are reset on every
    round, and a round that reads nothing once the minimum is reached fails.
    A round therefore lowers the minimum or reads a character, and the
    callers' [fuel], the minimum and the input left and two, is not used
    up. *)
Fixpoint repeat (ma : mstate -> cont -> option mstate) (gs : list nat)
         (fuel : nat) (min : N) (max : option N) (greedy : bool)
         (x : mstate) (k : cont) : option mstate :=
  match fuel with
  | 0 => None
  | S n =>
      match max with
      | Some 0%N => k x
      | _ =>
          let more :=
            ma (clear_caps gs x)
               (fun y => if (min =? 0)%N && (pos y =? pos x) then None
                         else repeat ma gs n (N.pred min) (option_map N.pred max)
                                     greedy y k) in
          if negb (min =? 0)%N then more
          else if greedy then match more with Some z => Some z | None => k x end
          else match k x with Some z => Some z | None => more end
      end
  end.

Fixpoint m (r : re) (x : mstate) (k : cont) {struct r} : option mstate :=
  match r with
  | Empty => k x
  | Char c => step (fun a => (code a =? c)%N) x k
  | AnyChar => step (fun a => negb (is_line_terminator a)) x k
  | Class neg cs => step (in_class neg cs) x k
  | Bol => if pos x =? 0 then k x else None
  | Eol => match rest x with [] => k x | _ :: _ => None end
  | WordB neg =>
      if xorb neg (xorb (word_at (prev x)) (word_at (hd_error (rest x))))
      then k x else None
  | Look false a =>
      match m a x Some with
      | Some y => k (MState (pos x) (rest x) (prev x) (caps y))
      | None => None
      end
  | Look true a =>
      match m a x Some with
      | Some _ => None
      | None => k x
      end
  | Backref i =>
      match capture_of (caps x) i with
      | Some s => match read s x with Some y => k y | None => None end
      | None => k x
      end
  | Seq a b => m a x (fun y => m b y k)
  | Alt a b => match m a x k with Some z => Some z | None => m b x k end
  | Repeat min max greedy a =>
      repeat (m a) (groups_in a) (N.to_nat min + List.length (rest x) + 2)
             min max greedy x k
  | Group i a =>
      m a x (fun y => k (set_cap i (firstn (pos y - pos x) (rest x)) y))
  end.

(** The match is looked for at every start index, leftmost first; the
    result is the start index and the final state. *)
Fixpoint search (r : re) (i : nat) (before : option ascii) (s : str)
  : option (nat * mstate) :=
  match m r (MState i s before []) Some with
  | Some z => Some (i, z)
  | None => match s with
            | [] => None
            | c :: s' => search r (S i) (Some c) s'
            end
  end.

(** [re.exec(s)] for a pattern without flags: [None] is [null], otherwise
    the captures [m[1]], ..., [m[n]], [None] for a group that took no part. *)
Definition exec (p : regexp) (s : str) : option (list (option str)) :=
  match search (tree p) 0 None s with
  | Some (_, z) => Some (map (capture_of (caps z)) (seq 1 (groups p)))
  | None => None
  end.

(** [m[0]] and [m.index] of [re.exec(s)]: the text matched and where it
    starts. *)
Definition matched (p : regexp) (s : str) : option (nat * str) :=
  match search (tree p) 0 None s with
  | Some (i, z) => Some (i, firstn (pos z - i) (skipn i s))
  | None => None
  end.

End RegExp.

(** ** The route *)

(** *** What the caller declares *)

(** A type specifier: a registered name, a [RegExp], or a type object. *)
Inductive type_spec :=
| TName (name : str)
| TRegExp (src : str)
| TObject (t : type).

(** [x || d] on a type specifier: [undefined] and the empty string are
    falsy. *)
Definition or_default (x : option type_spec) (d : str) : option type_spec :=
  match x with
  | None => Some (TName d)
  | Some (TName []) => Some (TName d)
  | Some t => Some t
  end.

(** A parameter object as the options carry it, and as [normalizePath]
    completes it; an unset property is [None]. *)
Record decl := Decl {
  d_type : option type_spec;
  d_source : option str;
  d_optional : bool;
  d_name : option str;
  d_description : option str
}.

(** An entry of [options.params]: the shorthand (a type name or a
    [RegExp]) or a parameter object. *)
Inductive entry :=
| EString (s : str)
| ERegExp (src : str)
| EObject (d : decl).

Record options := Options {
  o_method : option str;
  o_params : option (obj entry);
  o_name : option str;
  o_description : option str
}.

(** The injected registry of [./types]: [types.get] and the [RegExp] type
    constructor.  Both live outside this file of the repository. *)
Record Types := Types_ {
  types_get : option type_spec -> result type;
  RegExpType : str -> type
}.

(** *** normalizePath *)

(** What [/\/:(\w+)/g] finds in a template, left to right: the characters
    no match covers, and the matches with their key. *)
Inductive item :=
| ILit (c : ascii)
| ISeg (key : str).

(** The longest run of [\w] at the head of [s], and what follows it. *)
Fixpoint span_word (s : str) : str * str :=
  match s with
  | c :: s' =>
      if is_word c then let (w, r) := span_word s' in (c :: w, r) else ([], s)
  | [] => ([], [])
  end.

(** One attempt of [/\/:(\w+)/] at the head of [s]. *)
Definition seg_at (s : str) : option (str * str) :=
  match s with
  | "/"%char :: ":"%char :: u =>
      match span_word u with
      | ([], _) => None
      | (key, r) => Some (key, r)
      end
  | _ => None
  end.

Fixpoint scan_fuel (n : nat) (s : str) : list item :=
  match n with
  | 0 => []
  | S n' =>
      match s with
      | [] => []
      | c :: s' =>
          match seg_at s with
          | Some (key, r) => ISeg key :: scan_fuel n' r
          | None => ILit c :: scan_fuel n' s'
          end
      end
  end.

(** The matches of the global pattern do not overlap; the search resumes
    after each one. *)
Definition scan (s : str) : list item := scan_fuel (List.length s) s.

(** The first loop of [normalizePath]: the shorthand entries become
    parameter objects. *)
Definition expand (e : entry) : decl :=
  match e with
  | EString s => Decl (Some (TName s)) None false None None
  | ERegExp r => Decl (Some (TRegExp r)) None false None None
  | EObject d => d
  end.

(** What the replacement callback writes for a segment. *)
Definition segment_text : str := lit "/([^\/]+)".

Definition conflicting_source (found : str) : exn :=
  Error (lit "Url parameters must have 'url' as source but found '"
           ++ found ++ lit "'").

(** An assignment to a property of a string, in strict code. *)
Definition cannot_create (property on : string) : exn :=
  TypeError (lit "Cannot create property '" ++ lit property ++ lit "' on string '"
               ++ lit on ++ lit "'").

(** The replacement callback: it pushes the key, completes the parameter
    and throws on a source other than [url].

    [params[key]] is read through the prototype.  For a key that [params]
    does not have and [Object.prototype] has, it is an object of the
    language: [params] gets no property, and [type] and [source] are written
    on that object.  When that object is [Object.prototype] itself (the key
    [__proto__]), every object inherits the two properties from then on,
    which [polluted] records: [params.type] and [params.source] are then
    strings, which take no property. *)
Definition on_segment (key : str) (keys : list str) (params : obj decl)
           (polluted : bool)
  : result (str * list str * obj decl * bool) :=
  let keys := keys ++ [key] in
  match get params key with
  | Some param =>
      let param := Decl (or_default (d_type param) (lit "string")) (d_source param)
                        (d_optional param) (d_name param) (d_description param) in
      match d_source param with
      | Some ((_ :: _) as src) =>
          if str_eqb src (lit "url") then
            Ok (segment_text, keys, set params key param, polluted)
          else Throw (conflicting_source src)
      | _ =>
          Ok (segment_text, keys,
              set params key (Decl (d_type param) (Some (lit "url")) (d_optional param)
                                   (d_name param) (d_description param)),
              polluted)
      end
  | None =>
      if str_eqb key (lit "__proto__") then Ok (segment_text, keys, params, true)
      else if inherited key then Ok (segment_text, keys, params, polluted)
      else if polluted && str_eqb key (lit "type") then
        Throw (cannot_create "type" "string")
      else if polluted && str_eqb key (lit "source") then
        Throw (cannot_create "type" "url")
      else
        Ok (segment_text, keys,
            set params key (Decl (Some (TName (lit "string"))) (Some (lit "url"))
                                 false None None),
            polluted)
  end.

(** [path.replace(/\/:(\w+)/g, callback)]: the callback runs once per match,
    in order; an exception leaves the loop. *)
Fixpoint replace_segments (items : list item) (keys : list str) (params : obj decl)
         (polluted : bool)
  : result (str * list str * obj decl * bool) :=
  match items with
  | [] => Ok ([], keys, params, polluted)
  | ILit c :: items' =>
      r <- replace_segments items' keys params polluted ;;
      let '(text, keys', params', polluted') := r in
      Ok (c :: text, keys', params', polluted')
  | ISeg key :: items' =>
      r <- on_segment key keys params polluted ;;
      let '(seg, keys1, params1, polluted1) := r in
      r' <- replace_segments items' keys1 params1 polluted1 ;;
      let '(text, keys', params', polluted') := r' in
      Ok (seg ++ text, keys', params', polluted')
  end.

(** [.replace(/([\/.])/g, '\\$1')] *)
Definition escape (s : str) : str :=
  flat_map (fun c => if Ascii.eqb c "/" || Ascii.eqb c "."
                     then ["\"%char; c] else [c]) s.

(** ['^' + path + '$'] *)
Definition pattern_source (path : str) : str := lit "^" ++ path ++ lit "$".

(** [normalizePath(path, keys, params)]: the pattern, [keys] and [params] as
    the call leaves them, and whether it has written to
    [Object.prototype]. *)
Definition normalizePath (path : str) (keys : list str) (params : obj entry)
  : outcome (RegExp.regexp * list str * obj decl * bool) :=
  let params := map (fun kv => (fst kv, expand (snd kv))) params in
  r <-- replace_segments (scan path) keys params false ;;
  let '(path', keys', params', polluted) := r in
  re <-- RegExp.new (pattern_source (escape path')) ;;
  Ok (re, keys', params', polluted).

(** *** normalizeParams *)

(** A parameter once normalised: the type is a type object, the source one
    of [url], [query], [body], [optional] a boolean. *)
Record param := Param {
  p_type : type;
  p_source : str;
  p_optional : bool;
  p_name : option str;
  p_description : option str
}.

Definition invalid_source : exn :=
  Error (lit "parameter source muste be 'url', 'query' or 'body'").

Definition falsy (s : option str) : bool :=
  match s with
  | None | Some [] => true
  | Some (_ :: _) => false
  end.

Definition source_is (s : option str) (name : string) : bool :=
  match s with
  | Some x => str_eqb x (lit name)
  | None => false
  end.

(** The body of the loop of [normalizeParams]. *)
Definition normalize_param (types : Types) (d : decl) : result param :=
  r <- (if source_is (d_source d) "query" then
          Ok (or_default (d_type d) (lit "string"), lit "query")
        else if falsy (d_source d) || source_is (d_source d) "body" then
          Ok (or_default (d_type d) (lit "json"), lit "body")
        else if negb (source_is (d_source d) "url") then
          Throw invalid_source
        else Ok (d_type d, lit "url")) ;;
  let ty := match fst r with
            | Some (TRegExp re) => Some (TObject (RegExpType types re))
            | t => t
            end in
  t <- types_get types ty ;;
  Ok (Param t (snd r) (d_optional d) (d_name d) (d_description d)).

(** The loop of [normalizeParams] on the properties of [params] itself. *)
Fixpoint normalize_own (types : Types) (params : obj decl) : result (obj param) :=
  match params with
  | [] => Ok []
  | (name, d) :: params' =>
      p <- normalize_param types d ;;
      ps <- normalize_own types params' ;;
      Ok ((name, p) :: ps)
  end.

(** A parameter object as it reads once [Object.prototype] has [type] and
    [source]: a property it does not have is the inherited one. *)
Definition inheriting (d : decl) : decl :=
  Decl (match d_type d with None => Some (TName (lit "string")) | t => t end)
       (match d_source d with None => Some (lit "url") | s => s end)
       (d_optional d) (d_name d) (d_description d).

(** [normalizeParams(params)].  Once [Object.prototype] has [type] and
    [source], the loop visits these two names after the properties of
    [params], unless [params] has them itself, and the assignment of
    [optional] to a string throws. *)
Definition normalizeParams (types : Types) (polluted : bool) (params : obj decl)
  : outcome (obj param) :=
  if polluted then
    ps <-- normalize_own types (map (fun kv => (fst kv, inheriting (snd kv))) params) ;;
    if negb (has params (lit "type")) then Throw (cannot_create "optional" "string")
    else if negb (has params (lit "source")) then Throw (cannot_create "optional" "url")
    else Unsupported
  else Done (normalize_own types params).

(** *** The constructor *)

(** The instance, without the handlers of [middlewares] (they are the
    caller's) and without [lastMatch], the one property that changes after
    construction: the operations below take it and give it back.  [name] is
    what [self.name] reads; the constructor leaves it unset. *)
Record RouteSpec := RouteSpec_ {
  method : str;
  routeRe : RegExp.regexp;
  keys : list str;
  params : obj param;
  name : option str
}.

(** [new Route(route, options, handler, types)].  An instance with a
    parameter named [__proto__] is left out: see [put]. *)
Definition Route (route : str) (opts : options) (types : Types) : outcome RouteSpec :=
  let method := toLowerCase (match o_method opts with
                             | Some ((_ :: _) as v) => v
                             | _ => lit "GET"
                             end) in
  let params := match o_params opts with Some ps => ps | None => [] end in
  r <-- normalizePath route [] params ;;
  let '(routeRe, keys, params, polluted) := r in
  params <-- normalizeParams types polluted params ;;
  if has params (lit "__proto__") then Unsupported
  else Ok (RouteSpec_ method routeRe keys params None).

(** *** match *)

(** [m[i]] as a value: [undefined] for a group that took no part or an
    index past the end. *)
Definition capture (m : list (option str)) (i : nat) : value :=
  match i with
  | 0 => VUndefined
  | S j => match nth j m None with
           | Some s => VStr s
           | None => VUndefined
           end
  end.

(** The [for] loop of [match], from index [i] on; the second component is
    [lastMatch] when the loop is left.  For a key that [params] does not
    have and [Object.prototype] has, [params[key]] is an object of the
    language and its [type] has no [parse]: the call throws inside [try]. *)
Fixpoint match_loop (ps : obj param) (m : list (option str)) (ks : list str)
         (i : nat) (lastMatch : obj value) : outcome bool * obj value :=
  match ks with
  | [] => (Ok true, lastMatch)
  | key :: ks' =>
      match get ps key with
      | None =>
          if inherited key then (Ok false, [])
          else (Throw (TypeError (lit "Cannot read properties of undefined")), lastMatch)
      | Some param =>
          match parse (p_type param) (capture m (i + 1)) with
          | Throw _ => (Ok false, [])
          | Ok value =>
              match check (p_type param) value with
              | Throw e => (Throw e, lastMatch)
              | Ok false => (Ok false, [])
              | Ok true =>
                  match put lastMatch key value with
                  | Done (Ok lastMatch') => match_loop ps m ks' (S i) lastMatch'
                  | Done (Throw e) => (Throw e, lastMatch)
                  | Unsupported => (Unsupported, lastMatch)
                  end
              end
          end
      end
  end.

(** [this.match(path)]: the result, and [lastMatch] after the call. *)
Definition match_ (self : RouteSpec) (path : str) (lastMatch : obj value)
  : outcome bool * obj value :=
  match RegExp.exec (routeRe self) path with
  | None => (Ok false, lastMatch)
  | Some m => match_loop (params self) m (keys self) 0 []
  end.

(** *** decodeParams *)

Record request := Request {
  body : option (obj value);
  query : obj value
}.

(** What [decodeParams] does to the outside: the calls on [res] and the
    call of [next]. *)
Inductive event :=
| WriteHead (status : nat) (headers : obj str)
| End_ (data : str)
| Next.

(** An entry of [errors] is an object whose properties are all strings. *)
Definition violation := obj str.

Definition resource_of (self : RouteSpec) : str :=
  match name self with
  | Some ((_ :: _) as n) => n
  | _ => lit "root"
  end.

Definition missing_field (self : RouteSpec) (key : str) (p : param) : violation :=
  [(lit "resource", resource_of self); (lit "field", key);
   (lit "source", p_source p); (lit "code", lit "missing_field")].

Definition invalid (self : RouteSpec) (key : str) (p : param) : violation :=
  [(lit "resource", resource_of self); (lit "field", key);
   (lit "type_expected", toString (p_type p)); (lit "code", lit "invalid")].

Definition is_source (p : param) (name : string) : bool :=
  str_eqb (p_source p) (lit name).

(** The condition of the first [if] of the loop. *)
Definition is_missing (body query urlParams : obj value) (key : str) (p : param) : bool :=
  negb (p_optional p)
  && ((is_source p "body" && negb (in_ body key))
      || (is_source p "query" && negb (in_ query key))
      || (is_source p "url" && negb (in_ urlParams key))).

(** The [switch]: the value ([None] is the marker [EMPTY]) and [isValid]. *)
Definition decode_value (body query urlParams : obj value) (key : str) (p : param)
  : result (option value * bool) :=
  if is_source p "body" then
    if p_optional p && negb (in_ body key) then Ok (None, true)
    else
      let value := lookup body key in
      isValid <- check (p_type p) value ;;
      Ok (Some value, isValid)
  else if is_source p "query" then
    if p_optional p && negb (in_ query key) then Ok (None, true)
    else
      match parse (p_type p) (lookup query key) with
      | Throw _ => Ok (None, false)
      | Ok value =>
          isValid <- check (p_type p) value ;;
          Ok (Some value, isValid)
      end
  else if is_source p "url" then
    if p_optional p && negb (in_ urlParams key) then Ok (None, true)
    else Ok (Some (lookup urlParams key), true)
  else Ok (None, true).

(** One round of the [for (key in params)] loop on [errors] and
    [req.params]. *)
Definition decode_param (self : RouteSpec) (body query urlParams : obj value)
           (key : str) (p : param) (acc : list violation * obj value)
  : outcome (list violation * obj value) :=
  let (errors, req_params) := acc in
  if is_missing body query urlParams key p then
    Ok (errors ++ [missing_field self key p], req_params)
  else
    r <-- decode_value body query urlParams key p ;;
    let (value, isValid) := r in
    if negb isValid then Ok (errors ++ [invalid self key p], req_params)
    else match value with
         | Some v =>
             req_params' <-- put req_params key v ;;
             Ok (errors, req_params')
         | None => Ok (errors, req_params)
         end.

Fixpoint decode_loop (self : RouteSpec) (body query urlParams : obj value)
         (ps : obj param) (acc : list violation * obj value)
  : outcome (list violation * obj value) :=
  match ps with
  | [] => Ok acc
  | (key, p) :: ps' =>
      acc' <-- decode_param self body query urlParams key p acc ;;
      decode_loop self body query urlParams ps' acc'
  end.

(** [JSON.stringify] on the values [decodeParams] hands to it. *)
#[local] Unset Elimination Schemes.
Inductive json :=
| JString (s : str)
| JArray (l : list json)
| JObject (l : list (str * json)).
#[local] Set Elimination Schemes.

Definition hex_digit (n : nat) : ascii :=
  nth n (lit "0123456789abcdef") "0"%char.

Definition ch_quote : ascii := ascii_of_nat 34.

Definition quote_char (c : ascii) : str :=
  let n := nat_of_ascii c in
  if n =? 34 then [ch_bslash; ch_quote]
  else if n =? 92 then [ch_bslash; ch_bslash]
  else if n =? 8 then lit "\b"
  else if n =? 12 then lit "\f"
  else if n =? 10 then lit "\n"
  else if n =? 13 then lit "\r"
  else if n =? 9 then lit "\t"
  else if n <? 32 then lit "\u00" ++ [hex_digit (n / 16); hex_digit (n mod 16)]
  else [c].

Definition quote (s : str) : str :=
  [ch_quote] ++ flat_map quote_char s ++ [ch_quote].

Definition join (parts : list str) : str :=
  match parts with
  | [] => []
  | p :: ps => p ++ flat_map (fun q => lit "," ++ q) ps
  end.

Fixpoint JSON_stringify (j : json) : str :=
  match j with
  | JString s => quote s
  | JArray l => lit "[" ++ join (map JSON_stringify l) ++ lit "]"
  | JObject l =>
      lit "{" ++ join (map (fun kv => quote (fst kv) ++ lit ":" ++ JSON_stringify (snd kv)) l)
          ++ lit "}"
  end.

Definition json_of_violation (v : violation) : json :=
  JObject (map (fun kv => (fst kv, JString (snd kv))) v).

Definition validation_failed (errors : list violation) : json :=
  JObject [(lit "message", JString (lit "Validation failed"));
           (lit "errors", JArray (map json_of_violation errors))].

(** [decodeParams(req, res, next)]: what it did to [res] and [next], and
    [req.params] afterwards.  [lastMatch] is what [self.lastMatch] holds;
    every assignment to it stores an object, so the guard of the first line
    never returns. *)
Definition decodeParams (self : RouteSpec) (lastMatch : obj value) (req : request)
  : outcome (list event * obj value) :=
  let body := match body req with Some b => b | None => [] end in
  let query := query req in
  let urlParams := lastMatch in
  r <-- decode_loop self body query urlParams (params self) ([], []) ;;
  let (errors, req_params) := r in
  match errors with
  | _ :: _ =>
      Ok ([WriteHead 422 [(lit "Content-Type", lit "application/json")];
           End_ (JSON_stringify (validation_failed errors))], req_params)
  | [] => Ok ([Next], req_params)
  end.

(** *** describe *)

(** An entry of [route.params] in the description. *)
Record param_description := ParamDescription {
  pd_name : option str;
  pd_type : str;
  pd_source : str;
  pd_optional : bool;
  pd_description : option str
}.

(** The object [describe] returns; a property it does not write, or
    deletes, is [None]. *)
Record description := Description {
  ds_route : str;
  ds_method : str;
  ds_name : option str;
  ds_description : option str;
  ds_params : option (obj param_description)
}.

(** [if (x) ...] on a string property: unset and empty are falsy. *)
Definition truthy (s : option str) : option str :=
  match s with
  | Some ((_ :: _) as x) => Some x
  | _ => None
  end.

Definition describe_param (p : param) : param_description :=
  ParamDescription (p_name p) (toString (p_type p)) (p_source p) (p_optional p)
                   (truthy (p_description p)).

(** The loop of [describe] on [route.params]. *)
Fixpoint describe_loop (ps : obj param) (acc : obj param_description)
  : outcome (obj param_description) :=
  match ps with
  | [] => Ok acc
  | (name, p) :: ps' =>
      acc' <-- put acc name (describe_param p) ;;
      describe_loop ps' acc'
  end.

(** [this.describe()]: [route] and [opts] are the constructor's arguments,
    which the method reads through [options]. *)
Definition describe (route : str) (opts : options) (self : RouteSpec)
  : outcome description :=
  described <-- describe_loop (params self) [] ;;
  Ok (Description route (method self) (truthy (o_name opts)) (truthy (o_description opts))
                  (match described with
                   | [] => None
                   | _ :: _ => Some described
                   end)).

(** ** Notions the statements use *)

(** The own property [k] of [o], [undefined] when there is none. *)
Definition get_or_undefined (o : obj value) (k : str) : value :=
  match get o k with Some v => v | None => VUndefined end.

(** The parameter [key] is violated by a request, as the validator's
    contract words it: a required value is absent from its source; or a
    body value fails [check]; or a query value fails [parse] or [check].
    A URL value is trusted.  A value is present when [key in source]
    holds. *)
Definition supplied (body query urlParams : obj value) (key : str) (p : param) : bool :=
  if is_source p "body" then in_ body key
  else if is_source p "query" then in_ query key
  else if is_source p "url" then in_ urlParams key
  else true.

Definition fails_check (t : type) (v : value) : bool :=
  match check t v with Ok false => true | _ => false end.

Definition violated (body query urlParams : obj value) (kp : str * param) : bool :=
  let (key, p) := kp in
  if supplied body query urlParams key p then
    if is_source p "body" then fails_check (p_type p) (lookup body key)
    else if is_source p "query" then
      match parse (p_type p) (lookup query key) with
      | Throw _ => true
      | Ok v => fails_check (p_type p) v
      end
    else false
  else negb (p_optional p).

(** No [check] of the schema throws. *)
Definition checks_total (ps : obj param) : Prop :=
  forall key p v, In (key, p) ps -> exists b, check (p_type p) v = Ok b.

Definition body_of (req : request) : obj value :=
  match body req with Some b => b | None => [] end.

(** What [decodeParams] does once the loop has left [errors]. *)
Definition response_for (errors : list violation) : list event :=
  match errors with
  | [] => [Next]
  | _ :: _ =>
      [WriteHead 422 [(lit "Content-Type", lit "application/json")];
       End_ (JSON_stringify (validation_failed errors))]
  end.

Definition entry_of self bd q u (kp : str * param) : violation :=
  if is_missing bd q u (fst kp) (snd kp)
  then missing_field self (fst kp) (snd kp) else invalid self (fst kp) (snd kp).

(** A declared source that is neither empty nor [url]. *)
Definition conflicts (d : decl) : Prop :=
  exists src, d_source d = Some src /\ src <> [] /\ src <> lit "url".

(** The text of the 422 response as the interface gives it:
    [{"message":"Validation failed","errors":[...]}] with one object per
    entry, its properties in the order they were written. *)
Definition record_text (v : violation) : str :=
  lit "{" ++ join (map (fun kv => quote (fst kv) ++ lit ":" ++ quote (snd kv)) v) ++ lit "}".

(** A text written with ['] where it has the double quote. *)
Definition quoted (s : string) : str :=
  map (fun c => if Ascii.eqb c "'" then ch_quote else c) (lit s).

Definition body_text (errors : list violation) : str :=
  quoted "{'message':'Validation failed','errors':[" ++ join (map record_text errors)
    ++ lit "]}".

(** ** Templates without pattern syntax *)

(** The characters with a meaning in a pattern that [normalizePath] lets
    through as they are ([/] and [.] are the two it escapes). *)
Definition is_meta (c : ascii) : bool :=
  existsb (Ascii.eqb c) (lit "\^$*+?()[]{}|").

Definition plain (template : str) : bool := forallb (fun c => negb (is_meta c)) template.

Definition seg_keys (items : list item) : list str :=
  flat_map (fun i => match i with ISeg key => [key] | ILit _ => [] end) items.

(** The names of the [/:name] places of a template, one position after the
    other: a place starts wherever [/:] is followed by a word character, and
    its name is the run of word characters there. *)
Fixpoint names_at (template : str) : list str :=
  match template with
  | [] => []
  | c :: s =>
      match seg_at template with
      | Some (key, _) => key :: names_at s
      | None => names_at s
      end
  end.

(** The class the segment text ends up as: neither [\] nor [/]. *)
Definition seg_char (c : ascii) : bool :=
  negb (Ascii.eqb c "\") && negb (Ascii.eqb c "/").

(** A path laid against the items of a template: a literal stands for
    itself, a segment for [/] and a non-empty run of segment characters,
    which is its capture. *)
Inductive fits : list item -> str -> list str -> Prop :=
| fits_nil : fits [] [] []
| fits_lit c items p caps :
    fits items p caps -> fits (ILit c :: items) (c :: p) caps
| fits_seg key items s p caps :
    s <> [] -> forallb seg_char s = true -> fits items p caps ->
    fits (ISeg key :: items) ("/"%char :: s ++ p) (s :: caps).

(** The same with the segments as the contract words them: a non-empty run
    of characters other than [/]. *)
Inductive covers : list item -> str -> list str -> Prop :=
| covers_nil : covers [] [] []
| covers_lit c items p runs :
    covers items p runs -> covers (ILit c :: items) (c :: p) runs
| covers_seg key items s p runs :
    s <> [] -> ~ In "/"%char s -> covers items p runs ->
    covers (ISeg key :: items) ("/"%char :: s ++ p) (s :: runs).

Definition slashes (s : str) : nat := count_occ ascii_dec s "/"%char.

(** The syntax tree of the pattern of a template without pattern syntax. *)
Definition seg_class : RegExp.re :=
  RegExp.Class true [RegExp.CRange 92 92; RegExp.CRange 47 47].

(** What the text of a segment is parsed to, but for the number of its
    group. *)
Definition seg_rule : RegExp.re :=
  RegExp.Seq (RegExp.Repeat 1 None true seg_class) RegExp.Empty.

Fixpoint nodes (items : list item) (n : nat) : list RegExp.re :=
  match items with
  | [] => []
  | ILit c :: items' => RegExp.Char (RegExp.code c) :: nodes items' n
  | ISeg _ :: items' =>
      RegExp.Char 47 :: RegExp.Group (S n) seg_rule :: nodes items' (S n)
  end.

Definition tree_of (items : list item) : RegExp.re :=
  RegExp.seq_of (RegExp.Bol :: nodes items 0 ++ [RegExp.Eol]).

Definition item_text (i : item) : str :=
  match i with
  | ILit c => [c]
  | ISeg _ => segment_text
  end.

Definition item_source (i : item) : str :=
  match i with
  | ILit c => [c]
  | ISeg key => "/"%char :: ":"%char :: key
  end.

Definition lit_ok (i : item) : Prop :=
  match i with
  | ILit c => is_meta c = false
  | ISeg _ => True
  end.

Definition item_slashes (i : item) : nat :=
  match i with
  | ILit c => if ascii_dec c "/" then 1 else 0
  | ISeg _ => 1
  end.

(** The captures after the groups [n + 1], [n + 2], ... took [caps]. *)
Fixpoint add_caps (n : nat) (caps : list str) (cs : list (nat * str)) : list (nat * str) :=
  match caps with
  | [] => cs
  | s :: caps' =>
      add_caps (S n) caps' ((S n, s) :: filter (fun c => negb (fst c =? S n)) cs)
  end.

(** The tokens of the pattern of an item. *)
Definition item_tokens (i : item) : list RegExp.token :=
  match i with
  | ILit c => [RegExp.TAtom (RegExp.Char (RegExp.code c))]
  | ISeg _ => [RegExp.TAtom (RegExp.Char 47); RegExp.TOpen RegExp.Capture;
               RegExp.TAtom seg_class; RegExp.TQuant 1 None true; RegExp.TClose]
  end.

(** The character before the input still to read, once [s] has been read. *)
Definition walk (before : option ascii) (s : str) : option ascii :=
  fold_left (fun _ a => Some a) s before.

(** ** Patterns in general *)

(** The token at the head, then the tokens of what follows it. *)
Definition followed_by (tok : RegExp.token) (r : RegExp.answer (list RegExp.token))
  : RegExp.answer (list RegExp.token) :=
  match r with
  | RegExp.Fine toks => RegExp.Fine (tok :: toks)
  | RegExp.Bad => RegExp.Bad
  | RegExp.Beyond => RegExp.Beyond
  end.

Definition then_tokens (toks : list RegExp.token) (r : RegExp.answer (list RegExp.token))
  : RegExp.answer (list RegExp.token) :=
  match r with
  | RegExp.Fine l => RegExp.Fine (toks ++ l)
  | RegExp.Bad => RegExp.Bad
  | RegExp.Beyond => RegExp.Beyond
  end.

(** The groups of a pattern that capture, in the order of their opening
    parentheses, each with what it encloses. *)
Fixpoint capturing (r : RegExp.re) : list (nat * RegExp.re) :=
  match r with
  | RegExp.Seq a b | RegExp.Alt a b => capturing a ++ capturing b
  | RegExp.Repeat _ _ _ a | RegExp.Look _ a => capturing a
  | RegExp.Group i a => (i, a) :: capturing a
  | _ => []
  end.

(** The characters a token other than a class can hold after its first
    two: those of a number, of an escape, of an interval and of the head of
    a group. *)
Definition inner (c : ascii) : bool :=
  RegExp.is_letter c || RegExp.is_digit c || existsb (Ascii.eqb c) (lit ",}?:=!_").

(** The characters of [s] from index [from] up to [len] are such ones. *)
Definition held (s : str) (from len : nat) : Prop :=
  forall i, from <= i -> i < len -> inner (nth i s " "%char) = true.

(** The text of a pattern every parenthesis of which opens the group of a
    segment: it comes after [/] and starts [([^\\/]+)]. *)
Definition group_text : str := lit "([^\\/]+)".

Inductive segmented : str -> Prop :=
| segmented_nil : segmented []
| segmented_char c s : c <> "("%char -> segmented s -> segmented (c :: s)
| segmented_group s : segmented s -> segmented ("/"%char :: group_text ++ s).

Definition opens (s : str) : nat := count_occ ascii_dec s "("%char.

(** The groups of the terms of a frame, in the order of the pattern. *)
Definition frame_caps (f : RegExp.frame) : list (nat * RegExp.re) :=
  flat_map capturing (rev (RegExp.alts f)) ++ flat_map capturing (rev (RegExp.cur f)).

(** The kinds of token a character starts. *)
Definition starts (c : ascii) (tok : RegExp.token) : Prop :=
  match tok with
  | RegExp.TAtom a => capturing a = [] /\ a <> RegExp.Bol /\ a <> RegExp.Eol
  | RegExp.TAssert a => capturing a = []
  | RegExp.TOpen k => c = "("%char
  | RegExp.TClose => c = ")"%char
  | RegExp.TBar => c = "|"%char
  | RegExp.TQuant _ _ _ => True
  end.
(** The pattern is one alternative that starts with [^] and ends with
    [$]. *)
Fixpoint ends_at_eol (r : RegExp.re) : bool :=
  match r with
  | RegExp.Seq RegExp.Eol RegExp.Empty => true
  | RegExp.Seq _ b => ends_at_eol b
  | _ => false
  end.

Definition anchored (r : RegExp.re) : bool :=
  match r with
  | RegExp.Seq RegExp.Bol b => ends_at_eol b
  | _ => false
  end.

(** The frame at the bottom of the parser's stack. *)
Definition base_frame (top : RegExp.frame) (stack : list RegExp.frame) : RegExp.frame :=
  last stack top.

(** That frame has no alternative yet and starts with [^], which no
    quantifier can take. *)
Definition rooted (f : RegExp.frame) : Prop :=
  RegExp.alts f = []
  /\ exists l, RegExp.cur f = l ++ [RegExp.Bol] /\ (l = [] -> RegExp.quantifiable f = false).


(** ** More notions the statements use *)

(** An object has each of its names once. *)
Definition unique_names {A} (o : obj A) : Prop := NoDup (map fst o).

Definition declared (opts : options) : obj entry :=
  match o_params opts with Some ps => ps | None => [] end.

(** What the replacement callback leaves of a parameter object. *)
Definition complete (d : decl) : decl :=
  Decl (or_default (d_type d) (lit "string")) (Some (lit "url"))
       (d_optional d) (d_name d) (d_description d).

Definition empty_decl : decl := Decl None None false None None.

(** The parameter object under a name, the empty object when there is none. *)
Definition decl_at (ps : obj decl) (key : str) : decl :=
  match get ps key with Some d => d | None => empty_decl end.

Definition mentions (k : str) (ks : list str) : bool := existsb (str_eqb k) ks.

(** The type of [key] parses and checks the segment text [s]. *)
Definition accepted (ps : obj param) (key : str) (s : str) : Prop :=
  exists p v, get ps key = Some p
    /\ parse (p_type p) (VStr s) = Ok v
    /\ check (p_type p) v = Ok true.

(** The value [decodeParams] stores for a parameter: none for a violated
    or an absent one. *)
Definition decoded (body query urlParams : obj value) (key : str) (p : param)
  : option value :=
  if violated body query urlParams (key, p) then None
  else if is_source p "body" then
    if in_ body key then Some (lookup body key) else None
  else if is_source p "query" then
    if in_ query key then
      match parse (p_type p) (lookup query key) with
      | Ok v => Some v
      | Throw _ => None
      end
    else None
  else if is_source p "url" then
    if in_ urlParams key then Some (lookup urlParams key) else None
  else None.

(** A segment name for which [params] gets a parameter: one the options
    declare, or one that [Object.prototype] does not have. *)
Definition settled (opts : options) (key : str) : bool :=
  has (declared opts) key || negb (inherited key).

(** ** A registry to run the code on *)

(** Modelled from the spec: [./types] is not among the sources.  The
    registry resolves the names [string], [number] and [json] and hands a
    type object back as it is; [parse] fails on unparseable input and
    [check] returns a boolean. *)
Module Sample.

Definition string_type : type :=
  Type_ (fun v => Ok v)
        (fun v => Ok (match v with VStr _ => true | _ => false end))
        (lit "string").

Definition digit_of (c : ascii) : option Z :=
  let n := nat_of_ascii c in
  if (48 <=? n) && (n <=? 57) then Some (Z.of_nat (n - 48)) else None.

Fixpoint digits (s : str) (acc : Z) : option Z :=
  match s with
  | [] => Some acc
  | c :: s' => match digit_of c with
               | Some d => digits s' (10 * acc + d)
               | None => None
               end
  end.

Definition number_type : type :=
  Type_ (fun v => match v with
                  | VStr (c :: s) =>
                      match digits (c :: s) 0 with
                      | Some z => Ok (VNum z)
                      | None => Throw (Error (lit "Could not parse string as number"))
                      end
                  | _ => Throw (Error (lit "Could not parse string as number"))
                  end)
        (fun v => Ok (match v with VNum _ => true | _ => false end))
        (lit "number").

Definition json_type : type :=
  Type_ (fun v => Ok v) (fun _ => Ok true) (lit "json").

(** A type object of the caller whose [check] reads [value.length]: it
    throws on [null] and [undefined]. *)
Definition nonempty_type : type :=
  Type_ (fun v => Ok v)
        (fun v => match v with
                  | VStr s => Ok (negb (str_eqb s []))
                  | VArr l => Ok (match l with [] => false | _ => true end)
                  | VNull | VUndefined =>
                      Throw (TypeError (lit "Cannot read properties of null"))
                  | _ => Ok false
                  end)
        (lit "nonempty").

Definition regexp_type (src : str) : type :=
  Type_ (fun v => Ok v)
        (fun v => match v, RegExp.new src with
                  | VStr s, Done (Ok re) =>
                      Ok (match RegExp.exec re s with Some _ => true | None => false end)
                  | _, _ => Ok false
                  end)
        src.

Definition types : Types :=
  Types_ (fun spec =>
            match spec with
            | Some (TObject t) => Ok t
            | Some (TName n) =>
                if str_eqb n (lit "string") then Ok string_type
                else if str_eqb n (lit "number") then Ok number_type
                else if str_eqb n (lit "json") then Ok json_type
                else Throw (Error (lit "Unknown type"))
            | Some (TRegExp src) => Ok (regexp_type src)
            | None => Throw (Error (lit "Unknown type"))
            end)
         regexp_type.

Definition param_of (source : string) (ty : type_spec) (optional : bool) : entry :=
  EObject (Decl (Some ty) (Some (lit source)) optional None None).

Definition no_options : options := Options None None None None.

Definition with_params (ps : obj entry) : options := Options None (Some ps) None None.

Definition built (r : outcome RouteSpec) : RouteSpec :=
  match r with
  | Done (Ok self) => self
  | _ => RouteSpec_ [] (RegExp.RegExp_ [] RegExp.Empty 0) [] [] None
  end.

Definition is_ok {A} (r : outcome A) : bool :=
  match r with Done (Ok _) => true | _ => false end.

Definition errors_of (self : RouteSpec) (lastMatch : obj value) (req : request)
  : list violation :=
  match decode_loop self (body_of req) (query req) lastMatch (params self) ([], []) with
  | Done (Ok (errors, _)) => errors
  | _ => []
  end.

Definition users : RouteSpec := built (Route (lit "/users/:id") no_options types).

Definition either : RouteSpec := built (Route (lit "/a|/b") no_options types).

Definition grouped : RouteSpec := built (Route (lit "/(a)/:id") no_options types).

Definition twice : RouteSpec := built (Route (lit "/:id/x/:id") no_options types).

Definition optional_slash : RouteSpec := built (Route (lit "/a/?") no_options types).

Definition trailing_backslash : RouteSpec := built (Route (lit "/a\") no_options types).


Definition counted : RouteSpec := built (Route (lit "/a{2}/:id") no_options types).

Definition by_constructor : RouteSpec :=
  built (Route (lit "/:constructor") no_options types).

Definition items_params : obj entry :=
  [(lit "id", EString (lit "number"));
   (lit "name", EString (lit "string"));
   (lit "age", param_of "query" (TName (lit "number")) false)].

Definition items : RouteSpec :=
  built (Route (lit "/items/:id") (with_params items_params) types).



Definition items_request : request :=
  Request None [(lit "age", VStr (lit "x"))].

Definition items_match : obj value := [(lit "id", VNum 42)].

Definition items_errors : list violation :=
  [[(lit "resource", lit "root"); (lit "field", lit "name");
    (lit "source", lit "body"); (lit "code", lit "missing_field")];
   [(lit "resource", lit "root"); (lit "field", lit "age");
    (lit "type_expected", lit "number"); (lit "code", lit "invalid")]].

Definition tags_param : param := Param nonempty_type (lit "body") false None None.

Definition page_param : param := Param number_type (lit "query") false None None.



(** A required query parameter before a body parameter whose [check]
    throws on [null]. *)
Definition drafts_params : obj entry :=
  [(lit "page", param_of "query" (TName (lit "number")) false);
   (lit "tags", param_of "body" (TObject nonempty_type) false)].

Definition drafts : RouteSpec :=
  built (Route (lit "/drafts") (with_params drafts_params) types).

Definition notes_params : obj entry :=
  [(lit "page", param_of "query" (TName (lit "number")) false);
   (lit "title", param_of "body" (TName (lit "string")) false);
   (lit "tags", param_of "body" (TObject nonempty_type) false)].

Definition notes : RouteSpec :=
  built (Route (lit "/notes") (with_params notes_params) types).

Definition title_param : param := Param string_type (lit "body") false None None.

Definition only_null_tags : request := Request (Some [(lit "tags", VNull)]) [].

Definition query_id : options :=
  with_params [(lit "id", param_of "query" (TName (lit "string")) false)].

Definition header_token : options :=
  with_params [(lit "token", param_of "header" (TName (lit "string")) false)].

Definition status : RouteSpec := built (Route (lit "/status.json") no_options types).

Definition search_params : obj entry :=
  [(lit "q", EObject (Decl None (Some (lit "query")) true None None));
   (lit "filter", EObject (Decl None None false None None))].

Definition search : RouteSpec :=
  built (Route (lit "/search") (with_params search_params) types).

End Sample.

(** ** Strings and objects *)

#[local] Arguments decode_param : simpl never.
#[local] Arguments decode_value : simpl never.

Lemma str_eqb_eq (a b : str) : str_eqb a b = true <-> a = b.
Proof.
  revert b; induction a as [|x a IH]; intros [|y b]; simpl; split; intro H;
    try reflexivity; try discriminate.
  - apply andb_true_iff in H as [Hx Hab]. apply Ascii.eqb_eq in Hx.
    apply IH in Hab. congruence.
  - inversion H; subst. apply andb_true_iff. split.
    + apply Ascii.eqb_refl.
    + now apply IH.
Qed.

Lemma str_eqb_refl (a : str) : str_eqb a a = true.
Proof. now apply str_eqb_eq. Qed.

Lemma str_eqb_neq (a b : str) : str_eqb a b = false <-> a <> b.
Proof.
  split.
  - intros H E. apply str_eqb_eq in E. congruence.
  - intro H. destruct (str_eqb a b) eqn:E; [|reflexivity].
    apply str_eqb_eq in E. contradiction.
Qed.

Lemma str_eqb_sym a b : str_eqb a b = str_eqb b a.
Proof.
  destruct (str_eqb a b) eqn:E.
  - apply str_eqb_eq in E. subst. symmetry. apply str_eqb_refl.
  - symmetry. apply str_eqb_neq. apply str_eqb_neq in E. congruence.
Qed.

Lemma get_update_same {A} (o : obj A) k v :
  has o k = true -> get (update o k v) k = Some v.
Proof.
  unfold has. induction o as [|[k' v'] o IH]; simpl; [discriminate|].
  destruct (str_eqb k' k) eqn:E; simpl; rewrite E; auto.
Qed.

Lemma get_update_other {A} (o : obj A) k k' v :
  k <> k' -> get (update o k v) k' = get o k'.
Proof.
  intro Hne. induction o as [|[k0 v0] o IH]; simpl; [reflexivity|].
  destruct (str_eqb k0 k) eqn:E; simpl.
  - apply str_eqb_eq in E. subst k0.
    destruct (str_eqb k k') eqn:E'; [|reflexivity].
    apply str_eqb_eq in E'. contradiction.
  - now rewrite IH.
Qed.

Lemma get_insert_same {A} (o : obj A) n k v :
  get o k = None -> get (insert_index o n k v) k = Some v.
Proof.
  induction o as [|[k' v'] o IH]; simpl; intro H.
  - now rewrite str_eqb_refl.
  - destruct (str_eqb k' k) eqn:E; [discriminate|].
    destruct (array_index k') as [n'|]; [destruct (n' <? n)%N|]; simpl;
      rewrite ?E, ?str_eqb_refl; auto.
Qed.

Lemma get_insert_other {A} (o : obj A) n k k' v :
  k <> k' -> get (insert_index o n k v) k' = get o k'.
Proof.
  intro Hne. apply str_eqb_neq in Hne.
  induction o as [|[k0 v0] o IH]; simpl.
  - now rewrite Hne.
  - destruct (array_index k0) as [n'|]; [destruct (n' <? n)%N|]; simpl;
      rewrite ?Hne, ?IH; reflexivity.
Qed.

Lemma get_app_new {A} (o : obj A) k k' v :
  get (o ++ [(k, v)]) k' = match get o k' with
                           | Some x => Some x
                           | None => if str_eqb k k' then Some v else None
                           end.
Proof.
  induction o as [|[k0 v0] o IH]; simpl; [reflexivity|].
  destruct (str_eqb k0 k'); auto.
Qed.

Lemma get_set_same {A} (o : obj A) k v : get (set o k v) k = Some v.
Proof.
  unfold set. destruct (has o k) eqn:H.
  - now apply get_update_same.
  - assert (Hn : get o k = None).
    { unfold has in H. destruct (get o k); [discriminate | reflexivity]. }
    destruct (array_index k).
    + now apply get_insert_same.
    + now rewrite get_app_new, Hn, str_eqb_refl.
Qed.

Lemma get_set_other {A} (o : obj A) k k' v : k <> k' -> get (set o k v) k' = get o k'.
Proof.
  intro Hne. unfold set. destruct (has o k).
  - now apply get_update_other.
  - destruct (array_index k).
    + now apply get_insert_other.
    + rewrite get_app_new. apply str_eqb_neq in Hne. rewrite Hne.
      now destruct (get o k').
Qed.

Lemma has_in {A} (o : obj A) k : has o k = true -> in_ o k = true.
Proof. unfold in_. now intros ->. Qed.

Lemma lookup_own (o : obj value) k :
  has o k = true -> lookup o k = get_or_undefined o k.
Proof.
  unfold has, lookup, get_or_undefined. now destruct (get o k).
Qed.

Lemma put_ok {A} (o o' : obj A) k v : put o k v = Ok o' -> o' = set o k v.
Proof.
  unfold put. destruct (str_eqb k (lit "__proto__") && negb (has o k));
    intro H; [discriminate | now inversion H].
Qed.

Lemma put_plain {A} (o : obj A) k v :
  k <> lit "__proto__" -> put o k v = Ok (set o k v).
Proof.
  intro H. apply str_eqb_neq in H. unfold put. now rewrite H.
Qed.

(** ** Properties of [decodeParams] *)


(** What one round adds to [errors]. *)
Lemma decode_param_errors self bd q u key p errors rp errors' rp' :
  decode_param self bd q u key p (errors, rp) = Ok (errors', rp') ->
  errors' = errors
  \/ errors' = errors ++ [missing_field self key p]
  \/ errors' = errors ++ [invalid self key p].
Proof.
  unfold decode_param.
  destruct (is_missing bd q u key p).
  - intro H; inversion H; auto.
  - destruct (decode_value bd q u key p) as [[v ok]|e]; simpl; [|discriminate].
    destruct ok; simpl.
    + destruct v as [v|]; [destruct (put rp key v) as [[rp1|e]|]; simpl|];
        intro H; inversion H; auto.
    + intro H; inversion H; auto.
Qed.

Lemma decode_loop_errors self bd q u ps :
  forall errors rp errors' rp',
  decode_loop self bd q u ps (errors, rp) = Ok (errors', rp') ->
  forall v, In v errors' ->
    In v errors
    \/ exists key p, In (key, p) ps
         /\ (v = missing_field self key p \/ v = invalid self key p).
Proof.
  induction ps as [|[key p] ps IH]; simpl; intros errors rp errors' rp' H v Hv.
  - inversion H; subst; auto.
  - destruct (decode_param self bd q u key p (errors, rp)) as [[[e1 r1]|e]|] eqn:E;
      simpl in H; try discriminate.
    destruct (IH _ _ _ _ H v Hv) as [Hin | (k & p' & Hin & Hshape)].
    + apply decode_param_errors in E.
      destruct E as [-> | [-> | ->]]; auto;
        apply in_app_or in Hin as [Hin | [<- | []]]; auto;
        right; exists key, p; auto.
    + right; exists k, p'; auto.
Qed.

Lemma decodeParams_loop self lastMatch req :
  decodeParams self lastMatch req
  = (r <-- decode_loop self (body_of req) (query req) lastMatch (params self) ([], []) ;;
     Ok (response_for (fst r), snd r)).
Proof.
  unfold decodeParams. fold (body_of req).
  destruct (decode_loop _ _ _ _ _ _) as [[[errors rp]|e]|]; try reflexivity.
  now destruct errors.
Qed.

Lemma decodeParams_ok self lastMatch req evs rp :
  decodeParams self lastMatch req = Ok (evs, rp) ->
  exists errors,
    decode_loop self (body_of req) (query req) lastMatch (params self) ([], [])
      = Ok (errors, rp)
    /\ evs = response_for errors.
Proof.
  rewrite decodeParams_loop.
  destruct (decode_loop _ _ _ _ _ _) as [[[errors rp']|e]|]; try discriminate.
  simpl. intro H; inversion H; subst. now exists errors.
Qed.

(** The text [JSON.stringify] gives for the object of the response. *)
Lemma join_two a b : join [a; b] = a ++ lit "," ++ b.
Proof. unfold join. simpl. now rewrite app_nil_r. Qed.

Lemma stringify_violation v : JSON_stringify (json_of_violation v) = record_text v.
Proof.
  unfold json_of_violation, record_text. cbn [JSON_stringify].
  rewrite map_map. reflexivity.
Qed.

Lemma stringify_response errors :
  JSON_stringify (validation_failed errors) = body_text errors.
Proof.
  unfold validation_failed, body_text.
  cbn [JSON_stringify map fst snd]. rewrite join_two.
  rewrite map_map.
  rewrite (map_ext _ record_text stringify_violation).
  repeat rewrite <- app_assoc. reflexivity.
Qed.

(** C3, as amended.  When [decodeParams] returns, it has answered for a list
    [errors] (with [next] when the list is empty, with the 422 response that
    carries the list otherwise), and every entry of [errors] belongs to a
    declared parameter and has [resource], [field] and [code]; it is either
    a [missing_field] entry, which has the parameter's [source] and no
    [type_expected], or an [invalid] entry, which has the display name of
    the parameter's type as [type_expected] and no [source]. *)
Theorem violation_fields self lastMatch req evs rp :
  decodeParams self lastMatch req = Ok (evs, rp) ->
  exists errors,
    evs = response_for errors
    /\ forall v, In v errors ->
         exists key p, In (key, p) (params self)
           /\ get v (lit "resource") = Some (resource_of self)
           /\ get v (lit "field") = Some key
           /\ ((get v (lit "code") = Some (lit "missing_field")
                /\ get v (lit "source") = Some (p_source p)
                /\ get v (lit "type_expected") = None)
               \/ (get v (lit "code") = Some (lit "invalid")
                   /\ get v (lit "type_expected") = Some (toString (p_type p))
                   /\ get v (lit "source") = None)).
Proof.
  intro H. apply decodeParams_ok in H as (errors & H & ->).
  exists errors. split; [reflexivity|]. intros v Hv.
  destruct (decode_loop_errors _ _ _ _ _ _ _ _ _ H v Hv)
    as [[] | (key & p & Hin & Hshape)].
  exists key, p. destruct Hshape; subst v; repeat split; auto.
Qed.

Ltac source_cases p :=
  unfold is_source in *;
  let s := fresh "src" in
  let Hs := fresh "Hsrc" in
  let E := fresh "Esrc" in
  remember (p_source p) as s eqn:Hs in *; revert Hs;
  destruct (str_eqb s (lit "body")) eqn:E;
  [ apply str_eqb_eq in E; subst s
  | clear E; destruct (str_eqb s (lit "query")) eqn:E;
    [ apply str_eqb_eq in E; subst s
    | clear E; destruct (str_eqb s (lit "url")) eqn:E;
      [ apply str_eqb_eq in E; subst s | ] ] ];
  intros Hs;
  cbn [str_eqb lit list_ascii_of_string Ascii.eqb Bool.eqb andb orb negb] in *.

Ltac round_done :=
  do 2 eexists; split; [reflexivity | rewrite ?app_nil_r; reflexivity].

(** One round adds an entry exactly for a violated parameter. *)
Lemma decode_param_violated self bd q u key p errors rp :
  (forall v, exists b, check (p_type p) v = Ok b) ->
  key <> lit "__proto__" ->
  exists errors' rp',
    decode_param self bd q u key p (errors, rp) = Ok (errors', rp')
    /\ errors' = errors ++
         (if violated bd q u (key, p)
          then [if is_missing bd q u key p
                then missing_field self key p else invalid self key p]
          else []).
Proof.
  intros Htot Hkey.
  unfold decode_param, decode_value, violated, supplied, is_missing, fails_check.
  source_cases p.
  - destruct (in_ bd key), (p_optional p); simpl; try round_done.
    + destruct (Htot (lookup bd key)) as [[] ->]; simpl;
        rewrite ?put_plain by assumption; simpl; round_done.
    + destruct (Htot (lookup bd key)) as [[] ->]; simpl;
        rewrite ?put_plain by assumption; simpl; round_done.
  - destruct (in_ q key), (p_optional p); simpl; try round_done.
    + destruct (parse (p_type p) (lookup q key)) as [w|e]; simpl.
      * destruct (Htot w) as [[] ->]; simpl;
          rewrite ?put_plain by assumption; simpl; round_done.
      * round_done.
    + destruct (parse (p_type p) (lookup q key)) as [w|e]; simpl.
      * destruct (Htot w) as [[] ->]; simpl;
          rewrite ?put_plain by assumption; simpl; round_done.
      * round_done.
  - destruct (in_ u key), (p_optional p); simpl;
      rewrite ?put_plain by assumption; simpl; round_done.
  - rewrite !andb_false_r. simpl. round_done.
Qed.

Lemma has_cons_false {A} (k0 : str) (v0 : A) o k :
  has ((k0, v0) :: o) k = false -> k0 <> k /\ has o k = false.
Proof.
  unfold has. simpl. destruct (str_eqb k0 k) eqn:E; [discriminate|].
  apply str_eqb_neq in E. auto.
Qed.

Lemma decode_loop_violated self bd q u ps :
  checks_total ps -> has ps (lit "__proto__") = false ->
  forall errors rp,
  exists rp',
    decode_loop self bd q u ps (errors, rp)
    = Ok (errors ++ map (entry_of self bd q u) (filter (violated bd q u) ps), rp').
Proof.
  induction ps as [|[key p] ps IH]; intros Htot Hno errors rp.
  - exists rp. simpl. now rewrite app_nil_r.
  - cbn [decode_loop filter].
    apply has_cons_false in Hno as [Hkey Hno].
    destruct (decode_param_violated self bd q u key p errors rp)
      as (e1 & r1 & -> & ->).
    { intro v. apply (Htot key p v). now left. }
    { exact Hkey. }
    cbn [and_then].
    edestruct IH as [rp' ->].
    { intros k p' v H. apply (Htot k p' v). now right. }
    { exact Hno. }
    exists rp'. f_equal. f_equal. f_equal.
    destruct (violated bd q u (key, p)); simpl.
    + now rewrite <- app_assoc.
    + now rewrite app_nil_r.
Qed.

Ltac round_inv :=
  let H := fresh in intro H; inversion H; now rewrite ?app_nil_r.

Ltac put_inv rp key :=
  match goal with
  | |- context [put rp key ?v] => destruct (put rp key v) as [[?|?]|]; simpl
  end.

Lemma decode_param_ok self bd q u key p errors rp errors' rp' :
  decode_param self bd q u key p (errors, rp) = Ok (errors', rp') ->
  errors' = errors ++ (if violated bd q u (key, p)
                       then [entry_of self bd q u (key, p)] else []).
Proof.
  unfold entry_of, decode_param, decode_value, violated, supplied, is_missing,
    fails_check. cbn [fst snd].
  source_cases p.
  - destruct (in_ bd key), (p_optional p); simpl;
      try round_inv;
      destruct (check (p_type p) (lookup bd key)) as [[]|e]; simpl;
      try put_inv rp key; try round_inv.
  - destruct (in_ q key), (p_optional p); simpl;
      try round_inv;
      (destruct (parse (p_type p) (lookup q key)) as [w|e]; simpl;
       [destruct (check (p_type p) w) as [[]|e]; simpl|]);
      try put_inv rp key; try round_inv.
  - destruct (in_ u key), (p_optional p); simpl;
      try put_inv rp key; try round_inv.
  - rewrite !andb_false_r. simpl. round_inv.
Qed.

Lemma decode_loop_ok self bd q u ps :
  forall errors rp errors' rp',
  decode_loop self bd q u ps (errors, rp) = Ok (errors', rp') ->
  errors' = errors ++ map (entry_of self bd q u) (filter (violated bd q u) ps).
Proof.
  induction ps as [|[key p] ps IH]; intros errors rp errors' rp' H.
  - simpl in *. inversion H. now rewrite app_nil_r.
  - cbn [decode_loop filter] in *.
    destruct (decode_param self bd q u key p (errors, rp)) as [[[e1 r1]|e]|] eqn:E;
      cbn [and_then] in H; try discriminate.
    apply decode_param_ok in E. apply IH in H. subst e1 errors'.
    destruct (violated bd q u (key, p)); simpl.
    + now rewrite <- app_assoc.
    + now rewrite app_nil_r.
Qed.

Lemma entry_of_field self bd q u kp :
  get (entry_of self bd q u kp) (lit "field") = Some (fst kp).
Proof. unfold entry_of. now destruct (is_missing bd q u (fst kp) (snd kp)). Qed.

(** C4, as amended.  When the loop has gone through the parameters and has
    collected at least one violation, [decodeParams] writes the head 422
    with [Content-Type: application/json], ends the response with the text
    [{"message":"Validation failed","errors":[...]}] that has one object per
    violated parameter, and does not call [next].  The loop goes through the
    parameters whenever no [check] of the schema throws. *)
Theorem validation_failure_response self lastMatch req :
  (forall errors rp,
     decode_loop self (body_of req) (query req) lastMatch (params self) ([], [])
       = Ok (errors, rp) ->
     errors <> [] ->
     exists evs,
       decodeParams self lastMatch req = Ok (evs, rp)
       /\ evs = [WriteHead 422 [(lit "Content-Type", lit "application/json")];
                 End_ (body_text errors)]
       /\ errors = map (entry_of self (body_of req) (query req) lastMatch)
                       (filter (violated (body_of req) (query req) lastMatch) (params self))
       /\ ~ In Next evs)
  /\ (checks_total (params self) -> has (params self) (lit "__proto__") = false ->
      filter (violated (body_of req) (query req) lastMatch) (params self) <> [] ->
      exists rp,
        decodeParams self lastMatch req
        = Ok ([WriteHead 422 [(lit "Content-Type", lit "application/json")];
               End_ (body_text
                       (map (entry_of self (body_of req) (query req) lastMatch)
                            (filter (violated (body_of req) (query req) lastMatch)
                                    (params self))))], rp)).
Proof.
  assert (Hfirst : forall errors rp,
     decode_loop self (body_of req) (query req) lastMatch (params self) ([], [])
       = Ok (errors, rp) ->
     errors <> [] ->
     exists evs,
       decodeParams self lastMatch req = Ok (evs, rp)
       /\ evs = [WriteHead 422 [(lit "Content-Type", lit "application/json")];
                 End_ (body_text errors)]
       /\ errors = map (entry_of self (body_of req) (query req) lastMatch)
                       (filter (violated (body_of req) (query req) lastMatch) (params self))
       /\ ~ In Next evs).
  { intros errors rp H Hne. unfold decodeParams. fold (body_of req). rewrite H.
    cbn [and_then].
    destruct errors as [|v errors]; [contradiction|].
    eexists; split; [reflexivity|]. split; [now rewrite stringify_response|].
    split.
    - now apply decode_loop_ok in H.
    - simpl. intros [E | [E | []]]; discriminate. }
  split; [exact Hfirst|].
  intros Htot Hno Hne.
  destruct (decode_loop_violated self (body_of req) (query req) lastMatch _ Htot Hno [] [])
    as [rp H].
  cbn [app] in H.
  destruct (Hfirst _ _ H) as (evs & Hd & -> & _).
  - intro E. apply map_eq_nil in E. contradiction.
  - now exists rp.
Qed.

(** C5, as amended.  The loop visits every declared parameter, whatever the
    ones before it gave: when [decodeParams] returns, it has answered for a
    list [errors] that holds one entry per violated parameter, in the order
    of the schema, so as many entries as there are violated parameters; and
    it returns whenever no [check] of the schema throws. *)
Theorem all_violations_collected self lastMatch req :
  (forall evs rp,
     decodeParams self lastMatch req = Ok (evs, rp) ->
     exists errors,
       evs = response_for errors
       /\ map (fun v => get v (lit "field")) errors
          = map (fun kp => Some (fst kp))
                (filter (violated (body_of req) (query req) lastMatch) (params self))
       /\ List.length errors
          = List.length (filter (violated (body_of req) (query req) lastMatch)
                                (params self)))
  /\ (checks_total (params self) -> has (params self) (lit "__proto__") = false ->
      exists evs rp, decodeParams self lastMatch req = Ok (evs, rp)).
Proof.
  split.
  - intros evs rp H. apply decodeParams_ok in H as (errors & H & ->).
    exists errors. split; [reflexivity|].
    apply decode_loop_ok in H. subst errors. simpl. split.
    + rewrite map_map. apply map_ext. intro kp. apply entry_of_field.
    + now rewrite length_map.
  - intros Htot Hno.
    destruct (decode_loop_violated self (body_of req) (query req) lastMatch _ Htot Hno [] [])
      as [rp H].
    eexists; eexists. rewrite decodeParams_loop.
    etransitivity; [exact (f_equal (fun l => and_then l _) H) | reflexivity].
Qed.


(** ** Properties of [normalizePath] *)

Lemma span_word_app s : forall w r, span_word s = (w, r) -> s = w ++ r /\ forallb is_word w = true.
Proof.
  induction s as [|c s IH]; simpl; intros w r H.
  - inversion H; subst; auto.
  - destruct (is_word c) eqn:Ec.
    + destruct (span_word s) as [w' r'] eqn:E. inversion H; subst.
      destruct (IH _ _ eq_refl) as [-> Hw]. simpl. now rewrite Ec.
    + inversion H; subst; auto.
Qed.

Lemma span_word_rest s w r :
  span_word s = (w, r) -> match r with c :: _ => is_word c = false | [] => True end.
Proof.
  revert w r; induction s as [|c s IH]; simpl; intros w r H.
  - inversion H; subst; exact I.
  - destruct (is_word c) eqn:Ec.
    + destruct (span_word s) as [w' r'] eqn:E. inversion H; subst.
      apply (IH _ _ eq_refl).
    + inversion H; subst. exact Ec.
Qed.

Lemma seg_at_not_slash c s : Ascii.eqb c "/" = false -> seg_at (c :: s) = None.
Proof.
  intro H. unfold seg_at.
  destruct c as [[] [] [] [] [] [] [] []]; try reflexivity. discriminate H.
Qed.

Lemma seg_at_not_colon c s : Ascii.eqb c ":" = false -> seg_at ("/"%char :: c :: s) = None.
Proof.
  intro H. unfold seg_at.
  destruct c as [[] [] [] [] [] [] [] []]; try reflexivity. discriminate H.
Qed.

Lemma seg_at_source s key r :
  seg_at s = Some (key, r) ->
  s = "/"%char :: ":"%char :: key ++ r /\ key <> [] /\ forallb is_word key = true.
Proof.
  destruct s as [|c1 s]; [discriminate|].
  destruct (Ascii.eqb c1 "/") eqn:E1;
    [|rewrite (seg_at_not_slash _ _ E1); discriminate].
  apply Ascii.eqb_eq in E1; subst c1.
  destruct s as [|c2 u]; [discriminate|].
  destruct (Ascii.eqb c2 ":") eqn:E2;
    [|rewrite (seg_at_not_colon _ _ E2); discriminate].
  apply Ascii.eqb_eq in E2; subst c2.
  cbn [seg_at].
  destruct (span_word u) as [w r'] eqn:E.
  destruct w as [|c w]; [discriminate|].
  intro H; inversion H; subst.
  destruct (span_word_app _ _ _ E) as [-> Hw]. repeat split; auto. discriminate.
Qed.

Lemma scan_fuel_enough n : forall k s,
  List.length s <= n -> List.length s <= k -> scan_fuel n s = scan_fuel k s.
Proof.
  induction n as [|n IH]; intros k s Hn Hk.
  - destruct s; [|simpl in Hn; lia]. now destruct k.
  - destruct s as [|c s]; [now destruct k|].
    destruct k as [|k]; [simpl in Hk; lia|].
    cbn [scan_fuel]. destruct (seg_at (c :: s)) as [[key r]|] eqn:E.
    + apply seg_at_source in E as (E & _ & _).
      assert (List.length r < List.length (c :: s)).
      { rewrite E. simpl. rewrite length_app. lia. }
      f_equal. apply IH; simpl in *; lia.
    + f_equal. apply IH; simpl in *; lia.
Qed.

Lemma scan_cons c s :
  scan (c :: s) = match seg_at (c :: s) with
                  | Some (key, r) => ISeg key :: scan r
                  | None => ILit c :: scan s
                  end.
Proof.
  unfold scan. cbn [List.length scan_fuel].
  destruct (seg_at (c :: s)) as [[key r]|] eqn:E.
  - apply seg_at_source in E as (E & _ & _). f_equal.
    apply scan_fuel_enough; [|lia].
    assert (List.length (c :: s) = 2 + List.length key + List.length r).
    { rewrite E. simpl. now rewrite length_app. }
    simpl in H. lia.
  - reflexivity.
Qed.

Lemma scan_ind (P : str -> Prop) :
  P [] ->
  (forall c s, seg_at (c :: s) = None -> P s -> P (c :: s)) ->
  (forall key r, key <> [] -> forallb is_word key = true ->
     seg_at ("/"%char :: ":"%char :: key ++ r) = Some (key, r) ->
     P r -> P ("/"%char :: ":"%char :: key ++ r)) ->
  forall s, P s.
Proof.
  intros Hnil Hlit Hseg s.
  remember (List.length s) as n eqn:Hn. revert s Hn.
  induction n as [n IH] using lt_wf_ind. intros s Hn.
  destruct s as [|c s]; [exact Hnil|].
  destruct (seg_at (c :: s)) as [[key r]|] eqn:E.
  - pose proof (seg_at_source _ _ _ E) as (Es & Hk & Hw).
    rewrite Es in *. apply Hseg; auto.
    apply (IH (List.length r)); [|reflexivity].
    rewrite Hn. simpl. rewrite length_app. lia.
  - apply Hlit; auto. apply (IH (List.length s)); [|reflexivity].
    rewrite Hn. simpl. lia.
Qed.

Lemma scan_source s : flat_map item_source (scan s) = s.
Proof.
  induction s as [|c s E IH|key r Hk Hw E IH] using scan_ind.
  - reflexivity.
  - rewrite scan_cons, E. simpl. now rewrite IH.
  - rewrite scan_cons, E. simpl. now rewrite IH.
Qed.

Lemma word_not_slash c : is_word c = true -> Ascii.eqb c "/" = false.
Proof.
  destruct (Ascii.eqb c "/") eqn:E; [|reflexivity].
  apply Ascii.eqb_eq in E; subst c. discriminate.
Qed.

Lemma names_at_word w r : forallb is_word w = true -> names_at (w ++ r) = names_at r.
Proof.
  induction w as [|c w IH]; simpl; intro H; [reflexivity|].
  apply andb_true_iff in H as [Hc Hw].
  change (match seg_at (c :: w ++ r) with
          | Some (key, _) => key :: names_at (w ++ r)
          | None => names_at (w ++ r)
          end = names_at r).
  rewrite (seg_at_not_slash c (w ++ r) (word_not_slash c Hc)). auto.
Qed.

(** The keys the scan collects are the names of the [/:name] places, in the
    order of the template. *)
Lemma seg_keys_scan s : seg_keys (scan s) = names_at s.
Proof.
  induction s as [|c s E IH|key r Hk Hw E IH] using scan_ind.
  - reflexivity.
  - rewrite scan_cons, E. cbn [seg_keys flat_map app].
    change (names_at (c :: s)) with
      (match seg_at (c :: s) with
       | Some (key, _) => key :: names_at s
       | None => names_at s
       end).
    rewrite E. exact IH.
  - rewrite scan_cons, E. cbn [seg_keys flat_map app].
    change (names_at ("/"%char :: ":"%char :: key ++ r)) with
      (match seg_at ("/"%char :: ":"%char :: key ++ r) with
       | Some (key', _) => key' :: names_at (":"%char :: key ++ r)
       | None => names_at (":"%char :: key ++ r)
       end).
    rewrite E. f_equal.
    change (names_at (":"%char :: key ++ r)) with
      (match seg_at (":"%char :: key ++ r) with
       | Some (key', _) => key' :: names_at (key ++ r)
       | None => names_at (key ++ r)
       end).
    rewrite (seg_at_not_slash ":" (key ++ r) eq_refl).
    rewrite names_at_word by exact Hw. exact IH.
Qed.

(** ** Properties of the constructor *)

Lemma get_expand (ps : obj entry) key :
  get (map (fun kv => (fst kv, expand (snd kv))) ps) key
  = match get ps key with Some e => Some (expand e) | None => None end.
Proof.
  induction ps as [|[k e] ps IH]; simpl; [reflexivity|].
  now destruct (str_eqb k key).
Qed.

Lemma has_expand (ps : obj entry) key :
  has (map (fun kv => (fst kv, expand (snd kv))) ps) key = has ps key.
Proof. unfold has. rewrite get_expand. now destruct (get ps key). Qed.

Lemma on_segment_conflict key ks ps pol d :
  get ps key = Some d -> conflicts d ->
  exists found, on_segment key ks ps pol = Throw (conflicting_source found).
Proof.
  intros Hget (src & Hsrc & Hne & Hurl). unfold on_segment.
  rewrite Hget. cbn [d_source]. rewrite Hsrc.
  destruct src as [|c src]; [contradiction|].
  apply str_eqb_neq in Hurl. rewrite Hurl. now exists (c :: src).
Qed.

(** Before anything is written to [Object.prototype] the callback throws
    the conflicting-source error only. *)
Lemma on_segment_throws key ks ps e :
  on_segment key ks ps false = Throw e -> exists found, e = conflicting_source found.
Proof.
  unfold on_segment. destruct (get ps key) as [d|].
  - cbn [d_source].
    destruct (d_source d) as [[|c src]|]; try discriminate.
    destruct (str_eqb (c :: src) (lit "url")); [discriminate|].
    intro H; inversion H. now exists (c :: src).
  - cbn [andb]. destruct (str_eqb key (lit "__proto__")); [discriminate|].
    destruct (inherited key); discriminate.
Qed.

Lemma or_default_twice x d :
  d <> [] -> or_default (or_default x d) d = or_default x d.
Proof.
  intro Hd. destruct x as [[[|c n]|r|t]|]; simpl; try reflexivity;
    destruct d; [contradiction | reflexivity | contradiction | reflexivity].
Qed.

Lemma complete_twice d : complete (complete d) = complete d.
Proof.
  unfold complete. cbn [d_type d_optional d_name d_description].
  rewrite or_default_twice by discriminate. reflexivity.
Qed.

(** What a call of the callback that returns leaves: for a key [params] has,
    or that [Object.prototype] does not have, the completed parameter; for
    another key [params] as it was. *)
Lemma on_segment_ok key ks ps pol text ks' ps' pol' :
  on_segment key ks ps pol = Ok (text, ks', ps', pol') ->
  text = segment_text /\ ks' = ks ++ [key]
  /\ (has ps key || negb (inherited key) = true ->
      ps' = set ps key (complete (decl_at ps key)) /\ pol' = pol)
  /\ (has ps key || negb (inherited key) = false ->
      ps' = ps /\ pol' = pol || str_eqb key (lit "__proto__")).
Proof.
  unfold on_segment, decl_at, complete, empty_decl, has.
  destruct (get ps key) as [d|]; cbn [d_source d_type d_optional d_name d_description orb].
  - destruct (d_source d) as [[|c src]|] eqn:Es;
      try (intro H; inversion H; subst; repeat split; try reflexivity; discriminate).
    destruct (str_eqb (c :: src) (lit "url")) eqn:E; [|discriminate].
    apply str_eqb_eq in E. rewrite E.
    intro H; inversion H; subst; repeat split; try reflexivity; discriminate.
  - destruct (str_eqb key (lit "__proto__")) eqn:Ep.
    + apply str_eqb_eq in Ep. subst key.
      intro H; inversion H; subst. repeat split; try discriminate.
      now rewrite orb_true_r.
    + destruct (inherited key) eqn:Ei; cbn [negb].
      * intro H; inversion H; subst. repeat split; try discriminate.
        now rewrite orb_false_r.
      * destruct (pol && str_eqb key (lit "type")); [discriminate|].
        destruct (pol && str_eqb key (lit "source")); [discriminate|].
        intro H; inversion H; subst. repeat split; try reflexivity; discriminate.
Qed.

Lemma on_segment_other key k ks ps pol text ks' ps' pol' :
  on_segment k ks ps pol = Ok (text, ks', ps', pol') -> k <> key ->
  get ps' key = get ps key.
Proof.
  intros H Hne. apply on_segment_ok in H as (_ & _ & H1 & H2).
  destruct (has ps k || negb (inherited k)).
  - destruct (H1 eq_refl) as [-> _]. now apply get_set_other.
  - destruct (H2 eq_refl) as [-> _]. reflexivity.
Qed.

Lemma replace_segments_ok items :
  forall ks ps pol text ks' ps' pol',
  replace_segments items ks ps pol = Ok (text, ks', ps', pol') ->
  text = flat_map item_text items /\ ks' = ks ++ seg_keys items.
Proof.
  induction items as [|[c|key] items IH]; intros ks ps pol text ks' ps' pol' H;
    cbn [replace_segments] in H.
  - inversion H; subst. now rewrite app_nil_r.
  - destruct (replace_segments items ks ps pol) as [[[[t k1] p1] b1]|e] eqn:E;
      cbn [bind] in H; [|discriminate].
    inversion H; subst. destruct (IH _ _ _ _ _ _ _ E) as [-> ->]. auto.
  - destruct (on_segment key ks ps pol) as [[[[seg k1] p1] b1]|e] eqn:E1;
      cbn [bind] in H; [|discriminate].
    destruct (replace_segments items k1 p1 b1) as [[[[t k2] p2] b2]|e] eqn:E2;
      cbn [bind] in H; [|discriminate].
    inversion H; subst. destruct (IH _ _ _ _ _ _ _ E2) as [-> ->].
    apply on_segment_ok in E1 as (-> & -> & _).
    split; [reflexivity|]. simpl. now rewrite <- app_assoc.
Qed.

(** Once [Object.prototype] has been written to, it stays so. *)
Lemma replace_segments_polluted items :
  forall ks ps text ks' ps' pol',
  replace_segments items ks ps true = Ok (text, ks', ps', pol') -> pol' = true.
Proof.
  induction items as [|[c|key] items IH]; intros ks ps text ks' ps' pol' H;
    cbn [replace_segments] in H.
  - now inversion H.
  - destruct (replace_segments items ks ps true) as [[[[t k1] p1] b1]|e] eqn:E;
      cbn [bind] in H; [|discriminate].
    inversion H; subst. now apply (IH _ _ _ _ _ _ E).
  - destruct (on_segment key ks ps true) as [[[[seg k1] p1] b1]|e] eqn:E1;
      cbn [bind] in H; [|discriminate].
    destruct (replace_segments items k1 p1 b1) as [[[[t k2] p2] b2]|e] eqn:E2;
      cbn [bind] in H; [|discriminate].
    inversion H; subst.
    apply on_segment_ok in E1 as (_ & _ & H1 & H2).
    assert (b1 = true) as ->.
    { destruct (has ps key || negb (inherited key)).
      - now destruct (H1 eq_refl).
      - now destruct (H2 eq_refl). }
    now apply (IH _ _ _ _ _ _ E2).
Qed.

Lemma mentions_In k ks : mentions k ks = true <-> In k ks.
Proof.
  unfold mentions. rewrite existsb_exists. split.
  - intros (x & Hin & E). apply str_eqb_eq in E. now subst.
  - intro H. exists k. split; [exact H | apply str_eqb_refl].
Qed.

Lemma mentions_cons k key ks :
  mentions k (key :: ks) = str_eqb k key || mentions k ks.
Proof. reflexivity. Qed.

Lemma has_set {A} (o : obj A) k v k' :
  has (set o k v) k' = str_eqb k k' || has o k'.
Proof.
  unfold has at 1. destruct (str_eqb k k') eqn:E.
  - apply str_eqb_eq in E. subst. now rewrite get_set_same.
  - apply str_eqb_neq in E. rewrite get_set_other by assumption. reflexivity.
Qed.

(** The parameter objects after the replacement: a segment name that
    [params] had, or that [Object.prototype] does not have, has its
    completed object; every other name what it had. *)
Lemma replace_segments_params items :
  forall ks ps pol text ks' ps' pol',
  replace_segments items ks ps pol = Ok (text, ks', ps', pol') ->
  forall k,
    get ps' k = if mentions k (seg_keys items) && (has ps k || negb (inherited k))
                then Some (complete (decl_at ps k))
                else get ps k.
Proof.
  induction items as [|[c|key] items IH]; intros ks ps pol text ks' ps' pol' H k;
    cbn [replace_segments] in H.
  - inversion H; subst. reflexivity.
  - destruct (replace_segments items ks ps pol) as [[[[t k1] p1] b1]|e] eqn:E;
      cbn [bind] in H; [|discriminate].
    inversion H; subst. apply (IH _ _ _ _ _ _ _ E).
  - destruct (on_segment key ks ps pol) as [[[[seg k1] p1] b1]|e] eqn:E1;
      cbn [bind] in H; [|discriminate].
    destruct (replace_segments items k1 p1 b1) as [[[[t k2] p2] b2]|e] eqn:E2;
      cbn [bind] in H; [|discriminate].
    inversion H; subst. clear H.
    apply on_segment_ok in E1 as (_ & _ & H1 & H2).
    rewrite (IH _ _ _ _ _ _ _ E2 k).
    change (seg_keys (ISeg key :: items)) with (key :: seg_keys items).
    rewrite mentions_cons.
    destruct (has ps key || negb (inherited key)) eqn:Es.
    + destruct (H1 eq_refl) as [-> _]. rewrite has_set. unfold decl_at.
      destruct (str_eqb k key) eqn:Ek.
      * apply str_eqb_eq in Ek; subst k. rewrite get_set_same, str_eqb_refl, Es.
        cbn [orb andb]. fold (decl_at ps key). rewrite complete_twice.
        now destruct (mentions key (seg_keys items)).
      * rewrite (str_eqb_sym key k), Ek. cbn [orb].
        rewrite get_set_other by (apply str_eqb_neq; now rewrite str_eqb_sym).
        reflexivity.
    + destruct (H2 eq_refl) as [-> _].
      destruct (str_eqb k key) eqn:Ek; [|reflexivity].
      apply str_eqb_eq in Ek; subst k. rewrite Es. cbn [orb].
      now rewrite andb_false_r.
Qed.

Lemma normalize_own_get types ps :
  forall ps', normalize_own types ps = Ok ps' ->
  forall k,
    get ps' k = match get ps k with
                | Some d => match normalize_param types d with
                            | Ok p => Some p
                            | Throw _ => None
                            end
                | None => None
                end.
Proof.
  induction ps as [|[name d] ps IH]; intros ps' H k; cbn [normalize_own] in H.
  - inversion H; subst. reflexivity.
  - destruct (normalize_param types d) as [p|e] eqn:E; cbn [bind] in H; [|discriminate].
    destruct (normalize_own types ps) as [ps1|e]; cbn [bind] in H; [|discriminate].
    inversion H; subst. cbn [get].
    destruct (str_eqb name k); [now rewrite E | now apply IH].
Qed.

Lemma normalize_own_names types ps :
  forall ps', normalize_own types ps = Ok ps' -> map fst ps' = map fst ps.
Proof.
  induction ps as [|[name d] ps IH]; intros ps' H; cbn [normalize_own] in H.
  - inversion H; subst. reflexivity.
  - destruct (normalize_param types d) as [p|e]; cbn [bind] in H; [|discriminate].
    destruct (normalize_own types ps) as [ps1|e]; cbn [bind] in H; [|discriminate].
    inversion H; subst. simpl. f_equal. now apply IH.
Qed.

Lemma normalize_own_each types ps :
  forall ps', normalize_own types ps = Ok ps' ->
  forall k p, In (k, p) ps' -> exists d, In (k, d) ps /\ normalize_param types d = Ok p.
Proof.
  induction ps as [|[name d] ps IH]; intros ps' H k p Hin; cbn [normalize_own] in H.
  - inversion H; subst. destruct Hin.
  - destruct (normalize_param types d) as [p0|e] eqn:E; cbn [bind] in H; [|discriminate].
    destruct (normalize_own types ps) as [ps1|e]; cbn [bind] in H; [|discriminate].
    inversion H; subst. destruct Hin as [Hin|Hin].
    + inversion Hin; subst. exists d. split; [now left | exact E].
    + destruct (IH _ eq_refl k p Hin) as (d' & Hd & Hn).
      exists d'. split; [now right | exact Hn].
Qed.

Lemma normalize_own_all types ps :
  forall ps', normalize_own types ps = Ok ps' ->
  forall k d, In (k, d) ps -> exists p, normalize_param types d = Ok p.
Proof.
  induction ps as [|[name d0] ps IH]; intros ps' H k d Hin; cbn [normalize_own] in H.
  - destruct Hin.
  - destruct (normalize_param types d0) as [p0|e] eqn:E; cbn [bind] in H; [|discriminate].
    destruct (normalize_own types ps) as [ps1|e]; cbn [bind] in H; [|discriminate].
    destruct Hin as [Hin|Hin].
    + inversion Hin; subst. now exists p0.
    + now apply (IH _ eq_refl k d).
Qed.

(** The steps of the constructor, taken apart: an instance comes out of a
    construction that has left [Object.prototype] alone. *)
Lemma Route_steps t opts types self :
  Route t opts types = Ok self ->
  exists text ps1,
    replace_segments (scan t) [] (map (fun kv => (fst kv, expand (snd kv))) (declared opts))
                     false
      = Ok (text, keys self, ps1, false)
    /\ RegExp.new (pattern_source (escape text)) = Ok (routeRe self)
    /\ normalize_own types ps1 = Ok (params self)
    /\ name self = None
    /\ has (params self) (lit "__proto__") = false.
Proof.
  unfold Route, normalizePath. fold (declared opts). intro H.
  destruct (replace_segments (scan t) [] _ false) as [[[[text ks] ps1] pol]|e] eqn:E;
    cbn [and_then] in H; [|discriminate].
  destruct (RegExp.new _) as [[re|e]|] eqn:Er; cbn [and_then] in H; try discriminate.
  unfold normalizeParams in H. destruct pol.
  - destruct (normalize_own types _) as [ps'|e]; cbn [and_then] in H; [|discriminate].
    destruct (negb (has ps1 (lit "type"))); [discriminate|].
    destruct (negb (has ps1 (lit "source"))); discriminate.
  - destruct (normalize_own types ps1) as [ps'|e] eqn:En; cbn [and_then] in H;
      [|discriminate].
    destruct (has ps' (lit "__proto__")) eqn:Hp; [discriminate|].
    inversion H; subst. cbn [keys routeRe params name].
    exists text, ps1. auto.
Qed.

Lemma Route_keys t opts types self :
  Route t opts types = Ok self -> keys self = names_at t.
Proof.
  intro H. destruct (Route_steps _ _ _ _ H) as (text & ps1 & Hrep & _).
  apply replace_segments_ok in Hrep as [_ ->]. simpl. apply seg_keys_scan.
Qed.

Lemma normalize_param_url types d p :
  normalize_param types d = Ok p -> d_source d = Some (lit "url") ->
  p_source p = lit "url" /\ p_optional p = d_optional d
  /\ types_get types (match d_type d with
                      | Some (TRegExp re) => Some (TObject (RegExpType types re))
                      | x => x
                      end) = Ok (p_type p).
Proof.
  intros H Hs. revert H. unfold normalize_param. rewrite Hs. cbn.
  destruct (types_get types _) as [ty|e] eqn:E; cbn [bind]; [|discriminate].
  intro H; inversion H; subst. cbn. auto.
Qed.

Lemma normalize_param_source types d p :
  normalize_param types d = Ok p ->
  p_source p = lit "url" \/ p_source p = lit "query" \/ p_source p = lit "body".
Proof.
  unfold normalize_param.
  destruct (source_is (d_source d) "query");
    [|destruct (falsy (d_source d) || source_is (d_source d) "body");
      [|destruct (negb (source_is (d_source d) "url")); [discriminate|]]];
    cbn [bind fst snd];
    (destruct (types_get types _) as [ty|e]; cbn [bind]; [|discriminate]);
    intro H; inversion H; subst; cbn; auto.
Qed.

Lemma get_In {A} (o : obj A) k v : get o k = Some v -> In (k, v) o.
Proof.
  induction o as [|[k' v'] o IH]; cbn [get]; [discriminate|].
  destruct (str_eqb k' k) eqn:E.
  - apply str_eqb_eq in E. subst. intro H; inversion H; subst. now left.
  - intro H. right. now apply IH.
Qed.

Lemma get_None_names {A} (o : obj A) k : get o k = None <-> ~ In k (map fst o).
Proof.
  induction o as [|[k' v'] o IH]; cbn [get map fst].
  - split; auto.
  - destruct (str_eqb k' k) eqn:E.
    + apply str_eqb_eq in E. subst. split; [discriminate|].
      intro H. exfalso. apply H. now left.
    + apply str_eqb_neq in E. rewrite IH. simpl. tauto.
Qed.

Lemma has_names {A} (o : obj A) k : has o k = true <-> In k (map fst o).
Proof.
  unfold has. destruct (get o k) as [v|] eqn:E.
  - split; [intros _|reflexivity]. apply get_In in E.
    apply in_map_iff. now exists (k, v).
  - split; [discriminate|]. intro H. now apply get_None_names in E.
Qed.

Lemma has_same_names {A B} (o : obj A) (o' : obj B) k :
  map fst o' = map fst o -> has o' k = has o k.
Proof.
  intro H. destruct (has o k) eqn:E.
  - apply has_names. rewrite H. now apply has_names.
  - destruct (has o' k) eqn:E'; [|reflexivity].
    apply has_names in E'. rewrite H in E'. apply has_names in E'. congruence.
Qed.

(** A segment name the options declare, or that [Object.prototype] does not
    have, has its parameter after construction. *)
Lemma Route_segment_param t opts types self key :
  Route t opts types = Ok self -> In key (keys self) ->
  settled opts key = true ->
  exists p, get (params self) key = Some p
    /\ normalize_param types
         (complete (decl_at (map (fun kv => (fst kv, expand (snd kv))) (declared opts)) key))
       = Ok p
    /\ p_source p = lit "url".
Proof.
  intros Hr Hin Hs. unfold settled in Hs. rewrite <- has_expand in Hs.
  destruct (Route_steps _ _ _ _ Hr) as (text & ps1 & Hrep & _ & Hnorm & _).
  pose proof (replace_segments_params _ _ _ _ _ _ _ _ Hrep key) as Hget.
  apply replace_segments_ok in Hrep as [_ Hk]. cbn [app] in Hk.
  rewrite Hk in Hin. apply mentions_In in Hin. rewrite Hin, Hs in Hget.
  cbn [andb] in Hget.
  pose proof (normalize_own_get _ _ _ Hnorm key) as Hp. rewrite Hget in Hp.
  destruct (normalize_param types _) as [p|e] eqn:En.
  - exists p. repeat split; auto.
    exact (proj1 (normalize_param_url types _ p En eq_refl)).
  - exfalso. apply get_In in Hget.
    destruct (normalize_own_all _ _ _ Hnorm _ _ Hget) as [p Hp']. congruence.
Qed.

(** For a segment name that the options do not declare and
    [Object.prototype] has, [params] gets no property. *)
Lemma Route_inherited_segment t opts types self key :
  Route t opts types = Ok self -> settled opts key = false ->
  get (params self) key = None.
Proof.
  intros Hr Hs. unfold settled in Hs. rewrite <- has_expand in Hs.
  destruct (Route_steps _ _ _ _ Hr) as (text & ps1 & Hrep & _ & Hnorm & _).
  pose proof (replace_segments_params _ _ _ _ _ _ _ _ Hrep key) as Hget.
  rewrite Hs, andb_false_r in Hget.
  rewrite (normalize_own_get _ _ _ Hnorm key), Hget.
  apply orb_false_iff in Hs as [Hs _]. unfold has in Hs.
  now destruct (get _ key).
Qed.

Lemma seg_keys_In key items : In key (seg_keys items) -> In (ISeg key) items.
Proof.
  induction items as [|[c|k] items IH]; simpl; intro H.
  - destruct H.
  - right. now apply IH.
  - destruct H as [->|H]; [now left | right; now apply IH].
Qed.

Lemma seg_keys_In_iff key items : In key (seg_keys items) <-> In (ISeg key) items.
Proof.
  split; [apply seg_keys_In|].
  induction items as [|[c|k] items IH]; simpl; intro H.
  - destruct H.
  - destruct H as [H|H]; [discriminate | now apply IH].
  - destruct H as [H|H]; [inversion H; now left | right; now apply IH].
Qed.

(** A construction that has no segment named [__proto__] does not write to
    [Object.prototype]. *)
Lemma replace_segments_clean items :
  ~ In (ISeg (lit "__proto__")) items ->
  forall ks ps,
    match replace_segments items ks ps false with
    | Ok (_, _, _, pol) => pol = false
    | Throw e => exists found, e = conflicting_source found
    end.
Proof.
  induction items as [|[c|key] items IH]; intros Hno ks ps; cbn [replace_segments].
  - reflexivity.
  - assert (Hno' : ~ In (ISeg (lit "__proto__")) items) by (intro; apply Hno; now right).
    specialize (IH Hno' ks ps).
    destruct (replace_segments items ks ps false) as [[[[t k1] p1] b1]|e]; cbn [bind]; auto.
  - assert (Hno' : ~ In (ISeg (lit "__proto__")) items) by (intro; apply Hno; now right).
    destruct (on_segment key ks ps false) as [[[[seg k1] p1] b1]|e] eqn:E1; cbn [bind].
    + assert (b1 = false) as ->.
      { apply on_segment_ok in E1 as (_ & _ & H1 & H2).
        destruct (has ps key || negb (inherited key)).
        - now destruct (H1 eq_refl).
        - destruct (H2 eq_refl) as [_ ->]. cbn [orb].
          apply str_eqb_neq. intros ->. apply Hno. now left. }
      specialize (IH Hno' k1 p1).
      destruct (replace_segments items k1 p1 false) as [[[[t k2] p2] b2]|e];
        cbn [bind]; auto.
    + now apply on_segment_throws in E1.
Qed.




Lemma normalize_param_throws types d e :
  normalize_param types d = Throw e ->
  e = invalid_source \/ exists spec, types_get types spec = Throw e.
Proof.
  unfold normalize_param.
  destruct (source_is (d_source d) "query");
    [|destruct (falsy (d_source d) || source_is (d_source d) "body");
      [|destruct (negb (source_is (d_source d) "url"));
        [cbn [bind]; intro H; inversion H; now left|]]];
    cbn [bind fst snd];
    (destruct (types_get types _) as [ty|e'] eqn:E; cbn [bind]; [discriminate|]);
    intro H; inversion H; subst; right; eexists; exact E.
Qed.

Lemma normalize_own_throws types ps e :
  normalize_own types ps = Throw e ->
  e = invalid_source \/ exists spec, types_get types spec = Throw e.
Proof.
  induction ps as [|[name d] ps IH]; cbn [normalize_own]; [discriminate|].
  destruct (normalize_param types d) as [p|e'] eqn:E; cbn [bind].
  - destruct (normalize_own types ps) as [ps1|e'']; cbn [bind]; [discriminate|].
    intro H; inversion H; subst. now apply IH.
  - intro H; inversion H; subst. now apply (normalize_param_throws types d).
Qed.

Lemma normalize_param_invalid types d src :
  d_source d = Some src -> src <> [] ->
  src <> lit "url" -> src <> lit "query" -> src <> lit "body" ->
  normalize_param types d = Throw invalid_source.
Proof.
  intros Hs Hn Hu Hq Hb. unfold normalize_param, source_is, falsy. rewrite Hs.
  apply str_eqb_neq in Hu, Hq, Hb. rewrite Hu, Hq, Hb.
  destruct src; [contradiction | reflexivity].
Qed.

(** ** Properties of [match] *)

Lemma match_loop_true ps m ks :
  forall i lm lm',
  match_loop ps m ks i lm = (Ok true, lm') ->
  (forall j key, nth_error ks j = Some key ->
     exists p v, get ps key = Some p
       /\ parse (p_type p) (capture m (i + j + 1)) = Ok v
       /\ check (p_type p) v = Ok true
       /\ ((forall j', j < j' -> nth_error ks j' <> Some key) ->
           get lm' key = Some v))
  /\ (forall key, ~ In key ks -> get lm' key = get lm key).
Proof.
  induction ks as [|k ks IH]; intros i lm lm' H; cbn [match_loop] in H.
  - inversion H; subst. split.
    + intros [|j] key Hj; discriminate.
    + reflexivity.
  - destruct (get ps k) as [p|] eqn:Hp; [|destruct (inherited k); discriminate].
    destruct (parse (p_type p) (capture m (i + 1))) as [v|e] eqn:Hv; [|discriminate].
    destruct (check (p_type p) v) as [[|]|e] eqn:Hc; try discriminate.
    destruct (put lm k v) as [[lm1|e]|] eqn:Hput; try discriminate.
    apply put_ok in Hput. subst lm1.
    destruct (IH _ _ _ H) as [IH1 IH2]. split.
    + intros [|j] key Hj; simpl in Hj.
      * inversion Hj; subst key. exists p, v.
        rewrite Nat.add_0_r. repeat split; auto.
        intro Hlast. rewrite IH2.
        -- apply get_set_same.
        -- intro Hin. apply In_nth_error in Hin as [j' Hj'].
           apply (Hlast (S j')); [lia | exact Hj'].
      * destruct (IH1 j key Hj) as (p' & v' & Hp' & Hv' & Hc' & Hl).
        exists p', v'. replace (i + S j + 1) with (S i + j + 1) by lia.
        repeat split; auto.
        intro Hlast. apply Hl. intros j' Hlt.
        apply (Hlast (S j')). lia.
    + intros key Hnin. rewrite IH2.
      * apply get_set_other. intros ->. apply Hnin. now left.
      * intro Hin. apply Hnin. now right.
Qed.

(** Once the pattern has matched, a [false] of [match] leaves [lastMatch]
    empty. *)
Lemma match_loop_false ps m ks :
  forall i lm lm', match_loop ps m ks i lm = (Ok false, lm') -> lm' = [].
Proof.
  induction ks as [|k ks IH]; intros i lm lm' H; cbn [match_loop] in H.
  - discriminate.
  - destruct (get ps k) as [p|].
    + destruct (parse (p_type p) (capture m (i + 1))) as [v|e].
      * destruct (check (p_type p) v) as [[|]|e]; try discriminate.
        -- destruct (put lm k v) as [[lm1|e]|]; try discriminate.
           eapply IH; eauto.
        -- now inversion H.
      * now inversion H.
    + destruct (inherited k); [now inversion H | discriminate].
Qed.

Lemma match_false_after_capture self path lastMatch lastMatch' m :
  RegExp.exec (routeRe self) path = Some m ->
  match_ self path lastMatch = (Ok false, lastMatch') -> lastMatch' = [].
Proof.
  intros Hm H. unfold match_ in H. rewrite Hm in H.
  now apply match_loop_false in H.
Qed.

Lemma match_true_exec self path lm :
  fst (match_ self path lm) = Ok true -> exists m, RegExp.exec (routeRe self) path = Some m.
Proof.
  unfold match_. destruct (RegExp.exec (routeRe self) path) as [m|].
  - intros _. now exists m.
  - simpl. discriminate.
Qed.

Lemma match_no_exec self path lm :
  RegExp.exec (routeRe self) path = None -> match_ self path lm = (Ok false, lm).
Proof. unfold match_. now intros ->. Qed.

Lemma last_occurrence (key : str) ks :
  In key ks ->
  exists j, nth_error ks j = Some key
            /\ forall j', j < j' -> nth_error ks j' <> Some key.
Proof.
  induction ks as [|k ks IH]; intro Hin; [destruct Hin|].
  destruct (in_dec (list_eq_dec ascii_dec) key ks) as [Hks|Hks].
  - destruct (IH Hks) as (j & Hj & Hlast). exists (S j). split; [exact Hj|].
    intros [|j'] Hlt; [lia|]. simpl. apply Hlast. lia.
  - destruct Hin as [->|Hin]; [|contradiction].
    exists 0. split; [reflexivity|].
    intros [|j'] Hlt; [lia|]. simpl. intro H. apply Hks.
    now apply nth_error_In in H.
Qed.

(** X7.  After a [match] that returned [true], [lastMatch] has exactly the
    segment names as its names, whatever it held before the call. *)
Theorem match_binds_the_keys self path lastMatch lastMatch' :
  match_ self path lastMatch = (Ok true, lastMatch') ->
  forall k, has lastMatch' k = true <-> In k (keys self).
Proof.
  unfold match_. destruct (RegExp.exec (routeRe self) path) as [m|]; [|discriminate].
  intros H k. destruct (match_loop_true _ _ _ _ _ _ H) as [Hin Hout].
  split.
  - intro Hk.
    destruct (in_dec (list_eq_dec ascii_dec) k (keys self)) as [Hi|Hi]; [exact Hi|].
    unfold has in Hk. rewrite (Hout k Hi) in Hk. discriminate.
  - intro Hk. destruct (last_occurrence k _ Hk) as (j & Hj & Hlast).
    destruct (Hin j k Hj) as (p & v & _ & _ & _ & Hbind).
    unfold has. now rewrite (Hbind Hlast).
Qed.

Lemma match_loop_total ps m ks :
  (forall key, In key ks ->
     (exists p, get ps key = Some p /\ key <> lit "__proto__")
     \/ (get ps key = None /\ inherited key = true)) ->
  checks_total ps ->
  forall i lm, exists b lm', match_loop ps m ks i lm = (Ok b, lm').
Proof.
  intros Hks Htot. induction ks as [|k ks IH]; intros i lm; cbn [match_loop].
  - eauto.
  - destruct (Hks k (or_introl eq_refl)) as [(p & Hp & Hk) | [Hp Hi]]; rewrite Hp.
    + destruct (parse (p_type p) (capture m (i + 1))) as [v|e]; [|eauto].
      destruct (Htot k p v (get_In _ _ _ Hp)) as [[|] ->]; [|eauto].
      rewrite put_plain by exact Hk.
      apply IH. intros key Hin. apply Hks. now right.
    + rewrite Hi. eauto.
Qed.

Lemma Route_keys_params t opts types self key :
  Route t opts types = Ok self -> In key (keys self) ->
  (exists p, get (params self) key = Some p /\ key <> lit "__proto__")
  \/ (get (params self) key = None /\ inherited key = true).
Proof.
  intros Hr Hin. destruct (settled opts key) eqn:Hs.
  - left. destruct (Route_segment_param _ _ _ _ _ Hr Hin Hs) as (p & Hg & _).
    exists p. split; [exact Hg|]. intros ->.
    destruct (Route_steps _ _ _ _ Hr) as (_ & _ & _ & _ & _ & _ & Hno).
    unfold has in Hno. now rewrite Hg in Hno.
  - right. split; [exact (Route_inherited_segment _ _ _ _ _ Hr Hs)|].
    unfold settled in Hs. apply orb_false_iff in Hs as [_ Hs].
    now destruct (inherited key).
Qed.

(** X8.  On a constructed route whose types' [check] does not throw, [match]
    does not throw either: a segment text that [parse] refuses makes it
    return [false]. *)
Theorem match_does_not_throw t opts types self :
  Route t opts types = Ok self -> checks_total (params self) ->
  forall path lastMatch,
    exists b lastMatch', match_ self path lastMatch = (Ok b, lastMatch').
Proof.
  intros Hr Htot path lm. unfold match_.
  destruct (RegExp.exec (routeRe self) path) as [m|]; [|eauto].
  apply match_loop_total; [|exact Htot].
  intros key Hin. exact (Route_keys_params _ _ _ _ _ Hr Hin).
Qed.

(** X18.  Once the pattern has matched, a [match] that returns [false]
    (a segment text that [parse] refuses or [check] rejects) leaves
    [lastMatch] empty. *)
Theorem refused_segment_clears_lastMatch self path lastMatch lastMatch' m :
  RegExp.exec (routeRe self) path = Some m ->
  match_ self path lastMatch = (Ok false, lastMatch') -> lastMatch' = [].
Proof.
  intros Hm H. unfold match_ in H. rewrite Hm in H.
  revert H. generalize (@nil (str * value)) at 1. generalize 0.
  induction (keys self) as [|k ks IH]; intros i lm H; cbn [match_loop] in H.
  - discriminate.
  - destruct (get (params self) k) as [p|].
    + destruct (parse (p_type p) (capture m (i + 1))) as [v|e].
      * destruct (check (p_type p) v) as [[|]|e]; try discriminate.
        -- destruct (put lm k v) as [[lm1|e]|]; try discriminate.
           eapply IH; eauto.
        -- now inversion H.
      * now inversion H.
    + destruct (inherited k); [now inversion H | discriminate].
Qed.

(** ** The lexer *)

Lemma lex_skip total s : forall k, RegExp.lex total s k = RegExp.lex total (skipn k s) 0.
Proof.
  induction s as [|c s IH]; intros [|k]; try reflexivity.
  cbn [RegExp.lex skipn]. apply IH.
Qed.

Lemma lex_cons total c s tok len :
  RegExp.token_at total (c :: s) = RegExp.Fine (tok, len) ->
  RegExp.lex total (c :: s) 0 = followed_by tok (RegExp.lex total (skipn (len - 1) s) 0).
Proof.
  intro H. cbn [RegExp.lex]. rewrite H, lex_skip. reflexivity.
Qed.

Lemma lex_token total text tok s :
  text <> [] ->
  RegExp.token_at total (text ++ s) = RegExp.Fine (tok, List.length text) ->
  RegExp.lex total (text ++ s) 0 = followed_by tok (RegExp.lex total s 0).
Proof.
  destruct text as [|c text]; [contradiction|]. intros _ H.
  cbn [app] in *. rewrite (lex_cons _ _ _ _ _ H). cbn [List.length Nat.sub].
  rewrite Nat.sub_0_r, skipn_app, skipn_all, Nat.sub_diag. reflexivity.
Qed.

(** A character without a meaning in a pattern is its own token. *)
Lemma token_at_char total c r :
  is_meta c = false -> Ascii.eqb c "." = false ->
  RegExp.token_at total (c :: r)
  = RegExp.Fine (RegExp.TAtom (RegExp.Char (RegExp.code c)), 1).
Proof.
  unfold is_meta. cbn [lit list_ascii_of_string existsb].
  intros Hm Hd.
  repeat match type of Hm with
         | (_ || _) = false => apply orb_false_iff in Hm; destruct Hm as [? Hm]
         end.
  unfold RegExp.token_at.
  repeat match goal with
         | H : Ascii.eqb c _ = false |- _ => rewrite H; clear H
         end.
  reflexivity.
Qed.

Lemma escape_app a b : escape (a ++ b) = escape a ++ escape b.
Proof. unfold escape. apply flat_map_app. Qed.

Lemma escape_text items :
  escape (flat_map item_text items) = flat_map (fun i => escape (item_text i)) items.
Proof.
  induction items as [|i items IH]; simpl; [reflexivity|].
  now rewrite escape_app, IH.
Qed.

(** ** The pattern of a template without pattern syntax *)

Lemma then_tokens_cons tok toks r :
  followed_by tok (then_tokens toks r) = then_tokens (tok :: toks) r.
Proof. now destruct r. Qed.

Lemma then_tokens_app a b r :
  then_tokens a (then_tokens b r) = then_tokens (a ++ b) r.
Proof. destruct r; simpl; try reflexivity. now rewrite app_assoc. Qed.

Lemma followed_by_then tok r : followed_by tok r = then_tokens [tok] r.
Proof. now destruct r. Qed.

(** The tokens of the text of a segment, [\/([^\\/]+)]. *)
Lemma lex_segment total s :
  RegExp.lex total (escape segment_text ++ s) 0
  = then_tokens (item_tokens (ISeg [])) (RegExp.lex total s 0).
Proof.
  change (escape segment_text) with (lit "\/" ++ lit "(" ++ lit "[^\\/]" ++ lit "+" ++ lit ")").
  rewrite <- !app_assoc.
  rewrite (lex_token total (lit "\/") (RegExp.TAtom (RegExp.Char 47))) by (discriminate || reflexivity).
  rewrite (lex_token total (lit "(") (RegExp.TOpen RegExp.Capture)) by (discriminate || reflexivity).
  rewrite (lex_token total (lit "[^\\/]") (RegExp.TAtom seg_class)) by (discriminate || reflexivity).
  rewrite (lex_token total (lit "+") (RegExp.TQuant 1 None true)) by (discriminate || reflexivity).
  rewrite (lex_token total (lit ")") RegExp.TClose) by (discriminate || reflexivity).
  now destruct (RegExp.lex total s 0).
Qed.

Lemma lex_literal total c s :
  is_meta c = false ->
  RegExp.lex total (escape [c] ++ s) 0
  = then_tokens (item_tokens (ILit c)) (RegExp.lex total s 0).
Proof.
  intro Hm. unfold escape. cbn [flat_map app item_tokens].
  destruct (Ascii.eqb c "/") eqn:E1.
  { apply Ascii.eqb_eq in E1; subst c.
    change (RegExp.lex total (lit "\/" ++ s) 0
            = then_tokens [RegExp.TAtom (RegExp.Char 47)] (RegExp.lex total s 0)).
    rewrite (lex_token total (lit "\/") (RegExp.TAtom (RegExp.Char 47)) s)
      by (discriminate || reflexivity).
    apply followed_by_then. }
  destruct (Ascii.eqb c ".") eqn:E2.
  { apply Ascii.eqb_eq in E2; subst c.
    change (RegExp.lex total (lit "\." ++ s) 0
            = then_tokens [RegExp.TAtom (RegExp.Char 46)] (RegExp.lex total s 0)).
    rewrite (lex_token total (lit "\.") (RegExp.TAtom (RegExp.Char 46)) s)
      by (discriminate || reflexivity).
    apply followed_by_then. }
  cbn [orb].
  change (RegExp.lex total ([c] ++ s) 0
          = then_tokens [RegExp.TAtom (RegExp.Char (RegExp.code c))] (RegExp.lex total s 0)).
  rewrite (lex_token total [c] (RegExp.TAtom (RegExp.Char (RegExp.code c))) s).
  - apply followed_by_then.
  - discriminate.
  - now apply token_at_char.
Qed.

Lemma lex_items total items s :
  Forall lit_ok items ->
  RegExp.lex total (flat_map (fun i => escape (item_text i)) items ++ s) 0
  = then_tokens (flat_map item_tokens items) (RegExp.lex total s 0).
Proof.
  induction 1 as [|[c|key] items Hc Hok IH]; cbn [flat_map].
  - cbn [app]. now destruct (RegExp.lex total s 0).
  - rewrite <- app_assoc. cbn [item_text]. rewrite lex_literal by exact Hc.
    rewrite IH. apply then_tokens_app.
  - rewrite <- app_assoc. cbn [item_text]. rewrite lex_segment, IH.
    apply then_tokens_app.
Qed.

(** The parser on these tokens. *)
Lemma build_items items :
  forall f stk n toks,
  RegExp.build (flat_map item_tokens items ++ toks) f stk n
  = RegExp.build toks
      (RegExp.Frame (RegExp.alts f) (rev (nodes items n) ++ RegExp.cur f)
                    (match items with [] => RegExp.quantifiable f | _ => true end)
                    (RegExp.kind f) (RegExp.gindex f))
      stk (n + List.length (seg_keys items)).
Proof.
  induction items as [|[c|key] items IH]; intros f stk n toks.
  - simpl. rewrite Nat.add_0_r. now destruct f.
  - cbn [flat_map item_tokens app nodes seg_keys RegExp.build].
    rewrite IH. unfold RegExp.push_term.
    cbn [RegExp.alts RegExp.cur RegExp.gindex RegExp.kind rev].
    rewrite <- app_assoc. cbn [app].
    f_equal. f_equal. now destruct items.
  - cbn [flat_map item_tokens app nodes seg_keys List.length RegExp.build
         RegExp.quantify RegExp.quantifiable RegExp.push_term RegExp.cur
         RegExp.alts RegExp.kind RegExp.gindex RegExp.group_of].
    rewrite IH. unfold RegExp.push_term.
    cbn [RegExp.alts RegExp.cur RegExp.gindex RegExp.kind rev].
    rewrite <- !app_assoc. cbn [app].
    replace (S n + List.length (seg_keys items))
      with (n + S (List.length (seg_keys items))) by lia.
    f_equal. f_equal. now destruct items.
Qed.

Lemma parse_plain items :
  Forall lit_ok items ->
  RegExp.parse_pattern (pattern_source (escape (flat_map item_text items)))
  = RegExp.Fine (tree_of items, List.length (seg_keys items)).
Proof.
  intro Hok. unfold RegExp.parse_pattern, pattern_source.
  generalize (RegExp.count_captures
                (lit "^" ++ escape (flat_map item_text items) ++ lit "$") false false).
  intro total.
  rewrite escape_text.
  rewrite (lex_token total (lit "^") (RegExp.TAssert RegExp.Bol))
    by (discriminate || reflexivity).
  rewrite lex_items by exact Hok.
  change (RegExp.lex total (lit "$") 0) with (RegExp.Fine [RegExp.TAssert RegExp.Eol]).
  cbn [then_tokens followed_by RegExp.build RegExp.push_term RegExp.alts RegExp.cur
       RegExp.kind RegExp.gindex].
  rewrite build_items.
  cbn [RegExp.build RegExp.push_term RegExp.alts RegExp.cur RegExp.kind RegExp.gindex
       RegExp.close_frame RegExp.close_alt fold_left Nat.add].
  unfold tree_of, RegExp.close_alt, RegExp.push_term. cbn [RegExp.cur rev].
  rewrite rev_app_distr, rev_involutive. reflexivity.
Qed.

Lemma new_plain items :
  Forall lit_ok items ->
  RegExp.new (pattern_source (escape (flat_map item_text items)))
  = Ok (RegExp.RegExp_ (pattern_source (escape (flat_map item_text items)))
                       (tree_of items) (List.length (seg_keys items))).
Proof.
  intro Hok. unfold RegExp.new. now rewrite parse_plain.
Qed.

(** ** The matcher on such a pattern *)

Lemma forallb_pointwise {A} (f g : A -> bool) (l : list A) :
  (forall a, f a = g a) -> forallb f l = forallb g l.
Proof. intro H. induction l as [|a l IH]; simpl; [reflexivity|]. now rewrite H, IH. Qed.

Lemma filter_all {A} (l : list A) : filter (fun _ => true) l = l.
Proof. induction l; simpl; congruence. Qed.

Lemma clear_caps_nil p r b c :
  RegExp.clear_caps [] (RegExp.MState p r b c) = RegExp.MState p r b c.
Proof. unfold RegExp.clear_caps. simpl. now rewrite filter_all. Qed.

Lemma code_eqb a b : (RegExp.code a =? RegExp.code b)%N = Ascii.eqb a b.
Proof.
  unfold RegExp.code. destruct (Ascii.eqb a b) eqn:E.
  - apply Ascii.eqb_eq in E. subst. apply N.eqb_refl.
  - apply N.eqb_neq. intro H. apply Ascii.eqb_neq in E. apply E.
    rewrite <- (ascii_N_embedding a), <- (ascii_N_embedding b). now rewrite H.
Qed.

Lemma in_class_seg a :
  RegExp.in_class true [RegExp.CRange 92 92; RegExp.CRange 47 47] a = seg_char a.
Proof. destruct a as [[] [] [] [] [] [] [] []]; reflexivity. Qed.

Lemma repeat_S ma gs n min max greedy x k :
  RegExp.repeat ma gs (S n) min max greedy x k
  = match max with
    | Some 0%N => k x
    | _ =>
        if negb (min =? 0)%N then
          ma (RegExp.clear_caps gs x)
             (fun y => if (min =? 0)%N && (RegExp.pos y =? RegExp.pos x) then None
                       else RegExp.repeat ma gs n (N.pred min) (option_map N.pred max)
                                          greedy y k)
        else if greedy then
          match ma (RegExp.clear_caps gs x)
                   (fun y => if (min =? 0)%N && (RegExp.pos y =? RegExp.pos x) then None
                             else RegExp.repeat ma gs n (N.pred min) (option_map N.pred max)
                                                greedy y k) with
          | Some z => Some z
          | None => k x
          end
        else
          match k x with
          | Some z => Some z
          | None =>
              ma (RegExp.clear_caps gs x)
                 (fun y => if (min =? 0)%N && (RegExp.pos y =? RegExp.pos x) then None
                           else RegExp.repeat ma gs n (N.pred min) (option_map N.pred max)
                                              greedy y k)
          end
    end.
Proof. reflexivity. Qed.

Lemma m_class neg cs x k :
  RegExp.m (RegExp.Class neg cs) x k = RegExp.step (RegExp.in_class neg cs) x k.
Proof. reflexivity. Qed.

Lemma m_char a x k :
  RegExp.m (RegExp.Char a) x k = RegExp.step (fun b => (RegExp.code b =? a)%N) x k.
Proof. reflexivity. Qed.

Lemma step_cons f p a r b c k :
  RegExp.step f (RegExp.MState p (a :: r) b c) k
  = if f a then k (RegExp.MState (S p) r (Some a) c) else None.
Proof. reflexivity. Qed.

Lemma step_nil f p b c k : RegExp.step f (RegExp.MState p [] b c) k = None.
Proof. reflexivity. Qed.

Lemma succ_eqb p : (S p =? p) = false.
Proof. apply Nat.eqb_neq. lia. Qed.

(** A greedy [*] or [+] on a class reads a run of members of the class. *)
Lemma repeat_class_sound neg cs fuel :
  forall min p r b c k z,
  (min = 0 \/ min = 1)%N ->
  RegExp.repeat (RegExp.m (RegExp.Class neg cs)) [] fuel min None true
                (RegExp.MState p r b c) k = Some z ->
  exists s r', r = s ++ r'
    /\ forallb (RegExp.in_class neg cs) s = true
    /\ (min = 1%N -> s <> [])
    /\ k (RegExp.MState (p + List.length s) r' (walk b s) c) = Some z.
Proof.
  induction fuel as [|fuel IH]; intros min p r b c k z Hmin H; [discriminate|].
  rewrite repeat_S, clear_caps_nil, !m_class in H. cbn [RegExp.pos option_map] in H.
  assert (Hstop : min = 0%N -> k (RegExp.MState p r b c) = Some z ->
                  exists s r', r = s ++ r'
                    /\ forallb (RegExp.in_class neg cs) s = true
                    /\ (min = 1%N -> s <> [])
                    /\ k (RegExp.MState (p + List.length s) r' (walk b s) c) = Some z).
  { intros Hm Hk. exists [], r. simpl. rewrite Nat.add_0_r.
    repeat split; auto. intro; subst; discriminate. }
  assert (Hpred : (N.pred min = 0)%N) by (destruct Hmin; subst; reflexivity).
  rewrite Hpred in H.
  destruct r as [|a r].
  - rewrite !step_nil in H. destruct Hmin; subst min; cbn in H; [auto | discriminate].
  - rewrite !step_cons in H. cbn [RegExp.pos] in H.
    destruct (RegExp.in_class neg cs a) eqn:Ea.
    + rewrite succ_eqb, andb_false_r in H.
      destruct (RegExp.repeat (RegExp.m (RegExp.Class neg cs)) [] fuel 0 None true
                  (RegExp.MState (S p) r (Some a) c) k) as [z'|] eqn:E.
      * assert (z' = z) by (destruct Hmin; subst min; cbn in H; congruence). subst z'.
        destruct (IH _ _ _ _ _ _ _ (or_introl eq_refl) E) as (s & r' & -> & Hs & _ & Hk).
        exists (a :: s), r'. simpl. rewrite Ea, Hs.
        replace (p + S (List.length s)) with (S p + List.length s) by lia.
        repeat split; auto. discriminate.
      * destruct Hmin; subst min; cbn in H; [auto | discriminate].
    + destruct Hmin; subst min; cbn in H; [auto | discriminate].
Qed.

Lemma repeat_class_complete neg cs s :
  forall fuel min p r' b c k,
  (min = 0 \/ min = 1)%N ->
  forallb (RegExp.in_class neg cs) s = true ->
  (min = 1%N -> s <> []) ->
  List.length s < fuel ->
  k (RegExp.MState (p + List.length s) r' (walk b s) c) <> None ->
  RegExp.repeat (RegExp.m (RegExp.Class neg cs)) [] fuel min None true
                (RegExp.MState p (s ++ r') b c) k <> None.
Proof.
  induction s as [|a s IH]; intros fuel min p r' b c k Hmin Hs Hne Hfuel Hk;
    (destruct fuel as [|fuel]; [simpl in Hfuel; lia|]);
    rewrite repeat_S, clear_caps_nil, !m_class; cbn [RegExp.pos option_map].
  - destruct Hmin; subst min; [|now specialize (Hne eq_refl)].
    simpl in Hk. rewrite Nat.add_0_r in Hk. cbn.
    destruct (RegExp.step _ _ _); [discriminate | exact Hk].
  - simpl in Hs. apply andb_true_iff in Hs as [Ha Hs].
    assert (Hpred : (N.pred min = 0)%N) by (destruct Hmin; subst; reflexivity).
    rewrite Hpred.
    cbn [app]. rewrite !step_cons, Ha. cbn [RegExp.pos].
    rewrite succ_eqb, andb_false_r.
    assert (Hmore : RegExp.repeat (RegExp.m (RegExp.Class neg cs)) [] fuel 0 None true
                      (RegExp.MState (S p) (s ++ r') (Some a) c) k <> None).
    { apply IH; auto; [discriminate | simpl in Hfuel; lia |].
      replace (S p + List.length s) with (p + List.length (a :: s))
        by (simpl; lia). exact Hk. }
    destruct Hmin; subst min; cbn; [|exact Hmore].
    destruct (RegExp.repeat _ _ _ _ _ _ _ _); [discriminate | contradiction].
Qed.

Lemma m_seq_cons a l x k :
  RegExp.m (RegExp.seq_of (a :: l)) x k
  = RegExp.m a x (fun y => RegExp.m (RegExp.seq_of l) y k).
Proof. reflexivity. Qed.

Lemma m_segment n p r b c k :
  RegExp.m (RegExp.Group (S n) seg_rule) (RegExp.MState p r b c) k
  = RegExp.repeat (RegExp.m seg_class) [] (1 + List.length r + 2) 1 None true
      (RegExp.MState p r b c)
      (fun y => k (RegExp.set_cap (S n) (firstn (RegExp.pos y - p) r) y)).
Proof. reflexivity. Qed.

Lemma firstn_consumed {A} p (s r : list A) : firstn (p + List.length s - p) (s ++ r) = s.
Proof.
  replace (p + List.length s - p) with (List.length s + 0) by lia.
  rewrite firstn_app_2. simpl. apply app_nil_r.
Qed.

Lemma walk_app b s1 s2 : walk b (s1 ++ s2) = walk (walk b s1) s2.
Proof. unfold walk. apply fold_left_app. Qed.

Lemma m_nodes_sound items :
  forall n p r b c tl k z,
  RegExp.m (RegExp.seq_of (nodes items n ++ tl)) (RegExp.MState p r b c) k = Some z ->
  exists p1 p2 caps,
    r = p1 ++ p2 /\ fits items p1 caps
    /\ RegExp.m (RegExp.seq_of tl)
                (RegExp.MState (p + List.length p1) p2 (walk b p1) (add_caps n caps c)) k
       = Some z.
Proof.
  induction items as [|[a|key] items IH]; intros n p r b c tl k z H.
  - exists [], r, []. simpl. rewrite Nat.add_0_r. repeat split; auto. constructor.
  - cbn [nodes app] in H. rewrite m_seq_cons, m_char in H.
    destruct r as [|a' r]; [discriminate|]. rewrite step_cons in H.
    rewrite code_eqb in H.
    destruct (Ascii.eqb a' a) eqn:E; [|discriminate].
    apply Ascii.eqb_eq in E; subst a'.
    destruct (IH _ _ _ _ _ _ _ _ H) as (p1 & p2 & caps & -> & Hf & Hk).
    exists (a :: p1), p2, caps. simpl.
    replace (p + S (List.length p1)) with (S p + List.length p1) by lia.
    repeat split; auto. now constructor.
  - cbn [nodes app] in H. rewrite m_seq_cons, m_char in H.
    destruct r as [|a' r]; [discriminate|]. rewrite step_cons in H.
    change 47%N with (RegExp.code "/") in H. rewrite code_eqb in H.
    destruct (Ascii.eqb a' "/") eqn:E; [|discriminate].
    apply Ascii.eqb_eq in E; subst a'.
    rewrite m_seq_cons, m_segment in H.
    apply repeat_class_sound in H as (s & r' & -> & Hs & Hne & H); [|now right].
    cbn [RegExp.pos] in H. rewrite firstn_consumed in H.
    unfold RegExp.set_cap in H. cbn [RegExp.pos RegExp.rest RegExp.caps RegExp.prev] in H.
    destruct (IH _ _ _ _ _ _ _ _ H) as (p1 & p2 & caps & -> & Hf & Hk).
    exists ("/"%char :: s ++ p1), p2, (s :: caps).
    simpl. rewrite length_app.
    replace (p + S (List.length s + List.length p1))
      with (S p + List.length s + List.length p1) by lia.
    rewrite <- app_assoc. repeat split; auto.
    + constructor; auto.
      erewrite forallb_pointwise; [exact Hs|]. intro a. symmetry. apply in_class_seg.
    + change (fold_left (fun _ a => Some a) (s ++ p1) (Some "/"%char))
        with (walk (Some "/"%char) (s ++ p1)).
      now rewrite walk_app.
Qed.

Lemma m_nodes_complete items p1 caps :
  fits items p1 caps ->
  forall n p p2 b c tl k,
  RegExp.m (RegExp.seq_of tl)
           (RegExp.MState (p + List.length p1) p2 (walk b p1) (add_caps n caps c)) k
    <> None ->
  RegExp.m (RegExp.seq_of (nodes items n ++ tl)) (RegExp.MState p (p1 ++ p2) b c) k <> None.
Proof.
  induction 1 as [|a items p1 caps Hf IH|key items s p1 caps Hne Hs Hf IH];
    intros n p p2 b c tl k Hk.
  - simpl in *. now rewrite Nat.add_0_r in Hk.
  - cbn [nodes app]. rewrite m_seq_cons, m_char, step_cons.
    rewrite code_eqb, Ascii.eqb_refl. apply IH.
    replace (S p + List.length p1) with (p + List.length (a :: p1)) by (simpl; lia).
    exact Hk.
  - cbn [nodes app]. rewrite m_seq_cons, m_char, step_cons.
    change 47%N with (RegExp.code "/"). rewrite code_eqb, Ascii.eqb_refl.
    rewrite m_seq_cons, m_segment, <- app_assoc.
    apply repeat_class_complete.
    + now right.
    + erewrite forallb_pointwise; [exact Hs|]. intro a. apply in_class_seg.
    + intros _. exact Hne.
    + rewrite length_app. lia.
    + cbn [RegExp.pos]. rewrite firstn_consumed.
      unfold RegExp.set_cap. cbn [RegExp.pos RegExp.rest RegExp.caps RegExp.prev].
      apply IH.
      replace (S p + List.length s + List.length p1)
        with (p + List.length ("/"%char :: s ++ p1))
        by (simpl; rewrite length_app; lia).
      replace (walk (walk (Some "/"%char) s) p1) with (walk b ("/"%char :: s ++ p1))
        by (cbn [walk fold_left]; apply (walk_app (Some "/"%char) s p1)).
      exact Hk.
Qed.

Lemma search_bol r s :
  forall i b, i <> 0 -> RegExp.search (RegExp.Seq RegExp.Bol r) i b s = None.
Proof.
  induction s as [|a s IH]; intros i b Hi; cbn [RegExp.search RegExp.m RegExp.pos];
    destruct i as [|i]; try contradiction; cbn [Nat.eqb]; auto.
Qed.

Lemma search_anchored r s :
  RegExp.search (RegExp.Seq RegExp.Bol r) 0 None s
  = match RegExp.m r (RegExp.MState 0 s None []) Some with
    | Some z => Some (0, z)
    | None => None
    end.
Proof.
  destruct s as [|a s]; cbn [RegExp.search RegExp.m RegExp.pos Nat.eqb];
    destruct (RegExp.m _ _ _); auto.
  apply search_bol. discriminate.
Qed.

Lemma search_tree_of items s :
  RegExp.search (tree_of items) 0 None s
  = match RegExp.m (RegExp.seq_of (nodes items 0 ++ [RegExp.Eol]))
                   (RegExp.MState 0 s None []) Some with
    | Some z => Some (0, z)
    | None => None
    end.
Proof. unfold tree_of. apply search_anchored. Qed.

Lemma capture_of_filter cs i j :
  i <> j -> RegExp.capture_of (filter (fun c => negb (fst c =? j)) cs) i = RegExp.capture_of cs i.
Proof.
  intro Hne. unfold RegExp.capture_of.
  induction cs as [|[n s] cs IH]; simpl; [reflexivity|].
  destruct (n =? j) eqn:Ej; simpl.
  - apply Nat.eqb_eq in Ej; subst n.
    replace (j =? i) with false by (symmetry; apply Nat.eqb_neq; auto). exact IH.
  - destruct (n =? i); [reflexivity | exact IH].
Qed.

Lemma capture_of_cons j s cs i :
  RegExp.capture_of ((j, s) :: cs) i
  = if j =? i then Some s else RegExp.capture_of cs i.
Proof. unfold RegExp.capture_of. simpl. now destruct (j =? i). Qed.

Lemma capture_of_add_caps caps :
  forall n cs i, i <= n -> RegExp.capture_of (add_caps n caps cs) i = RegExp.capture_of cs i.
Proof.
  induction caps as [|s caps IH]; intros n cs i Hi; simpl; [reflexivity|].
  rewrite IH by lia. rewrite capture_of_cons.
  replace (S n =? i) with false by (symmetry; apply Nat.eqb_neq; lia).
  apply capture_of_filter. lia.
Qed.

Lemma captures_add_caps caps :
  forall n cs,
  map (RegExp.capture_of (add_caps n caps cs)) (seq (S n) (List.length caps)) = map Some caps.
Proof.
  induction caps as [|s caps IH]; intros n cs; simpl; [reflexivity|].
  rewrite IH. f_equal.
  rewrite capture_of_add_caps by lia.
  now rewrite capture_of_cons, Nat.eqb_refl.
Qed.

Lemma fits_length items p caps :
  fits items p caps -> List.length caps = List.length (seg_keys items).
Proof. induction 1; simpl; auto. Qed.

(** What [exec] answers on the pattern of a template without pattern
    syntax: the whole path fits the items, and the captures are the
    segments' runs. *)
Lemma exec_plain_sound items src path m :
  RegExp.exec (RegExp.RegExp_ src (tree_of items) (List.length (seg_keys items))) path = Some m ->
  exists caps, fits items path caps /\ m = map Some caps.
Proof.
  unfold RegExp.exec. cbn [RegExp.tree RegExp.groups]. rewrite search_tree_of.
  destruct (RegExp.m _ _ _) as [z|] eqn:E; [|discriminate].
  intro H; inversion H; subst m; clear H.
  apply m_nodes_sound in E as (p1 & p2 & caps & -> & Hf & Hk).
  cbn [RegExp.seq_of fold_right RegExp.m RegExp.rest] in Hk.
  destruct p2; [|discriminate]. inversion Hk; subst z; clear Hk.
  rewrite app_nil_r. exists caps. split; [exact Hf|].
  cbn [RegExp.caps]. rewrite <- (fits_length _ _ _ Hf).
  apply captures_add_caps.
Qed.

Lemma exec_plain_complete items src path caps :
  fits items path caps ->
  RegExp.exec (RegExp.RegExp_ src (tree_of items) (List.length (seg_keys items))) path
  <> None.
Proof.
  intro Hf. unfold RegExp.exec. cbn [RegExp.tree RegExp.groups]. rewrite search_tree_of.
  assert (Hc : RegExp.m (RegExp.seq_of (nodes items 0 ++ [RegExp.Eol]))
                        (RegExp.MState 0 (path ++ []) None []) Some <> None).
  { apply (m_nodes_complete _ _ _ Hf). discriminate. }
  rewrite app_nil_r in Hc.
  destruct (RegExp.m (RegExp.seq_of (nodes items 0 ++ [RegExp.Eol]))
                     (RegExp.MState 0 path None []) Some); [discriminate | contradiction].
Qed.

(** ** What a token covers *)

Ltac held_none :=
  split; [simpl; lia | split; [simpl; lia | intros ? ? ?; simpl in *; lia]].

Lemma nth_skipn {A} k (s : list A) i d : nth i (skipn k s) d = nth (k + i) s d.
Proof.
  revert s. induction k as [|k IH]; intros [|a s]; simpl; auto.
  now destruct i.
Qed.

Lemma skipn_length_le {A} k (s : list A) a r : skipn k s = a :: r -> k < List.length s.
Proof.
  revert s. induction k as [|k IH]; intros [|b s] H; simpl in *; try discriminate; try lia.
  apply IH in H. lia.
Qed.

Lemma skipn_head {A} k (s : list A) a r d : skipn k s = a :: r -> nth k s d = a.
Proof.
  intro H. rewrite <- (Nat.add_0_r k), <- nth_skipn, H. reflexivity.
Qed.

Lemma skipn_tail {A} k (s : list A) a r : skipn k s = a :: r -> skipn (S k) s = r.
Proof.
  revert s. induction k as [|k IH]; intros [|b s] H; simpl in *; try discriminate.
  - now inversion H.
  - now apply IH.
Qed.

Lemma is_digit_inner c : RegExp.is_digit c = true -> inner c = true.
Proof. unfold inner. intros ->. now rewrite orb_true_r. Qed.

Lemma is_letter_inner c : RegExp.is_letter c = true -> inner c = true.
Proof. unfold inner. now intros ->. Qed.

Lemma is_octal_inner c : RegExp.is_octal c = true -> inner c = true.
Proof.
  intro H. apply is_digit_inner. unfold RegExp.is_octal, RegExp.is_digit in *.
  apply andb_true_iff in H as [H1 H2]. rewrite H1. apply N.leb_le in H2. apply N.leb_le. lia.
Qed.

Lemma hex_value_inner c v : RegExp.hex_value c = Some v -> inner c = true.
Proof.
  unfold RegExp.hex_value, inner, RegExp.is_letter, RegExp.is_digit.
  destruct ((48 <=? RegExp.code c)%N && (RegExp.code c <=? 57)%N) eqn:E1;
    [now rewrite orb_true_r|].
  destruct ((65 <=? RegExp.code c)%N && (RegExp.code c <=? 70)%N) eqn:E2.
  { intros _. apply andb_true_iff in E2 as [H1 H2]. rewrite H1.
    apply N.leb_le in H2.
    replace (RegExp.code c <=? 90)%N with true by (symmetry; apply N.leb_le; lia).
    reflexivity. }
  destruct ((97 <=? RegExp.code c)%N && (RegExp.code c <=? 102)%N) eqn:E3; [|discriminate].
  intros _. apply andb_true_iff in E3 as [H1 H2]. rewrite H1.
  apply N.leb_le in H2.
  replace (RegExp.code c <=? 122)%N with true by (symmetry; apply N.leb_le; lia).
  now rewrite orb_true_r.
Qed.

Lemma digits_cover s :
  List.length (RegExp.digits s) <= List.length s
  /\ forall i, i < List.length (RegExp.digits s) -> RegExp.is_digit (nth i s " "%char) = true.
Proof.
  induction s as [|c s [IH1 IH2]]; simpl; [split; [lia | intros; lia]|].
  destruct (RegExp.is_digit c) eqn:E; simpl.
  - split; [lia|]. intros [|i] Hi; [exact E | apply IH2; lia].
  - split; [lia | intros; lia].
Qed.

Lemma hex_cover n : forall s acc v,
  RegExp.hex n s acc = Some v ->
  n <= List.length s /\ forall i, i < n -> inner (nth i s " "%char) = true.
Proof.
  induction n as [|n IH]; intros s acc v H; simpl in *.
  - split; [lia | intros; lia].
  - destruct s as [|c s]; [discriminate|].
    destruct (RegExp.hex_value c) as [d|] eqn:E; [|discriminate].
    apply IH in H as [H1 H2]. simpl. split; [lia|].
    intros [|i] Hi; [now apply hex_value_inner in E | apply H2; lia].
Qed.

Lemma octal_at_cover s v n :
  RegExp.octal_at s = (v, n) ->
  n <= List.length s /\ forall i, 1 <= i -> i < n -> inner (nth i s " "%char) = true.
Proof.
  unfold RegExp.octal_at.
  destruct s as [|d1 [|d2 [|d3 r]]]; simpl.
  - intro H; inversion H. split; [lia | intros; lia].
  - intro H; inversion H. split; [lia | intros; lia].
  - destruct (RegExp.is_octal d2) eqn:E2; intro H; inversion H; subst; clear H.
    + split; [lia|]. intros [|[|i]] ? ?; try lia. now apply is_octal_inner.
    + split; [lia | intros; lia].
  - destruct (RegExp.is_octal d2) eqn:E2.
    + destruct (_ && RegExp.is_octal d3) eqn:E3; intro H; inversion H; subst; clear H.
      * apply andb_true_iff in E3 as [_ E3].
        split; [lia|]. intros [|[|[|i]]] ? ?; try lia; now apply is_octal_inner.
      * split; [lia|]. intros [|[|i]] ? ?; try lia. now apply is_octal_inner.
    + intro H; inversion H. split; [lia | intros; lia].
Qed.

Lemma hex_escape_cover c r v n :
  RegExp.hex_escape c r = Some (v, n) ->
  2 <= n /\ n <= 2 + List.length r /\ held ("\"%char :: c :: r) 2 n.
Proof.
  unfold RegExp.hex_escape.
  destruct (Ascii.eqb c "x").
  { destruct (RegExp.hex 2 r 0) eqn:E; intro H; inversion H; subst; clear H.
    - apply hex_cover in E as [E1 E2].
      split; [lia | split; [lia | unfold held]].
      intros [|[|i]] ? ?; try lia. simpl. apply E2. lia.
    - held_none. }
  destruct (Ascii.eqb c "u"); [|discriminate].
  destruct (RegExp.hex 4 r 0) eqn:E; intro H; inversion H; subst; clear H.
  - apply hex_cover in E as [E1 E2].
    split; [lia | split; [lia | unfold held]].
    intros [|[|i]] ? ?; try lia. simpl. apply E2. lia.
  - held_none.
Qed.

(** An escape holds one character after its backslash, whatever it is, and
    then letters and digits only. *)
Ltac three := split; [simpl in *; lia | split; [simpl in *; lia | unfold held]].

Lemma escape_at_cover total s tok len :
  RegExp.escape_at total s = RegExp.Fine (tok, len) ->
  1 <= len /\ len <= S (List.length s) /\ held ("\"%char :: s) 2 len.
Proof.
  unfold RegExp.escape_at. destruct s as [|c r]; [discriminate|].
  destruct (Ascii.eqb c "b"); [intro H; inversion H; held_none|].
  destruct (Ascii.eqb c "B"); [intro H; inversion H; held_none|].
  destruct (RegExp.is_digit c && negb (Ascii.eqb c "0")) eqn:Ed.
  { destruct (_ <=? _)%N.
    - intro H; inversion H; subst; clear H.
      destruct (digits_cover (c :: r)) as [D1 D2].
      three.
      intros [|i] ? ?; [lia|]. apply is_digit_inner.
      change (nth (S i) ("\"%char :: c :: r) " "%char) with (nth i (c :: r) " "%char).
      apply D2. simpl in *. lia.
    - destruct (RegExp.is_octal c).
      + destruct (RegExp.octal_at (c :: r)) as [v n] eqn:E.
        intro H; inversion H; subst; clear H.
        apply octal_at_cover in E as [E1 E2].
        three.
        intros [|i] ? ?; [lia|].
        change (nth (S i) ("\"%char :: c :: r) " "%char) with (nth i (c :: r) " "%char).
        apply E2; simpl in *; lia.
      + intro H; inversion H; held_none. }
  destruct (Ascii.eqb c "0").
  { destruct (RegExp.octal_at (c :: r)) as [v n] eqn:E.
    intro H; inversion H; subst; clear H.
    apply octal_at_cover in E as [E1 E2].
    three.
    intros [|i] ? ?; [lia|].
    change (nth (S i) ("\"%char :: c :: r) " "%char) with (nth i (c :: r) " "%char).
    apply E2; simpl in *; lia. }
  destruct (RegExp.control_escape c); [intro H; inversion H; held_none|].
  destruct (Ascii.eqb c "c").
  { destruct r as [|l r]; [intro H; inversion H; held_none|].
    destruct (RegExp.is_letter l) eqn:El; intro H; inversion H; subst; clear H.
    - three.
      intros [|[|[|i]]] ? ?; try lia. simpl. now apply is_letter_inner.
    - held_none. }
  destruct (RegExp.hex_escape c r) as [[v n]|] eqn:Eh.
  { intro H; inversion H; subst; clear H.
    apply hex_escape_cover in Eh as (H1 & H2 & H3).
    three. exact H3. }
  destruct (RegExp.class_escape c); intro H; inversion H; held_none.
Qed.

Lemma quantifier_cover min max len after tok n :
  RegExp.quantifier min max len after = RegExp.Fine (tok, n) ->
  (n = len \/ (n = len + 1 /\ exists r, after = "?"%char :: r))
  /\ exists greedy, tok = RegExp.TQuant min max greedy.
Proof.
  unfold RegExp.quantifier. destruct after as [|c r].
  - intro H; inversion H. split; [now left | now exists true].
  - destruct (Ascii.eqb c "?") eqn:E; intro H; inversion H; subst; clear H.
    + apply Ascii.eqb_eq in E; subst c. split; [right; split; eauto | now exists false].
    + split; [now left | now exists true].
Qed.

Lemma interval_at_cover s min max len :
  RegExp.interval_at s = Some (min, max, len) ->
  len <= List.length s /\ held s 0 len.
Proof.
  unfold RegExp.interval_at, held.
  destruct (digits_cover s) as [D1 D2].
  destruct (RegExp.digits s) as [|d ds] eqn:Ed; [discriminate|].
  remember (List.length (d :: ds)) as n1 eqn:Hn1.
  destruct (skipn n1 s) as [|c r] eqn:Es; [discriminate|].
  pose proof (skipn_length_le _ _ _ _ Es) as L1.
  pose proof (skipn_head _ _ _ _ " "%char Es) as N1.
  pose proof (skipn_tail _ _ _ _ Es) as T1.
  destruct (Ascii.eqb c "}") eqn:E1.
  { apply Ascii.eqb_eq in E1.
    intro H; injection H as _ _ <-.
    split; [lia|]. intros i _ Hi.
    destruct (Nat.eq_dec i n1) as [->|Hne]; [now rewrite N1, E1|].
    apply is_digit_inner, D2. lia. }
  destruct (Ascii.eqb c ",") eqn:E2; [|discriminate].
  apply Ascii.eqb_eq in E2.
  destruct (digits_cover r) as [R1 R2].
  remember (List.length (RegExp.digits r)) as n2 eqn:Hn2.
  destruct (skipn n2 r) as [|c' r'] eqn:Es2; [discriminate|].
  pose proof (skipn_length_le _ _ _ _ Es2) as L2.
  pose proof (skipn_head _ _ _ _ " "%char Es2) as N2.
  destruct (Ascii.eqb c' "}") eqn:E3; [|discriminate].
  apply Ascii.eqb_eq in E3.
  intro H; injection H as _ _ <-.
  assert (Lr : List.length r = List.length s - S n1).
  { rewrite <- T1, length_skipn. reflexivity. }
  split; [lia|]. intros i _ Hi.
  destruct (Nat.lt_ge_cases i n1) as [Hlt|Hge]; [apply is_digit_inner, D2; lia|].
  destruct (Nat.eq_dec i n1) as [->|Hne]; [now rewrite N1, E2|].
  assert (Hi' : nth i s " "%char = nth (i - S n1) r " "%char).
  { rewrite <- T1, nth_skipn. f_equal. lia. }
  rewrite Hi'.
  destruct (Nat.eq_dec (i - S n1) n2) as [->|Hne2]; [now rewrite N2, E3|].
  apply is_digit_inner, R2. lia.
Qed.

Lemma class_loop_cover s : forall skip acc n0 cs n,
  RegExp.class_loop s skip acc n0 = RegExp.Fine (cs, n) ->
  n0 < n /\ n <= n0 + List.length s /\ nth (n - n0 - 1) s " "%char = "]"%char.
Proof.
  induction s as [|c s IH]; intros skip acc n0 cs n H; [discriminate|].
  cbn [RegExp.class_loop] in H.
  assert (Hrec : forall skip' acc', RegExp.class_loop s skip' acc' (S n0) = RegExp.Fine (cs, n) ->
            n0 < n /\ n <= n0 + List.length (c :: s)
            /\ nth (n - n0 - 1) (c :: s) " "%char = "]"%char).
  { intros skip' acc' H'. apply IH in H' as (H1 & H2 & H3).
    split; [lia | split; [simpl; lia|]].
    replace (n - n0 - 1) with (S (n - S n0 - 1)) by lia. exact H3. }
  destruct skip as [|k]; [|eapply Hrec; eauto].
  destruct (Ascii.eqb c "]") eqn:E.
  - apply Ascii.eqb_eq in E. injection H as _ <-.
    split; [lia | split; [simpl; lia|]].
    replace (S n0 - n0 - 1) with 0 by lia. exact E.
  - destruct (RegExp.class_term (c :: s)) as [[items len]| |]; try discriminate.
    eapply Hrec; eauto.
Qed.

(** A class ends with its closing bracket. *)
Lemma class_at_cover s a n :
  RegExp.class_at s = RegExp.Fine (a, n) ->
  1 <= n /\ n <= List.length s /\ nth (n - 1) s " "%char = "]"%char
  /\ exists neg cs, a = RegExp.Class neg cs.
Proof.
  unfold RegExp.class_at. destruct s as [|c s]; [discriminate|].
  destruct (Ascii.eqb c "^").
  - destruct (RegExp.class_loop s 0 [] 1) as [[items k]| |] eqn:E; try discriminate.
    intro H; injection H as <- <-.
    apply class_loop_cover in E as (H1 & H2 & H3).
    split; [lia | split; [simpl; lia | split; [|eauto]]].
    replace (k - 1) with (S (k - 1 - 1)) by lia. exact H3.
  - destruct (RegExp.class_loop (c :: s) 0 [] 0) as [[items k]| |] eqn:E; try discriminate.
    intro H; injection H as <- <-.
    apply class_loop_cover in E as (H1 & H2 & H3).
    split; [lia | split; [simpl in *; lia | split; [|eauto]]].
    now replace (k - 1) with (k - 0 - 1) by lia.
Qed.

(** A token other than a class holds, after its first character (after
    its first two when it is an escape), inner characters only. *)
Lemma token_at_cover total c r tok len :
  RegExp.token_at total (c :: r) = RegExp.Fine (tok, len) ->
  c <> "["%char ->
  1 <= len /\ len <= S (List.length r)
  /\ held (c :: r) (if Ascii.eqb c "\" then 2 else 1) len.
Proof.
  unfold RegExp.token_at. intros H Hc.
  destruct (Ascii.eqb c "\") eqn:E0.
  { apply Ascii.eqb_eq in E0; subst c. now apply escape_at_cover in H. }
  destruct (Ascii.eqb c "^"); [injection H as _ <-; held_none|].
  destruct (Ascii.eqb c "$"); [injection H as _ <-; held_none|].
  destruct (Ascii.eqb c "."); [injection H as _ <-; held_none|].
  destruct (Ascii.eqb c "|"); [injection H as _ <-; held_none|].
  destruct (Ascii.eqb c ")"); [injection H as _ <-; held_none|].
  destruct (Ascii.eqb c "(").
  { destruct r as [|q r]; [injection H as _ <-; held_none|].
    destruct (Ascii.eqb q "?") eqn:Eq; [|injection H as _ <-; held_none].
    apply Ascii.eqb_eq in Eq; subst q.
    destruct r as [|k r]; [discriminate|].
    assert (Hk : inner k = true -> 1 <= 3 /\ 3 <= S (List.length ("?"%char :: k :: r))
                 /\ held (c :: "?"%char :: k :: r) 1 3).
    { intro Hk. three. intros [|[|[|i]]] ? ?; try lia; [reflexivity | exact Hk]. }
    destruct (Ascii.eqb k ":") eqn:E1;
      [apply Ascii.eqb_eq in E1; subst k; injection H as _ <-; now apply Hk|].
    destruct (Ascii.eqb k "=") eqn:E2;
      [apply Ascii.eqb_eq in E2; subst k; injection H as _ <-; now apply Hk|].
    destruct (Ascii.eqb k "!") eqn:E3;
      [apply Ascii.eqb_eq in E3; subst k; injection H as _ <-; now apply Hk|].
    discriminate. }
  destruct (Ascii.eqb c "[") eqn:Eb; [apply Ascii.eqb_eq in Eb; contradiction|].
  assert (Hq : forall min max, RegExp.quantifier min max 1 r = RegExp.Fine (tok, len) ->
               1 <= len /\ len <= S (List.length r) /\ held (c :: r) 1 len).
  { intros min max Hq. apply quantifier_cover in Hq as [[->|[-> [r' ->]]] _].
    - held_none.
    - three. intros [|[|i]] ? ?; try lia. reflexivity. }
  destruct (Ascii.eqb c "*"); [now apply Hq in H|].
  destruct (Ascii.eqb c "+"); [now apply Hq in H|].
  destruct (Ascii.eqb c "?"); [now apply Hq in H|].
  destruct (Ascii.eqb c "{"); [|injection H as _ <-; held_none].
  destruct (RegExp.interval_at r) as [[[min max] n]|] eqn:Ei;
    [|injection H as _ <-; held_none].
  apply interval_at_cover in Ei as [I1 I2].
  assert (Hq' : RegExp.quantifier min max (1 + n) (skipn n r) = RegExp.Fine (tok, len) ->
                1 <= len /\ len <= S (List.length r) /\ held (c :: r) 1 len).
  { intro Hq'. apply quantifier_cover in Hq' as [[->|[-> [r' Hr']]] _].
    - three. intros [|i] ? ?; [lia|]. simpl. apply I2; lia.
    - pose proof (skipn_length_le _ _ _ _ Hr'). pose proof (skipn_head _ _ _ _ " "%char Hr').
      three. intros [|i] ? ?; [lia|]. simpl.
      destruct (Nat.eq_dec i n) as [->|Hne]; [now rewrite H1|].
      apply I2; lia. }
  destruct max as [m|]; [destruct (m <? min)%N; [discriminate|]|]; now apply Hq'.
Qed.

(** The kind of a token goes with the character that starts it. *)
Lemma token_at_starts total c r tok len :
  RegExp.token_at total (c :: r) = RegExp.Fine (tok, len) -> starts c tok.
Proof.
  unfold RegExp.token_at. intro H.
  destruct (Ascii.eqb c "\") eqn:E0.
  { clear E0. unfold RegExp.escape_at in H.
    destruct r as [|e r]; [discriminate|].
    repeat match type of H with
           | (if ?b then _ else _) = _ => destruct b
           | (let (_, _) := ?x in _) = _ => destruct x
           | match ?x with _ => _ end = _ => destruct x
           end;
      try discriminate; injection H as <- _; simpl; repeat split; discriminate. }
  destruct (Ascii.eqb c "^"); [injection H as <- _; reflexivity|].
  destruct (Ascii.eqb c "$"); [injection H as <- _; reflexivity|].
  destruct (Ascii.eqb c "."); [injection H as <- _; simpl; repeat split; discriminate|].
  destruct (Ascii.eqb c "|") eqn:E1; [apply Ascii.eqb_eq in E1; now injection H as <- _|].
  destruct (Ascii.eqb c ")") eqn:E2; [apply Ascii.eqb_eq in E2; now injection H as <- _|].
  destruct (Ascii.eqb c "(") eqn:E3.
  { apply Ascii.eqb_eq in E3.
    repeat match type of H with
           | (if ?b then _ else _) = _ => destruct b
           | match ?x with _ => _ end = _ => destruct x
           end; try discriminate; now injection H as <- _. }
  destruct (Ascii.eqb c "[").
  { destruct (RegExp.class_at r) as [[a n]| |] eqn:Ec; try discriminate.
    apply class_at_cover in Ec as (_ & _ & _ & neg & cs & ->).
    injection H as <- _. simpl. repeat split; discriminate. }
  assert (Hq : forall min max n after,
             RegExp.quantifier min max n after = RegExp.Fine (tok, len) -> starts c tok).
  { intros min max n after Hq. apply quantifier_cover in Hq as [_ [g ->]]. exact I. }
  destruct (Ascii.eqb c "*"); [now apply Hq in H|].
  destruct (Ascii.eqb c "+"); [now apply Hq in H|].
  destruct (Ascii.eqb c "?"); [now apply Hq in H|].
  destruct (Ascii.eqb c "{");
    [|injection H as <- _; simpl; repeat split; discriminate].
  destruct (RegExp.interval_at r) as [[[min max] n]|];
    [|injection H as <- _; simpl; repeat split; discriminate].
  destruct max as [m|]; [destruct (m <? min)%N; [discriminate|]|]; now apply Hq in H.
Qed.

(** ** Classes *)

Lemma class_atom_cover s a l :
  RegExp.class_atom s = RegExp.Fine (a, l) ->
  1 <= l /\ l <= List.length s
  /\ (2 <= l -> nth 0 s " "%char = "\"%char) /\ held s 2 l.
Proof.
  unfold RegExp.class_atom. destruct s as [|c r]; [discriminate|].
  assert (Hone : 1 <= 1 /\ 1 <= List.length (c :: r)
                 /\ (2 <= 1 -> nth 0 (c :: r) " "%char = "\"%char) /\ held (c :: r) 2 1).
  { split; [lia | split; [simpl; lia | split; [lia | intros ? ? ?; lia]]]. }
  destruct (Ascii.eqb c "\") eqn:E0; [|intro H; injection H as _ <-; exact Hone].
  apply Ascii.eqb_eq in E0; subst c.
  destruct r as [|e r']; [discriminate|].
  assert (Htwo : 1 <= 2 /\ 2 <= List.length ("\"%char :: e :: r')
                 /\ (2 <= 2 -> nth 0 ("\"%char :: e :: r') " "%char = "\"%char)
                 /\ held ("\"%char :: e :: r') 2 2).
  { split; [lia | split; [simpl; lia | split; [reflexivity | intros ? ? ?; lia]]]. }
  destruct (RegExp.class_escape e); [intro H; injection H as _ <-; exact Htwo|].
  destruct (Ascii.eqb e "b"); [intro H; injection H as _ <-; exact Htwo|].
  destruct (RegExp.control_escape e); [intro H; injection H as _ <-; exact Htwo|].
  destruct (Ascii.eqb e "c").
  { destruct r' as [|l0 r'']; [intro H; injection H as _ <-; exact Hone|].
    destruct (RegExp.is_letter l0 || RegExp.is_digit l0 || Ascii.eqb l0 "_") eqn:El;
      intro H; injection H as _ <-; [|exact Hone].
    split; [lia | split; [simpl; lia | split; [reflexivity|]]].
    intros [|[|[|i]]] ? ?; try lia. simpl.
    unfold inner. apply orb_true_iff in El as [El|El].
    - now rewrite El.
    - apply Ascii.eqb_eq in El; subst l0. reflexivity. }
  destruct (RegExp.is_octal e).
  { destruct (RegExp.octal_at (e :: r')) as [v n] eqn:Eo.
    intro H; injection H as _ <-.
    apply octal_at_cover in Eo as [O1 O2].
    destruct n as [|n].
    - exact Hone.
    - split; [lia | split; [simpl in *; lia | split; [reflexivity|]]].
      intros [|i] ? ?; [lia|].
      change (nth (S i) ("\"%char :: e :: r') " "%char) with (nth i (e :: r') " "%char).
      apply O2; lia. }
  destruct (RegExp.hex_escape e r') as [[v n]|] eqn:Eh;
    intro H; injection H as _ <-; [|exact Htwo].
  apply hex_escape_cover in Eh as (H1 & H2 & H3).
  split; [lia | split; [simpl in *; lia | split; [reflexivity | exact H3]]].
Qed.

(** A term of a class holds a parenthesis after its first character only
    behind a backslash or a dash. *)
Lemma class_term_cover s items len :
  RegExp.class_term s = RegExp.Fine (items, len) ->
  1 <= len /\ len <= List.length s
  /\ forall i, 1 <= i -> i < len ->
       inner (nth i s " "%char) = true \/ nth i s " "%char = "-"%char
       \/ nth (i - 1) s " "%char = "\"%char \/ nth (i - 1) s " "%char = "-"%char.
Proof.
  unfold RegExp.class_term.
  destruct (RegExp.class_atom s) as [[a1 l1]| |] eqn:E1; try discriminate.
  apply class_atom_cover in E1 as (A1 & A2 & A3 & A4).
  assert (Hfirst : forall i, 1 <= i -> i < l1 ->
            inner (nth i s " "%char) = true \/ nth i s " "%char = "-"%char
            \/ nth (i - 1) s " "%char = "\"%char \/ nth (i - 1) s " "%char = "-"%char).
  { intros i Hi Hl. destruct (Nat.eq_dec i 1) as [->|Hne].
    - right; right; left. apply A3. lia.
    - left. apply A4; lia. }
  assert (Halone : 1 <= l1 /\ l1 <= List.length s
            /\ forall i, 1 <= i -> i < l1 ->
                 inner (nth i s " "%char) = true \/ nth i s " "%char = "-"%char
                 \/ nth (i - 1) s " "%char = "\"%char \/ nth (i - 1) s " "%char = "-"%char).
  { split; [lia | split; [lia | exact Hfirst]]. }
  destruct (skipn l1 s) as [|d r] eqn:Es; [intro H; injection H as _ <-; exact Halone|].
  pose proof (skipn_length_le _ _ _ _ Es) as L1.
  pose proof (skipn_head _ _ _ _ " "%char Es) as N1.
  pose proof (skipn_tail _ _ _ _ Es) as T1.
  destruct (Ascii.eqb d "-") eqn:Ed; [|intro H; injection H as _ <-; exact Halone].
  apply Ascii.eqb_eq in Ed; subst d.
  destruct r as [|c2 r2]; [discriminate|].
  destruct (Ascii.eqb c2 "]").
  { intro H; injection H as _ <-.
    split; [lia | split; [lia|]].
    intros i Hi Hl. destruct (Nat.eq_dec i l1) as [->|Hne]; [now right; left|].
    apply Hfirst; lia. }
  destruct (RegExp.class_atom (c2 :: r2)) as [[a2 l2]| |] eqn:E2; try discriminate.
  apply class_atom_cover in E2 as (B1 & B2 & B3 & B4).
  assert (Lr : List.length (c2 :: r2) = List.length s - S l1).
  { rewrite <- T1, length_skipn. reflexivity. }
  assert (Hboth : 1 <= l1 + 1 + l2 /\ l1 + 1 + l2 <= List.length s
            /\ forall i, 1 <= i -> i < l1 + 1 + l2 ->
                 inner (nth i s " "%char) = true \/ nth i s " "%char = "-"%char
                 \/ nth (i - 1) s " "%char = "\"%char \/ nth (i - 1) s " "%char = "-"%char).
  { split; [lia | split; [lia|]].
    intros i Hi Hl.
    destruct (Nat.lt_ge_cases i l1) as [Hlt|Hge]; [now apply Hfirst|].
    destruct (Nat.eq_dec i l1) as [->|Hne]; [now right; left|].
    destruct (Nat.eq_dec i (S l1)) as [->|Hne1].
    { right; right; right. now replace (S l1 - 1) with l1 by lia. }
    assert (Hn : forall j, nth (S l1 + j) s " "%char = nth j (c2 :: r2) " "%char).
    { intro j. now rewrite <- T1, nth_skipn. }
    destruct (Nat.eq_dec i (S (S l1))) as [->|Hne2].
    { right; right; left. replace (S (S l1) - 1) with (S l1 + 0) by lia.
      rewrite Hn. apply B3. lia. }
    left. replace i with (S l1 + (i - S l1)) by lia. rewrite Hn. apply B4; lia. }
  destruct a1, a2; try (intro H; injection H as _ <-; exact Hboth).
  destruct (c0 <? c)%N; [discriminate|]. intro H; injection H as _ <-; exact Hboth.
Qed.

(** ** Pattern texts the parentheses of which are those of segments *)

Lemma segmented_head s : segmented s -> nth 0 s " "%char <> "("%char.
Proof. destruct 1; simpl; [discriminate | assumption | discriminate]. Qed.

Lemma inner_not_paren c : inner c = true -> c <> "("%char.
Proof. intros H ->. discriminate. Qed.

(** A parenthesis comes after a slash. *)
Lemma segmented_prev s : segmented s ->
  forall i, nth (S i) s " "%char = "("%char -> nth i s " "%char = "/"%char.
Proof.
  induction 1 as [|c s Hc Hb IH|s Hb IH]; intros i Hi.
  - destruct i; discriminate.
  - destruct i as [|i]; [now apply segmented_head in Hb|]. now apply IH.
  - do 10 (destruct i as [|i]; [try discriminate; try reflexivity;
                                 now apply segmented_head in Hb|]).
    now apply IH.
Qed.

Lemma opens_cons c s : c <> "("%char -> opens (c :: s) = opens s.
Proof. intro Hc. unfold opens. simpl. destruct (ascii_dec c "("); [contradiction | reflexivity]. Qed.

Lemma opens_group s : opens ("/"%char :: group_text ++ s) = S (opens s).
Proof. reflexivity. Qed.

(** What is left of such a text once [j] characters without a parenthesis
    are read. *)
Lemma segmented_skip s : segmented s ->
  forall j, j <= List.length s ->
  (forall i, i < j -> nth i s " "%char <> "("%char) ->
  (segmented (skipn j s) \/ exists s', skipn j s = group_text ++ s' /\ segmented s')
  /\ opens (skipn j s) = opens s /\ List.length (skipn j s) = List.length s - j.
Proof.
  induction 1 as [|c s Hc Hb IH|s Hb IH]; intros j Hj Hclear.
  - destruct j; simpl; (split; [left; constructor | split; reflexivity]).
  - destruct j as [|j]; [simpl; split; [left; now constructor | split; [reflexivity | lia]]|].
    destruct (IH j) as (H1 & H2 & H3).
    + simpl in Hj. lia.
    + intros i Hi. apply (Hclear (S i)). lia.
    + simpl. rewrite (opens_cons _ _ Hc). auto.
  - destruct j as [|j]; [simpl; split; [left; now constructor | split; [reflexivity | lia]]|].
    destruct j as [|j].
    + simpl. split; [right; eauto | split; reflexivity].
    + exfalso. apply (Hclear 1); [lia | reflexivity].
Qed.

Lemma class_loop_group s acc n0 :
  RegExp.class_loop (group_text ++ s) 0 acc n0
  = RegExp.Fine (acc ++ [RegExp.CRange 40 40] ++ [RegExp.CRange 91 91] ++ [RegExp.CRange 94 94]
                     ++ [RegExp.CRange 92 92] ++ [RegExp.CRange 47 47], 7 + n0).
Proof.
  cbn. rewrite <- !app_assoc. reflexivity.
Qed.

(** A class opened in such a text ends at a bracket of the template, or at
    the bracket of the first segment it meets: what is left is then the
    [+)] of that segment. *)
Lemma class_loop_segmented s : forall j acc n0 cs n,
  RegExp.class_loop s j acc n0 = RegExp.Fine (cs, n) ->
  (segmented s \/ exists s', s = group_text ++ s' /\ segmented s') ->
  (forall i, i < j -> nth i s " "%char <> "("%char) ->
  (segmented (skipn (n - n0) s) /\ opens (skipn (n - n0) s) = opens s)
  \/ exists s', skipn (n - n0) s = lit "+)" ++ s' /\ segmented s'.
Proof.
  induction s as [|c s IH]; intros j acc n0 cs n H Hs Hclear; [discriminate|].
  pose proof (class_loop_cover _ _ _ _ _ _ H) as (C1 & C2 & _).
  destruct Hs as [Hb|[s' [Hs' Hb']]].
  2:{ destruct j as [|j]; [|exfalso; apply (Hclear 0); [lia | now rewrite Hs']].
      rewrite Hs' in H |- *. rewrite class_loop_group in H.
      assert (E7 : n - n0 = 7) by (injection H as _ <-; lia). rewrite E7.
      right. exists s'. split; [reflexivity | exact Hb']. }
  assert (Hrec : forall j' acc',
            RegExp.class_loop s j' acc' (S n0) = RegExp.Fine (cs, n) ->
            (forall i, i < j' -> nth (S i) (c :: s) " "%char <> "("%char) ->
            (segmented (skipn (n - n0) (c :: s)) /\ opens (skipn (n - n0) (c :: s)) = opens (c :: s))
            \/ exists s', skipn (n - n0) (c :: s) = lit "+)" ++ s' /\ segmented s').
  { intros j' acc' H' Hclear'.
    pose proof (class_loop_cover _ _ _ _ _ _ H') as (C1' & _).
    replace (n - n0) with (S (n - S n0)) by lia. cbn [skipn].
    inversion Hb as [|c0 s0 Hc Hbs|s0 Hbs]; subst.
    - rewrite (opens_cons _ _ Hc).
      apply (IH _ _ _ _ _ H'); [now left | exact Hclear'].
    - right. exists s0. split; [|exact Hbs].
      destruct j' as [|j']; [|exfalso; apply (Hclear' 0); [lia | reflexivity]].
      change (RegExp.class_loop (group_text ++ s0) 0 acc' (S n0) = RegExp.Fine (cs, n)) in H'.
      rewrite class_loop_group in H'.
      assert (E7 : n - S n0 = 7) by (injection H' as _ <-; lia). rewrite E7.
      reflexivity. }
  cbn [RegExp.class_loop] in H.
  destruct j as [|j].
  - destruct (Ascii.eqb c "]") eqn:E.
    + apply Ascii.eqb_eq in E; subst c. injection H as _ <-.
      replace (S n0 - n0) with 1 by lia. cbn [skipn].
      inversion Hb as [|c0 s0 Hc Hbs|s0 Hbs]; subst.
      left. split; [exact Hbs | symmetry; now apply opens_cons].
    + destruct (RegExp.class_term (c :: s)) as [[items len]| |] eqn:Et; try discriminate.
      apply class_term_cover in Et as (T1 & T2 & T3).
      apply (Hrec _ _ H). intros i Hi Hp.
      pose proof (segmented_prev _ Hb i Hp) as Hprev.
      destruct (T3 (S i)) as [Hin|[Hd|[Hs|Hs]]]; try lia.
      * now apply inner_not_paren in Hin.
      * rewrite Hp in Hd. discriminate.
      * replace (S i - 1) with i in Hs by lia. rewrite Hprev in Hs. discriminate.
      * replace (S i - 1) with i in Hs by lia. rewrite Hprev in Hs. discriminate.
  - apply (Hrec _ _ H). intros i Hi. apply (Hclear (S i)). lia.
Qed.

(** ** The groups of a pattern *)

Lemma capturing_seq_of l : capturing (RegExp.seq_of l) = flat_map capturing l.
Proof. induction l as [|a l IH]; simpl; [reflexivity | now rewrite IH]. Qed.

Lemma capturing_alts alts : forall x,
  capturing (fold_left (fun acc a => RegExp.Alt a acc) alts x)
  = flat_map capturing (rev alts) ++ capturing x.
Proof.
  induction alts as [|a alts IH]; intro x; simpl; [reflexivity|].
  rewrite IH, flat_map_app. simpl. now rewrite app_nil_r, <- app_assoc.
Qed.

Lemma capturing_close_frame f : capturing (RegExp.close_frame f) = frame_caps f.
Proof.
  unfold RegExp.close_frame, RegExp.close_alt, frame_caps.
  now rewrite capturing_alts, capturing_seq_of.
Qed.

Lemma frame_caps_push a q f :
  frame_caps (RegExp.push_term a q f) = frame_caps f ++ capturing a.
Proof.
  unfold frame_caps, RegExp.push_term. cbn [RegExp.alts RegExp.cur rev].
  rewrite flat_map_app. simpl. now rewrite app_nil_r, app_assoc.
Qed.

(** A token that is no parenthesis leaves the groups as they are. *)
Lemma build_step c tok toks top stk k r :
  starts c tok -> c <> "("%char -> c <> ")"%char ->
  RegExp.build (tok :: toks) top stk k = Some r ->
  exists top', RegExp.build toks top' stk k = Some r /\ frame_caps top' = frame_caps top.
Proof.
  intros Hs Ho Hc H. destruct tok as [a|a|g| | |min max greedy]; cbn [starts] in Hs.
  - cbn [RegExp.build] in H. eexists; split; [exact H|].
    destruct Hs as [Hs _]. now rewrite frame_caps_push, Hs, app_nil_r.
  - cbn [RegExp.build] in H. eexists; split; [exact H|].
    now rewrite frame_caps_push, Hs, app_nil_r.
  - contradiction.
  - contradiction.
  - cbn [RegExp.build] in H. eexists; split; [exact H|].
    unfold frame_caps, RegExp.close_alt. cbn [RegExp.alts RegExp.cur rev].
    rewrite flat_map_app. simpl. now rewrite !app_nil_r, capturing_seq_of.
  - cbn [RegExp.build] in H.
    destruct (RegExp.quantify min max greedy top) as [f|] eqn:Eq; [|discriminate].
    exists f; split; [exact H|].
    unfold RegExp.quantify in Eq.
    destruct (RegExp.quantifiable top); [|discriminate].
    destruct (RegExp.cur top) as [|t ts] eqn:Ec; [discriminate|].
    injection Eq as <-. unfold frame_caps. cbn [RegExp.alts RegExp.cur rev].
    rewrite Ec. cbn [rev]. now rewrite !flat_map_app.
Qed.

Lemma token_at_class total r tok len :
  RegExp.token_at total ("["%char :: r) = RegExp.Fine (tok, len) ->
  exists a n, RegExp.class_at r = RegExp.Fine (a, n) /\ tok = RegExp.TAtom a /\ len = 1 + n.
Proof.
  cbn. destruct (RegExp.class_at r) as [[a n]| |]; try discriminate.
  intro H; injection H as <- <-. eauto.
Qed.

Lemma lex_fine total c s toks :
  RegExp.lex total (c :: s) 0 = RegExp.Fine toks ->
  exists tok len toks',
    RegExp.token_at total (c :: s) = RegExp.Fine (tok, len)
    /\ RegExp.lex total (skipn (len - 1) s) 0 = RegExp.Fine toks'
    /\ toks = tok :: toks'.
Proof.
  intro H. destruct (RegExp.token_at total (c :: s)) as [[tok len]| |] eqn:Et.
  - rewrite (lex_cons _ _ _ _ _ Et) in H.
    destruct (RegExp.lex total (skipn (len - 1) s) 0) as [toks'| |] eqn:El; try discriminate.
    injection H as <-. exists tok, len, toks'. auto.
  - cbn [RegExp.lex] in H. rewrite Et in H. discriminate.
  - cbn [RegExp.lex] in H. rewrite Et in H. discriminate.
Qed.

(** The tokens of the group of a segment. *)
Lemma lex_group total s :
  RegExp.lex total (group_text ++ s) 0
  = then_tokens [RegExp.TOpen RegExp.Capture; RegExp.TAtom seg_class;
                 RegExp.TQuant 1 None true; RegExp.TClose] (RegExp.lex total s 0).
Proof.
  change group_text with (lit "(" ++ lit "[^\\/]" ++ lit "+" ++ lit ")").
  rewrite <- !app_assoc.
  rewrite (lex_token total (lit "(") (RegExp.TOpen RegExp.Capture)) by (discriminate || reflexivity).
  rewrite (lex_token total (lit "[^\\/]") (RegExp.TAtom seg_class)) by (discriminate || reflexivity).
  rewrite (lex_token total (lit "+") (RegExp.TQuant 1 None true)) by (discriminate || reflexivity).
  rewrite (lex_token total (lit ")") RegExp.TClose) by (discriminate || reflexivity).
  now destruct (RegExp.lex total s 0).
Qed.

(** When every parenthesis of a pattern is that of a segment, the pattern
    has one group per segment, numbered in their order, each with the rule
    of a segment. *)
Lemma segmented_groups total : forall fuel s,
  List.length s < fuel ->
  (segmented s \/ exists s', s = group_text ++ s' /\ segmented s') ->
  forall toks top k r,
  RegExp.lex total s 0 = RegExp.Fine toks ->
  RegExp.build toks top [] k = Some r ->
  snd r = k + opens s
  /\ capturing (fst r) = frame_caps top ++ map (fun j => (S j, seg_rule)) (seq k (opens s)).
Proof.
  induction fuel as [|fuel IH]; intros s Hlen Hs toks top k r Hlex Hbuild; [lia|].
  assert (Hgroup : forall s' top',
            List.length s' < fuel -> segmented s' ->
            frame_caps top' = frame_caps top ->
            forall toks', RegExp.lex total (group_text ++ s') 0 = RegExp.Fine toks' ->
            RegExp.build toks' top' [] k = Some r ->
            snd r = k + S (opens s')
            /\ capturing (fst r)
               = frame_caps top ++ map (fun j => (S j, seg_rule)) (seq k (S (opens s')))).
  { intros s' top' Hl Hb Hcaps toks' Hlex' Hbuild'.
    rewrite lex_group in Hlex'.
    destruct (RegExp.lex total s' 0) as [toks3| |] eqn:E3; try discriminate.
    injection Hlex' as <-.
    cbn [app RegExp.build RegExp.quantify RegExp.push_term RegExp.quantifiable RegExp.cur
         RegExp.alts RegExp.kind RegExp.gindex RegExp.group_of] in Hbuild'.
    destruct (IH s' Hl (or_introl Hb) _ _ _ _ E3 Hbuild') as [I1 I2].
    split; [lia|]. rewrite I2, frame_caps_push, Hcaps.
    cbn [seq map]. rewrite <- app_assoc. reflexivity. }
  destruct Hs as [Hb|[s' [-> Hb']]].
  2:{ change (opens (group_text ++ s')) with (S (opens s')).
      eapply (Hgroup s' top); eauto.
      rewrite length_app in Hlen. simpl in Hlen. lia. }
  destruct s as [|c s].
  { cbn in Hlex. injection Hlex as <-. cbn in Hbuild. injection Hbuild as <-.
    cbn [fst snd opens count_occ seq map]. rewrite app_nil_r, Nat.add_0_r.
    split; [reflexivity | apply capturing_close_frame]. }
  apply lex_fine in Hlex as (tok & len & toks' & Htok & Hlex' & ->).
  assert (Hc : c <> "("%char) by (inversion Hb; [assumption | discriminate]).
  rewrite (opens_cons _ _ Hc).
  (* what follows a token that is no parenthesis *)
  assert (Hnext : forall top' j,
            frame_caps top' = frame_caps top ->
            RegExp.build toks' top' [] k = Some r ->
            RegExp.lex total (skipn j s) 0 = RegExp.Fine toks' ->
            j <= List.length s ->
            (forall i, i < j -> nth i s " "%char <> "("%char) ->
            segmented s ->
            snd r = k + opens s
            /\ capturing (fst r)
               = frame_caps top ++ map (fun j => (S j, seg_rule)) (seq k (opens s))).
  { intros top' j Hcaps Hb' Hl' Hj Hclear Hbs.
    destruct (segmented_skip _ Hbs j Hj Hclear) as ([Hr|[s3 [Hr Hb3]]] & Ho & Hn).
    - rewrite <- Ho, <- Hcaps. eapply (IH (skipn j s)); eauto.
      simpl in Hlen. lia.
    - rewrite <- Ho, Hr. change (opens (group_text ++ s3)) with (S (opens s3)).
      eapply (Hgroup s3 top'); eauto.
      + assert (List.length (skipn j s) = List.length (group_text ++ s3)) by now rewrite Hr.
        rewrite length_app in H. simpl in *. lia.
      + now rewrite <- Hr. }
  destruct (Ascii.eqb c "[") eqn:Ebr.
  - apply Ascii.eqb_eq in Ebr; subst c.
    apply token_at_class in Htok as (a & n & Hcl & -> & ->).
    pose proof (class_at_cover _ _ _ Hcl) as (N1 & N2 & _ & neg & cs & ->).
    cbn [RegExp.build] in Hbuild.
    replace (1 + n - 1) with n in Hlex' by lia.
    assert (Hbs : segmented s) by (inversion Hb; assumption).
    assert (Hafter : forall rem,
              RegExp.lex total rem 0 = RegExp.Fine toks' ->
              (exists s', rem = lit "+)" ++ s' /\ segmented s') -> False).
    { intros rem Hl [s3 [-> _]].
      change (lit "+)" ++ s3) with (lit "+" ++ lit ")" ++ s3) in Hl.
      rewrite (lex_token total (lit "+") (RegExp.TQuant 1 None true)) in Hl
        by (discriminate || reflexivity).
      rewrite (lex_token total (lit ")") RegExp.TClose) in Hl by (discriminate || reflexivity).
      destruct (RegExp.lex total s3 0); try discriminate.
      injection Hl as <-. cbn in Hbuild. discriminate. }
    assert (Hdone : forall rem, rem = skipn n s ->
              segmented rem /\ opens rem = opens s ->
              snd r = k + opens s
              /\ capturing (fst r)
                 = frame_caps top ++ map (fun j => (S j, seg_rule)) (seq k (opens s))).
    { intros rem -> [Hr Ho]. rewrite <- Ho.
      replace (frame_caps top) with (frame_caps (RegExp.push_term (RegExp.Class neg cs) true top))
        by (rewrite frame_caps_push; apply app_nil_r).
      eapply (IH (skipn n s)); eauto.
      rewrite length_skipn. simpl in Hlen. lia. }
    unfold RegExp.class_at in Hcl. destruct s as [|c' s2]; [discriminate|].
    destruct (Ascii.eqb c' "^") eqn:Eh.
    + destruct (RegExp.class_loop s2 0 [] 1) as [[items m]| |] eqn:El; try discriminate.
      injection Hcl as _ _ <-.
      pose proof (class_loop_cover _ _ _ _ _ _ El) as (M1 & _).
      assert (Hc' : c' <> "("%char) by (apply Ascii.eqb_eq in Eh; subst; discriminate).
      assert (Hb2 : segmented s2) by (inversion Hbs; [assumption | subst; discriminate]).
      assert (Hsk : skipn m (c' :: s2) = skipn (m - 1) s2)
        by (destruct m; [lia | simpl; now rewrite Nat.sub_0_r]).
      destruct (class_loop_segmented _ _ _ _ _ _ El (or_introl Hb2)) as [Hok|Hq];
        [intros; lia | |].
      * apply (Hdone (skipn (m - 1) s2)); [now rewrite Hsk|].
        now rewrite (opens_cons _ _ Hc').
      * exfalso. apply (Hafter (skipn m (c' :: s2))); [exact Hlex' | now rewrite Hsk].
    + destruct (RegExp.class_loop (c' :: s2) 0 [] 0) as [[items m]| |] eqn:El; try discriminate.
      injection Hcl as _ _ <-.
      destruct (class_loop_segmented _ _ _ _ _ _ El (or_introl Hbs)) as [Hok|Hq];
        [intros; lia | |]; rewrite Nat.sub_0_r in *.
      * now apply (Hdone (skipn m (c' :: s2))).
      * exfalso. now apply (Hafter (skipn m (c' :: s2))).
  - assert (Hbr : c <> "["%char) by (intros ->; discriminate).
    pose proof (token_at_cover _ _ _ _ _ Htok Hbr) as (L1 & L2 & L3).
    pose proof (token_at_starts _ _ _ _ _ Htok) as Hst.
    destruct (Ascii.eqb c ")") eqn:Ecl.
    { apply Ascii.eqb_eq in Ecl; subst c. cbn in Htok. injection Htok as <- _.
      cbn in Hbuild. discriminate. }
    assert (Hcl : c <> ")"%char) by (intros ->; discriminate).
    destruct (build_step _ _ _ _ _ _ _ Hst Hc Hcl Hbuild) as (top' & Hb' & Hcaps).
    inversion Hb as [|c0 s0 _ Hbs|s0 Hbs]; subst.
    + eapply (Hnext top' (len - 1)); eauto; [lia|].
      intros i Hi.
      destruct (Ascii.eqb c "\") eqn:Ebs.
      * destruct i as [|i]; [now apply segmented_head|].
        apply inner_not_paren. apply (L3 (S (S i))); lia.
      * apply inner_not_paren. apply (L3 (S i)); lia.
    + (* the slash of a segment *)
      cbn in Htok. injection Htok as <- <-. cbn [Nat.sub skipn] in Hlex'.
      eapply (Hgroup s0 top'); eauto.
      simpl in Hlen. lia.
Qed.

(** ** The pattern of a template without a parenthesis *)

Lemma segmented_app a b : segmented a -> segmented b -> segmented (a ++ b).
Proof.
  induction 1 as [|c s Hc Hb IH|s Hb IH]; intro Hb2; [exact Hb2| |].
  - cbn [app]. apply segmented_char; auto.
  - change (("/"%char :: group_text ++ s) ++ b) with ("/"%char :: group_text ++ (s ++ b)).
    apply segmented_group; auto.
Qed.

Lemma opens_app a b : opens (a ++ b) = opens a + opens b.
Proof. unfold opens. apply count_occ_app. Qed.

Lemma segmented_item i :
  i <> ILit "("%char ->
  segmented (escape (item_text i)) /\ opens (escape (item_text i)) = List.length (seg_keys [i]).
Proof.
  destruct i as [c|key]; intro Hi.
  - assert (Hc : c <> "("%char) by (intros ->; now apply Hi).
    unfold escape. cbn [item_text flat_map seg_keys List.length].
    destruct (Ascii.eqb c "/" || Ascii.eqb c "."); cbn [app].
    + split; [apply segmented_char; [discriminate|]; apply segmented_char; [assumption | apply segmented_nil]|].
      rewrite opens_cons by discriminate. rewrite opens_cons by assumption. reflexivity.
    + split; [apply segmented_char; [assumption | apply segmented_nil]|].
      rewrite opens_cons by assumption. reflexivity.
  - split; [|reflexivity].
    change (escape (item_text (ISeg key))) with ("\"%char :: "/"%char :: group_text ++ []).
    apply segmented_char; [discriminate|]. apply segmented_group. apply segmented_nil.
Qed.

Lemma segmented_items items :
  ~ In (ILit "("%char) items ->
  segmented (escape (flat_map item_text items))
  /\ opens (escape (flat_map item_text items)) = List.length (seg_keys items).
Proof.
  induction items as [|i items IH]; intro Hno.
  - split; [apply segmented_nil | reflexivity].
  - destruct IH as [I1 I2]; [intro; apply Hno; now right|].
    destruct (segmented_item i) as [B1 B2]; [intros ->; apply Hno; now left|].
    cbn [flat_map]. rewrite escape_app. split; [now apply segmented_app|].
    rewrite opens_app, B2, I2. destruct i; reflexivity.
Qed.

(** One group per segment: the [j]-th parenthesis of the pattern is that
    of the [j]-th segment. *)
Lemma parse_groups items tree n :
  ~ In (ILit "("%char) items ->
  RegExp.parse_pattern (pattern_source (escape (flat_map item_text items)))
  = RegExp.Fine (tree, n) ->
  n = List.length (seg_keys items)
  /\ capturing tree = map (fun j => (S j, seg_rule)) (seq 0 n).
Proof.
  intros Hno H. unfold RegExp.parse_pattern in H.
  destruct (RegExp.lex _ _ 0) as [toks| |] eqn:El; try discriminate.
  destruct (RegExp.build toks _ [] 0) as [r|] eqn:Eb; [|discriminate].
  injection H as ->.
  destruct (segmented_items items Hno) as [B1 B2].
  assert (Hb : segmented (pattern_source (escape (flat_map item_text items)))).
  { unfold pattern_source. cbn [lit list_ascii_of_string app].
    apply segmented_char; [discriminate|]. apply segmented_app; [exact B1|].
    apply segmented_char; [discriminate | apply segmented_nil]. }
  assert (Ho : opens (pattern_source (escape (flat_map item_text items)))
               = List.length (seg_keys items)).
  { unfold pattern_source. cbn [lit list_ascii_of_string app].
    rewrite opens_cons by discriminate. rewrite opens_app, B2. cbn. lia. }
  destruct (segmented_groups _ _ _ (Nat.lt_succ_diag_r _) (or_introl Hb) _ _ _ _ El Eb)
    as [G1 G2].
  cbn [fst snd] in *. rewrite Ho in *. cbn [Nat.add] in G1. subst n.
  split; [reflexivity | exact G2].
Qed.

(** ** A pattern that is one alternative from [^] to [$] *)

Lemma last_cons_cons {A} (a b : A) l d : last (a :: b :: l) d = last (b :: l) d.
Proof. reflexivity. Qed.

Lemma base_frame_push top f stack :
  base_frame top (f :: stack) = base_frame f stack.
Proof.
  unfold base_frame. revert f top.
  induction stack as [|g stack IH]; intros f top; [reflexivity|].
  rewrite last_cons_cons, (IH g top). symmetry. apply IH.
Qed.

Lemma base_frame_top top top' f stack :
  base_frame top (f :: stack) = base_frame top' (f :: stack).
Proof. now rewrite !base_frame_push. Qed.

Lemma seq_of_ends l : ends_at_eol (RegExp.seq_of (l ++ [RegExp.Eol])) = true.
Proof.
  induction l as [|a l IH]; [reflexivity|].
  cbn [app RegExp.seq_of fold_right]. fold (RegExp.seq_of (l ++ [RegExp.Eol])).
  cbn [ends_at_eol]. rewrite IH.
  destruct a; try reflexivity.
  destruct (RegExp.seq_of (l ++ [RegExp.Eol])); reflexivity.
Qed.

(** The parser keeps the bottom frame rooted as long as no [|] comes. *)
Lemma build_rooted toks0 : forall top stack n tree n',
  RegExp.build (toks0 ++ [RegExp.TAssert RegExp.Eol]) top stack n = Some (tree, n') ->
  Forall (fun t => t <> RegExp.TBar) toks0 ->
  rooted (base_frame top stack) ->
  anchored tree = true.
Proof.
  induction toks0 as [|tok toks0 IH]; intros top stack n tree n' H Hbar Hroot.
  - cbn in H. destruct stack; [|discriminate]. injection H as <- _.
    destruct Hroot as (Ha & l & Hc & _). unfold base_frame in *. cbn [last] in *.
    unfold RegExp.close_frame, RegExp.close_alt, RegExp.push_term.
    cbn [RegExp.alts RegExp.cur]. rewrite Ha, Hc. cbn [fold_left rev].
    rewrite rev_app_distr. cbn [rev app RegExp.seq_of fold_right anchored].
    apply (seq_of_ends (rev l)).
  - inversion Hbar as [|? ? Hne Hbar']; subst.
    assert (Hpush : forall a q, rooted (base_frame (RegExp.push_term a q top) stack)).
    { intros a q. destruct stack as [|f stack].
      - unfold base_frame in *. cbn [last] in *.
        destruct Hroot as (Ha & l & Hc & _). split; [exact Ha|].
        exists (a :: l). cbn [RegExp.push_term RegExp.cur]. rewrite Hc.
        split; [reflexivity | discriminate].
      - now rewrite (base_frame_top _ top). }
    destruct tok as [a|a|g| | |min max greedy]; cbn [app RegExp.build] in H.
    + eapply IH; eauto.
    + eapply IH; eauto.
    + assert (Hopen : forall f', rooted (base_frame f' (top :: stack))).
      { intro f'. now rewrite base_frame_push. }
      destruct g; eapply IH; eauto.
    + destruct stack as [|f fs]; [discriminate|].
      eapply IH; eauto.
      rewrite base_frame_push in Hroot.
      destruct fs as [|f' fs].
      * unfold base_frame in *. cbn [last] in *.
        destruct Hroot as (Ha & l & Hc & _). split; [exact Ha|].
        exists (RegExp.group_of top :: l). cbn [RegExp.push_term RegExp.cur]. rewrite Hc.
        split; [reflexivity | discriminate].
      * now rewrite base_frame_push in *.
    + contradiction.
    + destruct (RegExp.quantify min max greedy top) as [f|] eqn:Eq; [|discriminate].
      eapply IH; eauto.
      destruct stack as [|g stack]; [|now rewrite (base_frame_top _ top)].
      unfold base_frame in *. cbn [last] in *.
      unfold RegExp.quantify in Eq.
      destruct (RegExp.quantifiable top) eqn:Equ; [|discriminate].
      destruct (RegExp.cur top) as [|t ts] eqn:Ec; [discriminate|].
      injection Eq as <-. destruct Hroot as (Ha & l & Hc & Hq).
      split; [exact Ha|]. cbn [RegExp.cur RegExp.quantifiable].
      destruct l as [|t' l]; [specialize (Hq eq_refl); congruence|].
      rewrite Ec in Hc. cbn [app] in Hc. injection Hc as -> ->.
      exists (RegExp.Repeat min max greedy t' :: l). split; [reflexivity | discriminate].
Qed.

Lemma last_cons_ne {A} (a : A) l d : l <> [] -> last (a :: l) d = last l d.
Proof. destruct l; [contradiction | reflexivity]. Qed.

Lemma nth_last {A} (l : list A) (a d : A) : nth (List.length l) (l ++ [a]) d = a.
Proof. rewrite app_nth2 by lia. now rewrite Nat.sub_diag. Qed.

(** The [$] at the end of a pattern is a token of its own unless a
    backslash comes before it; without [|] in the pattern no token is a
    bar. *)
Lemma lex_last total s : forall k toks,
  RegExp.lex total (s ++ lit "$") k = RegExp.Fine toks ->
  k <= List.length s ->
  last s " "%char <> "\"%char ->
  ~ In "|"%char s ->
  exists toks0, toks = toks0 ++ [RegExp.TAssert RegExp.Eol]
    /\ Forall (fun t => t <> RegExp.TBar) toks0.
Proof.
  change (lit "$") with ["$"%char].
  induction s as [|c s IH]; intros k toks H Hk Hlast Hbar.
  - assert (k = 0) by (simpl in Hk; lia). subst k. cbn in H. injection H as <-.
    exists []. split; [reflexivity | constructor].
  - assert (Hlast' : last s " "%char <> "\"%char).
    { destruct s as [|c' s]; [discriminate|]. now rewrite last_cons_ne in Hlast by discriminate. }
    assert (Hbar' : ~ In "|"%char s) by (intro; apply Hbar; now right).
    destruct k as [|k]; [|cbn [app RegExp.lex] in H; apply (IH k); auto; simpl in Hk; lia].
    cbn [app] in H. apply lex_fine in H as (tok & len & toks' & Htok & Hlex & ->).
    rewrite <- lex_skip in Hlex.
    assert (Hlen : len - 1 <= List.length s).
    { destruct (Nat.le_gt_cases (len - 1) (List.length s)) as [Hle|Hgt]; [exact Hle|].
      exfalso.
      destruct (Ascii.eqb c "[") eqn:Ebr.
      - apply Ascii.eqb_eq in Ebr; subst c.
        apply token_at_class in Htok as (a & n & Hcl & _ & ->).
        apply class_at_cover in Hcl as (N1 & N2 & N3 & _).
        rewrite length_app in N2. simpl in N2.
        replace (n - 1) with (List.length s) in N3 by lia.
        rewrite nth_last in N3. discriminate.
      - assert (Hbr : c <> "["%char) by (intros ->; discriminate).
        apply token_at_cover in Htok as (L1 & L2 & L3); [|exact Hbr].
        rewrite length_app in L2. simpl in L2.
        assert (Hlen : len = S (S (List.length s))) by lia.
        assert (Hdollar : nth (len - 1) (c :: s ++ ["$"%char]) " "%char = "$"%char).
        { rewrite Hlen. replace (S (S (List.length s)) - 1) with (S (List.length s)) by lia.
          cbn [nth]. apply nth_last. }
        destruct (Ascii.eqb c "\") eqn:Ebs.
        + destruct s as [|c' s].
          * apply Ascii.eqb_eq in Ebs; subst c. now apply Hlast.
          * specialize (L3 (len - 1)). rewrite Hdollar in L3.
            assert (inner "$" = true) by (apply L3; simpl in *; lia). discriminate.
        + specialize (L3 (len - 1)). rewrite Hdollar in L3.
          assert (inner "$" = true) by (apply L3; simpl in *; lia). discriminate. }
    destruct (IH _ _ Hlex Hlen Hlast' Hbar') as (toks0 & -> & Hall).
    exists (tok :: toks0). split; [reflexivity|].
    constructor; [|exact Hall].
    intros ->. apply token_at_starts in Htok. cbn in Htok. subst c. apply Hbar. now left.
Qed.

(** A pattern [^...$] without [|], the [$] of which no backslash escapes,
    is one alternative from [^] to [$]. *)
Lemma parse_anchored s tree n :
  RegExp.parse_pattern (pattern_source s) = RegExp.Fine (tree, n) ->
  last s " "%char <> "\"%char ->
  ~ In "|"%char s ->
  anchored tree = true.
Proof.
  intros H Hlast Hbar. unfold RegExp.parse_pattern in H.
  destruct (RegExp.lex _ _ 0) as [toks| |] eqn:El; try discriminate.
  destruct (RegExp.build toks _ [] 0) as [r|] eqn:Eb; [|discriminate].
  injection H as ->.
  unfold pattern_source in El.
  rewrite (lex_token _ (lit "^") (RegExp.TAssert RegExp.Bol)) in El
    by (discriminate || reflexivity).
  destruct (RegExp.lex _ (s ++ lit "$") 0) as [toks1| |] eqn:El1; try discriminate.
  injection El as <-.
  destruct (lex_last _ _ _ _ El1 (Nat.le_0_l _) Hlast Hbar) as (toks0 & -> & Hall).
  cbn [RegExp.build] in Eb.
  eapply build_rooted; eauto.
  unfold base_frame. cbn [last]. split; [reflexivity|].
  exists []. split; reflexivity.
Qed.

(** ** The matcher hands its result to the continuation *)

Lemma read_span s : forall x y,
  RegExp.read s x = Some y ->
  RegExp.pos y + List.length (RegExp.rest y) = RegExp.pos x + List.length (RegExp.rest x).
Proof.
  induction s as [|c s IH]; intros x y H; [now injection H as <-|].
  cbn [RegExp.read] in H. destruct (RegExp.rest x) as [|a r] eqn:Er; [discriminate|].
  destruct (Ascii.eqb a c); [|discriminate].
  apply IH in H. cbn [RegExp.pos RegExp.rest] in H. simpl. lia.
Qed.

Lemma step_span p x k z :
  RegExp.step p x k = Some z ->
  exists y, k y = Some z
    /\ RegExp.pos y + List.length (RegExp.rest y)
       = RegExp.pos x + List.length (RegExp.rest x).
Proof.
  unfold RegExp.step. destruct (RegExp.rest x) as [|c s]; [discriminate|].
  destruct (p c); [|discriminate]. intro H. eexists; split; [exact H|]. simpl. lia.
Qed.

Lemma repeat_span (ma : RegExp.mstate -> RegExp.cont -> option RegExp.mstate) gs :
  (forall x k z, ma x k = Some z ->
     exists y, k y = Some z
       /\ RegExp.pos y + List.length (RegExp.rest y)
          = RegExp.pos x + List.length (RegExp.rest x)) ->
  forall fuel min max greedy x k z,
  RegExp.repeat ma gs fuel min max greedy x k = Some z ->
  exists y, k y = Some z
    /\ RegExp.pos y + List.length (RegExp.rest y)
       = RegExp.pos x + List.length (RegExp.rest x).
Proof.
  intro Hma. induction fuel as [|fuel IH]; intros min max greedy x k z H; [discriminate|].
  rewrite repeat_S in H.
  assert (Hstop : k x = Some z ->
            exists y, k y = Some z
              /\ RegExp.pos y + List.length (RegExp.rest y)
                 = RegExp.pos x + List.length (RegExp.rest x)) by eauto.
  assert (Hmore : ma (RegExp.clear_caps gs x)
              (fun y => if (min =? 0)%N && (RegExp.pos y =? RegExp.pos x) then None
                        else RegExp.repeat ma gs fuel (N.pred min) (option_map N.pred max)
                                           greedy y k) = Some z ->
            exists y, k y = Some z
              /\ RegExp.pos y + List.length (RegExp.rest y)
                 = RegExp.pos x + List.length (RegExp.rest x)).
  { intro Hm. apply Hma in Hm as (y1 & Hy1 & Hs1).
    destruct ((min =? 0)%N && (RegExp.pos y1 =? RegExp.pos x)); [discriminate|].
    apply IH in Hy1 as (y & Hy & Hs). exists y. split; [exact Hy|].
    rewrite Hs, Hs1. reflexivity. }
  destruct max as [[|m]|]; [now apply Hstop | |].
  - destruct (negb (min =? 0)%N); [now apply Hmore|].
    destruct greedy.
    + destruct (ma _ _) as [z'|] eqn:E; [apply Hmore; congruence | now apply Hstop].
    + destruct (k x) as [z'|] eqn:E; [apply Hstop; congruence | now apply Hmore].
  - destruct (negb (min =? 0)%N); [now apply Hmore|].
    destruct greedy.
    + destruct (ma _ _) as [z'|] eqn:E; [apply Hmore; congruence | now apply Hstop].
    + destruct (k x) as [z'|] eqn:E; [apply Hstop; congruence | now apply Hmore].
Qed.

(** Whatever a pattern matches, the result is one of its continuation, at
    a state of the same input. *)
Lemma m_span r : forall x k z,
  RegExp.m r x k = Some z ->
  exists y, k y = Some z
    /\ RegExp.pos y + List.length (RegExp.rest y)
       = RegExp.pos x + List.length (RegExp.rest x).
Proof.
  induction r as [|c| |neg cs| | |neg|neg a IHa|i|a IHa b IHb|a IHa b IHb
                  |min max greedy a IHa|i a IHa]; intros x k z H; cbn [RegExp.m] in H.
  - eauto.
  - now apply step_span in H.
  - now apply step_span in H.
  - now apply step_span in H.
  - destruct (RegExp.pos x =? 0); [eauto | discriminate].
  - destruct (RegExp.rest x) eqn:Er; [|discriminate]. exists x. now rewrite Er.
  - destruct (xorb _ _); [eauto | discriminate].
  - destruct neg.
    + destruct (RegExp.m a x Some); [discriminate | eauto].
    + destruct (RegExp.m a x Some) as [y|]; [|discriminate].
      eexists; split; [exact H | reflexivity].
  - destruct (RegExp.capture_of (RegExp.caps x) i) as [s|]; [|eauto].
    destruct (RegExp.read s x) as [y|] eqn:Er; [|discriminate].
    apply read_span in Er. eauto.
  - apply IHa in H as (y1 & H1 & S1). apply IHb in H1 as (y & Hy & S2).
    exists y. split; [exact Hy | congruence].
  - destruct (RegExp.m a x k) as [z'|] eqn:E.
    + injection H as ->. now apply IHa in E.
    + now apply IHb in H.
  - now apply (repeat_span _ _ IHa) in H.
  - apply IHa in H as (y1 & H1 & S1). eexists; split; [exact H1|]. exact S1.
Qed.

Lemma ends_at_eol_seq a b :
  ends_at_eol (RegExp.Seq a b) = true ->
  (a = RegExp.Eol /\ b = RegExp.Empty) \/ ends_at_eol b = true.
Proof.
  destruct a; try (intro H; right; exact H).
  destruct b; try (intro H; right; exact H). now left.
Qed.

Lemma ends_whole b : forall x k z,
  ends_at_eol b = true ->
  RegExp.m b x k = Some z ->
  exists y, k y = Some z /\ RegExp.rest y = []
    /\ RegExp.pos y = RegExp.pos x + List.length (RegExp.rest x).
Proof.
  induction b as [|c| |neg cs| | |neg|neg a IHa|i|a IHa b IHb|a IHa b IHb
                  |min max greedy a IHa|i a IHa]; intros x k z He H; try discriminate.
  apply ends_at_eol_seq in He as [[-> ->]|He].
  - cbn [RegExp.m] in H. destruct (RegExp.rest x) eqn:Er; [|discriminate].
    exists x. rewrite Er. simpl. split; [exact H | split; [reflexivity | lia]].
  - cbn [RegExp.m] in H. apply m_span in H as (y1 & H1 & S1).
    apply (IHb _ _ _ He) in H1 as (y & Hy & Hr & Hp).
    exists y. split; [exact Hy | split; [exact Hr | lia]].
Qed.

Lemma anchored_shape r :
  anchored r = true -> exists b, r = RegExp.Seq RegExp.Bol b /\ ends_at_eol b = true.
Proof.
  destruct r; try discriminate. destruct r1; try discriminate. eauto.
Qed.

(** Such a pattern matches the whole input or nothing. *)
Lemma anchored_whole p s i t :
  anchored (RegExp.tree p) = true ->
  RegExp.matched p s = Some (i, t) -> i = 0 /\ t = s.
Proof.
  intros Ha H. apply anchored_shape in Ha as (b & Hb & He).
  unfold RegExp.matched in H. rewrite Hb, search_anchored in H.
  destruct (RegExp.m b _ Some) as [z|] eqn:E; [|discriminate].
  injection H as <- <-.
  apply (ends_whole _ _ _ _ He) in E as (y & Hy & _ & Hp).
  injection Hy as ->. cbn [RegExp.pos RegExp.rest] in Hp.
  split; [reflexivity|].
  rewrite Hp. cbn [skipn Nat.add]. rewrite Nat.sub_0_r. apply firstn_all.
Qed.

Lemma exec_matched p s :
  RegExp.exec p s <> None <-> RegExp.matched p s <> None.
Proof.
  unfold RegExp.exec, RegExp.matched.
  destruct (RegExp.search _ _ _ _) as [[i z]|]; split; intro H; (discriminate || exact H || auto).
Qed.

(** ** The pattern the constructor stores *)

Lemma scan_lit_in c s : In (ILit c) (scan s) -> In c s.
Proof.
  intro H. rewrite <- (scan_source s). apply in_flat_map.
  exists (ILit c). split; [exact H | now left].
Qed.

Lemma plain_lit_ok t : plain t = true -> Forall lit_ok (scan t).
Proof.
  intro Hp. apply Forall_forall. intros [c|key] Hin; simpl; [|exact I].
  apply scan_lit_in in Hin. unfold plain in Hp.
  rewrite forallb_forall in Hp. specialize (Hp c Hin).
  now destruct (is_meta c).
Qed.

Lemma new_ok src re :
  RegExp.new src = Ok re ->
  RegExp.parse_pattern src = RegExp.Fine (RegExp.tree re, RegExp.groups re)
  /\ RegExp.source re = src.
Proof.
  unfold RegExp.new. destruct (RegExp.parse_pattern src) as [[t n]| |]; try discriminate.
  intro H. injection H as <-. split; reflexivity.
Qed.

Lemma Route_pattern t opts types self :
  Route t opts types = Ok self ->
  RegExp.new (pattern_source (escape (flat_map item_text (scan t)))) = Ok (routeRe self).
Proof.
  intro H. apply Route_steps in H as (text & ps1 & Hr & Hn & _).
  apply replace_segments_ok in Hr as [-> _]. exact Hn.
Qed.

Lemma Route_source t opts types self :
  Route t opts types = Ok self ->
  RegExp.source (routeRe self) = pattern_source (escape (flat_map item_text (scan t))).
Proof. intro H. apply Route_pattern in H. now apply new_ok in H. Qed.

Lemma Route_plain t opts types self :
  plain t = true -> Route t opts types = Ok self ->
  routeRe self
  = RegExp.RegExp_ (pattern_source (escape (flat_map item_text (scan t))))
                   (tree_of (scan t)) (List.length (seg_keys (scan t))).
Proof.
  intros Hp H. apply Route_pattern in H.
  rewrite (new_plain _ (plain_lit_ok _ Hp)) in H. now injection H as <-.
Qed.

(** Without a parenthesis in the template, the groups of the pattern are
    those of the segments. *)
Lemma Route_groups t opts types self :
  Route t opts types = Ok self -> ~ In "("%char t ->
  RegExp.groups (routeRe self) = List.length (names_at t)
  /\ capturing (RegExp.tree (routeRe self))
     = map (fun j => (S j, seg_rule)) (seq 0 (List.length (names_at t))).
Proof.
  intros H Hno. apply Route_pattern, new_ok in H as [H _].
  apply parse_groups in H as [Hn Hc].
  - rewrite seg_keys_scan in Hn. rewrite <- Hn. split; [reflexivity | exact Hc].
  - intro Hin. now apply scan_lit_in in Hin.
Qed.

Lemma last_app_ne {A} (a b : list A) d : b <> [] -> last (a ++ b) d = last b d.
Proof.
  intro Hb. induction a as [|x a IH]; [reflexivity|].
  cbn [app]. rewrite <- IH. destruct (a ++ b) eqn:E; [|reflexivity].
  apply app_eq_nil in E as [_ E]. contradiction.
Qed.

Lemma item_text_ne i : escape (item_text i) <> [].
Proof.
  destruct i as [c|key]; [|discriminate].
  unfold escape. cbn [item_text flat_map].
  destruct (Ascii.eqb c "/" || Ascii.eqb c "."); discriminate.
Qed.

Lemma escape_items_ne i items : escape (flat_map item_text (i :: items)) <> [].
Proof.
  cbn [flat_map]. rewrite escape_app. intro E. apply app_eq_nil in E as [E _].
  now apply item_text_ne in E.
Qed.

Lemma source_items_ne i items : flat_map item_source (i :: items) <> [].
Proof.
  cbn [flat_map]. intro E. apply app_eq_nil in E as [E _]. destruct i; discriminate.
Qed.

Lemma last_escape_items items :
  last (escape (flat_map item_text items)) " "%char = "\"%char ->
  last (flat_map item_source items) " "%char = "\"%char.
Proof.
  induction items as [|i items IH]; [discriminate|].
  destruct items as [|i' items].
  - cbn [flat_map]. rewrite !app_nil_r. destruct i as [c|key]; [|discriminate].
    unfold escape. cbn [item_text item_source flat_map].
    destruct (Ascii.eqb c "/" || Ascii.eqb c "."); exact (fun H => H).
  - change (flat_map item_text (i :: i' :: items))
      with (item_text i ++ flat_map item_text (i' :: items)).
    change (flat_map item_source (i :: i' :: items))
      with (item_source i ++ flat_map item_source (i' :: items)).
    rewrite escape_app, !last_app_ne
      by (apply escape_items_ne || apply source_items_ne).
    exact IH.
Qed.

Lemma escape_in c s : In c (escape s) -> c = "\"%char \/ In c s.
Proof.
  unfold escape. intro H. apply in_flat_map in H as (x & Hx & Hc).
  destruct (Ascii.eqb x "/" || Ascii.eqb x ".").
  - destruct Hc as [<-|[<-|[]]]; auto.
  - destruct Hc as [<-|[]]; auto.
Qed.

Lemma items_text_in c items :
  In c (flat_map item_text items) ->
  In c segment_text \/ In (ILit c) items.
Proof.
  intro H. apply in_flat_map in H as ([a|key] & Hi & Hc).
  - destruct Hc as [<-|[]]. now right.
  - now left.
Qed.

(** Without [|] in the template and without a backslash at its end, the
    pattern is one alternative from [^] to [$]. *)
Lemma Route_anchored t opts types self :
  Route t opts types = Ok self ->
  ~ In "|"%char t -> last t " "%char <> "\"%char ->
  anchored (RegExp.tree (routeRe self)) = true.
Proof.
  intros H Hbar Hlast. apply Route_pattern, new_ok in H as [H _].
  apply parse_anchored in H; [exact H | |].
  - intro E. apply last_escape_items in E. rewrite scan_source in E. contradiction.
  - intro Hin. apply escape_in in Hin as [E|Hin]; [discriminate|].
    apply items_text_in in Hin as [Hin|Hin].
    + cbn in Hin. repeat (destruct Hin as [E|Hin]; [discriminate|]). exact Hin.
    + now apply scan_lit_in in Hin.
Qed.

(** *** Slashes *)

Lemma slashes_app a b : slashes (a ++ b) = slashes a + slashes b.
Proof. apply count_occ_app. Qed.

Lemma slashes_none (f : ascii -> bool) s :
  f "/"%char = false -> forallb f s = true -> slashes s = 0.
Proof.
  intros Hf. induction s as [|c s IH]; simpl; intro H; [reflexivity|].
  apply andb_true_iff in H as [Hc Hs]. unfold slashes in *. simpl.
  destruct (ascii_dec c "/") as [->|_]; [congruence | auto].
Qed.

Lemma slashes_scan t : slashes t = list_sum (map item_slashes (scan t)).
Proof.
  induction t as [|c s E IH|key r Hk Hw E IH] using scan_ind.
  - reflexivity.
  - rewrite scan_cons, E. simpl. rewrite <- IH. unfold slashes. simpl.
    now destruct (ascii_dec c "/").
  - rewrite scan_cons, E. simpl. rewrite <- IH.
    change ("/"%char :: ":"%char :: key ++ r) with (lit "/:" ++ key ++ r).
    rewrite !slashes_app, (slashes_none is_word key eq_refl Hw). reflexivity.
Qed.

Lemma fits_slashes items p caps :
  fits items p caps -> slashes p = list_sum (map item_slashes items).
Proof.
  induction 1 as [|a items p caps Hf IH|key items s p caps Hne Hs Hf IH]; simpl.
  - reflexivity.
  - rewrite <- IH. unfold slashes. simpl. now destruct (ascii_dec a "/").
  - rewrite <- IH.
    change ("/"%char :: s ++ p) with (lit "/" ++ s ++ p).
    rewrite !slashes_app, (slashes_none seg_char s eq_refl Hs). reflexivity.
Qed.

Lemma fits_no_backslash items p caps :
  Forall lit_ok items -> fits items p caps -> ~ In "\"%char p.
Proof.
  intros Hok Hf. revert Hok.
  induction Hf as [|a items p caps Hf IH|key items s p caps Hne Hs Hf IH];
    intro Hok; [|inversion Hok as [|? ? Hl Hok']; subst..]; simpl.
  - auto.
  - intros [E|Hin]; [subst a; discriminate Hl | now apply IH].
  - intros [E|Hin]; [discriminate|].
    apply in_app_or in Hin as [Hin|Hin]; [|now apply IH].
    rewrite forallb_forall in Hs. specialize (Hs _ Hin). discriminate.
Qed.

(** A path that fits is covered: a run without [\] and [/] is a run
    without [/]. *)
Lemma fits_covers items p caps : fits items p caps -> covers items p caps.
Proof.
  induction 1 as [|a items p caps Hf IH|key items s p caps Hne Hs Hf IH].
  - constructor.
  - now constructor.
  - constructor; auto. intro Hin.
    rewrite forallb_forall in Hs. specialize (Hs _ Hin). discriminate.
Qed.

Lemma slashes_in extra : In "/"%char extra -> 0 < slashes extra.
Proof. intro H. unfold slashes. now apply count_occ_In. Qed.

Lemma plain_exec_slashes t opts types self path m :
  plain t = true -> Route t opts types = Ok self ->
  RegExp.exec (routeRe self) path = Some m ->
  (exists caps, fits (scan t) path caps /\ m = map Some caps)
  /\ slashes path = slashes t.
Proof.
  intros Hp Hr Hm. rewrite (Route_plain _ _ _ _ Hp Hr) in Hm.
  apply exec_plain_sound in Hm as (caps & Hf & ->).
  split; [now exists caps|].
  now rewrite (fits_slashes _ _ _ Hf), slashes_scan.
Qed.

Lemma exec_whole p s m :
  anchored (RegExp.tree p) = true ->
  RegExp.exec p s = Some m -> RegExp.matched p s = Some (0, s).
Proof.
  intros Ha Hm.
  destruct (RegExp.matched p s) as [[i t]|] eqn:E.
  - apply (anchored_whole _ _ _ _ Ha) in E as [-> ->]. reflexivity.
  - exfalso. apply (proj1 (exec_matched p s)); [rewrite Hm; discriminate | exact E].
Qed.

(** On a template without pattern syntax, a segment takes every non-empty
    run of characters other than [/] and [\] ... *)
Lemma segment_accepts t opts types self pre key post p1 c1 s p2 c2 :
  plain t = true -> Route t opts types = Ok self ->
  scan t = pre ++ ISeg key :: post ->
  fits pre p1 c1 -> fits post p2 c2 ->
  s <> [] -> forallb seg_char s = true ->
  RegExp.exec (routeRe self) (p1 ++ "/"%char :: s ++ p2) <> None.
Proof.
  intros Hp Hr Hscan Hpre Hpost Hne Hs.
  rewrite (Route_plain _ _ _ _ Hp Hr). apply exec_plain_complete with (caps := c1 ++ s :: c2).
  rewrite Hscan. clear Hscan.
  induction Hpre as [|a items p caps Hf IH|k items s0 p caps Hne0 Hs0 Hf IH]; simpl.
  - now constructor.
  - now constructor.
  - rewrite <- app_assoc. now constructor.
Qed.

(** ... and no path with a [\] is accepted. *)
Lemma backslash_rejected t opts types self path lm :
  plain t = true -> Route t opts types = Ok self ->
  In "\"%char path -> match_ self path lm = (Ok false, lm).
Proof.
  intros Hp Hr Hin. apply match_no_exec.
  destruct (RegExp.exec (routeRe self) path) as [m|] eqn:Hm; [|reflexivity].
  destruct (plain_exec_slashes _ _ _ _ _ _ Hp Hr Hm) as [(caps & Hf & _) _].
  destruct (fits_no_backslash _ _ _ (plain_lit_ok _ Hp) Hf Hin).
Qed.

Lemma plain_no_meta t c : plain t = true -> is_meta c = true -> ~ In c t.
Proof.
  unfold plain. intros Hp Hm Hin. rewrite forallb_forall in Hp.
  specialize (Hp _ Hin). rewrite Hm in Hp. discriminate.
Qed.

(** ** Properties of the compiled matcher *)

(** C2, as amended.  The pattern is [^], the template with its segments
    replaced and its [/] and [.] escaped, [$].  When the template has no
    [|] and no backslash at its end, [^] and [$] hold for the whole pattern:
    whenever [match] accepts a path, the pattern has matched the path from
    its first to its last character.  For a template without pattern syntax,
    an accepted path is the template's text with every [/:name] replaced by
    [/] and a non-empty run of characters other than [/]; it has as many [/]
    as the template, and extended on either side by text that contains [/]
    it is rejected. *)
Theorem match_whole_path t opts types self :
  Route t opts types = Ok self ->
  RegExp.source (routeRe self) = lit "^" ++ escape (flat_map item_text (scan t)) ++ lit "$"
  /\ (~ In "|"%char t -> last t " "%char <> "\"%char ->
      anchored (RegExp.tree (routeRe self)) = true
      /\ forall path lm,
           fst (match_ self path lm) = Ok true ->
           RegExp.matched (routeRe self) path = Some (0, path))
  /\ (plain t = true ->
      forall path lm,
        fst (match_ self path lm) = Ok true ->
        (exists runs, covers (scan t) path runs)
        /\ slashes path = slashes t
        /\ forall extra lm', In "/"%char extra ->
             match_ self (path ++ extra) lm' = (Ok false, lm')
             /\ match_ self (extra ++ path) lm' = (Ok false, lm')).
Proof.
  intro Hr. split; [exact (Route_source _ _ _ _ Hr)|]. split.
  - intros Hbar Hlast.
    pose proof (Route_anchored _ _ _ _ Hr Hbar Hlast) as Ha.
    split; [exact Ha|]. intros path lm H.
    apply match_true_exec in H as [m Hm]. exact (exec_whole _ _ _ Ha Hm).
  - intros Hp path lm H.
    assert (Hexec : forall p m, RegExp.exec (routeRe self) p = Some m ->
                      slashes p = slashes t).
    { intros p m Hm. now destruct (plain_exec_slashes _ _ _ _ _ _ Hp Hr Hm). }
    assert (Hrej : forall p lm', slashes p <> slashes t ->
                     match_ self p lm' = (Ok false, lm')).
    { intros p lm' Hne. apply match_no_exec.
      destruct (RegExp.exec (routeRe self) p) as [m|] eqn:Hm; [|reflexivity].
      now apply Hexec in Hm. }
    apply match_true_exec in H as [m Hm].
    destruct (plain_exec_slashes _ _ _ _ _ _ Hp Hr Hm) as [(caps & Hf & _) Hs].
    split; [exists caps; now apply fits_covers|]. split; [exact Hs|].
    intros extra lm' Hin. apply slashes_in in Hin.
    split; apply Hrej; rewrite slashes_app; lia.
Qed.

(** C6, as amended.  [keys] holds the names of the [/:name] places of the
    template in template order, a repeated name once per place: so whenever
    the replacement callback has run over the template, and so in every
    instance.  When the template has no parenthesis of its own, the pattern
    has one capture group per place: the group of the [j]-th place is the
    [j]-th group of the pattern, and it encloses the rule of a segment. *)
Theorem keys_and_groups t opts types :
  (forall text ks ps polluted,
     replace_segments (scan t) []
                      (map (fun kv => (fst kv, expand (snd kv))) (declared opts)) false
       = Ok (text, ks, ps, polluted) ->
     ks = names_at t)
  /\ forall self,
       Route t opts types = Ok self ->
       keys self = names_at t
       /\ (~ In "("%char t ->
           RegExp.groups (routeRe self) = List.length (names_at t)
           /\ capturing (RegExp.tree (routeRe self))
              = map (fun j => (S j, seg_rule)) (seq 0 (List.length (names_at t)))).
Proof.
  split.
  - intros text ks ps pol H. apply replace_segments_ok in H as [_ ->].
    apply seg_keys_scan.
  - intros self Hr. split; [exact (Route_keys _ _ _ _ Hr)|].
    intro Hno. exact (Route_groups _ _ _ _ Hr Hno).
Qed.



(** ** What the constructor leaves in [params] *)

Lemma replace_segments_no_conflict key d items :
  forall ks ps pol text ks' ps' pol',
  replace_segments items ks ps pol = Ok (text, ks', ps', pol') ->
  In (ISeg key) items -> get ps key = Some d -> conflicts d -> False.
Proof.
  induction items as [|[c|k] items IH]; intros ks ps pol text ks' ps' pol' H Hin Hget Hc;
    cbn [replace_segments] in H.
  - destruct Hin.
  - destruct Hin as [Hin|Hin]; [discriminate|].
    destruct (replace_segments items ks ps pol) as [[[[t1 k1] p1] b1]|e] eqn:E;
      cbn [bind] in H; [|discriminate].
    eapply IH; eauto.
  - destruct (on_segment k ks ps pol) as [[[[seg k1] p1] b1]|e] eqn:E1;
      cbn [bind] in H; [|discriminate].
    destruct (replace_segments items k1 p1 b1) as [[[[t2 k2] p2] b2]|e] eqn:E2;
      cbn [bind] in H; [|discriminate].
    assert (Hne : k <> key).
    { intros ->. destruct (on_segment_conflict key ks ps pol d Hget Hc) as [f Hf].
      congruence. }
    destruct Hin as [Hin|Hin]; [congruence|].
    rewrite <- (on_segment_other _ _ _ _ _ _ _ _ _ E1 Hne) in Hget.
    eapply IH; eauto.
Qed.

Lemma match_true_params self path lm :
  fst (match_ self path lm) = Ok true ->
  forall key, In key (keys self) -> exists p, get (params self) key = Some p.
Proof.
  unfold match_. destruct (RegExp.exec (routeRe self) path) as [m|]; [|discriminate].
  destruct (match_loop (params self) m (keys self) 0 []) as [r lm'] eqn:E.
  cbn [fst]. intros -> key Hin.
  apply match_loop_true in E as [Hall _].
  apply In_nth_error in Hin as [j Hj].
  destruct (Hall j key Hj) as (p & _ & Hp & _). now exists p.
Qed.

(** X1.  A constructed route has, for every name of [keys] that the
    options declare or that [Object.prototype] does not have, a parameter
    whose source is [url].  A segment named after a property of
    [Object.prototype] that the options do not declare gets no parameter,
    and [match] then accepts no path. *)
Theorem segment_names_are_url_params t opts types self :
  Route t opts types = Ok self ->
  forall key, In key (keys self) ->
    (settled opts key = true ->
     exists p, get (params self) key = Some p /\ p_source p = lit "url")
    /\ (settled opts key = false ->
        get (params self) key = None
        /\ forall path lastMatch, fst (match_ self path lastMatch) <> Ok true).
Proof.
  intros Hr key Hin. split; intro Hs.
  - destruct (Route_segment_param _ _ _ _ _ Hr Hin Hs) as (p & Hg & _ & Hsrc).
    now exists p.
  - pose proof (Route_inherited_segment _ _ _ _ _ Hr Hs) as Hnone.
    split; [exact Hnone|]. intros path lm Hm.
    destruct (match_true_params _ _ _ Hm key Hin) as [p Hp]. congruence.
Qed.

(** X2.  A segment name that [options.params] does not declare and
    [Object.prototype] does not have gets the registry's [string] type, the
    source [url], and is required. *)
Theorem undeclared_segment_defaults t opts types self key :
  Route t opts types = Ok self ->
  In key (keys self) -> get (declared opts) key = None -> inherited key = false ->
  exists p, get (params self) key = Some p
    /\ types_get types (Some (TName (lit "string"))) = Ok (p_type p)
    /\ p_source p = lit "url" /\ p_optional p = false.
Proof.
  intros Hr Hin Hnone Hinh.
  assert (Hs : settled opts key = true).
  { unfold settled. rewrite Hinh. apply orb_true_r. }
  destruct (Route_segment_param _ _ _ _ _ Hr Hin Hs) as (p & Hg & Hn & Hsrc).
  exists p. unfold decl_at in Hn. rewrite get_expand, Hnone in Hn.
  destruct (normalize_param_url types _ p Hn eq_refl) as (_ & Ho & Ht).
  repeat split; auto.
Qed.

(** X3.  After construction every parameter has one of the three sources
    [url], [query], [body]. *)
Theorem sources_are_normalized t opts types self :
  Route t opts types = Ok self ->
  forall key p, In (key, p) (params self) ->
    p_source p = lit "url" \/ p_source p = lit "query" \/ p_source p = lit "body".
Proof.
  intros Hr key p Hin.
  destruct (Route_steps _ _ _ _ Hr) as (text & ps1 & _ & _ & Hnorm & _).
  destruct (normalize_own_each _ _ _ Hnorm key p Hin) as (d & _ & Hn).
  exact (normalize_param_source _ _ _ Hn).
Qed.

Lemma inheriting_source d src :
  d_source d = Some src -> d_source (inheriting d) = Some src.
Proof. unfold inheriting. cbn [d_source]. now intros ->. Qed.

(** X4.  A parameter declared with a source that is neither empty nor one of
    [url], [query], [body] makes the constructor throw, whatever the
    template; the one case left open is a template whose pattern is beyond
    the syntax modelled here. *)
Theorem invalid_source_aborts t opts types key d src :
  get (declared opts) key = Some (EObject d) ->
  d_source d = Some src -> src <> [] ->
  src <> lit "url" -> src <> lit "query" -> src <> lit "body" ->
  (exists e, Route t opts types = Throw e)
  \/ RegExp.new (pattern_source (escape (flat_map item_text (scan t)))) = Unsupported.
Proof.
  intros Hget Hs Hn Hu Hq Hb.
  assert (Hd : get (map (fun kv => (fst kv, expand (snd kv))) (declared opts)) key = Some d)
    by (now rewrite get_expand, Hget).
  assert (Hc : conflicts d) by (exists src; auto).
  unfold Route, normalizePath. fold (declared opts).
  destruct (replace_segments (scan t) [] _ false) as [[[[text ks] ps1] pol]|e] eqn:E;
    cbn [and_then]; [|left; now exists e].
  pose proof (replace_segments_params _ _ _ _ _ _ _ _ E key) as Hk.
  pose proof (replace_segments_ok _ _ _ _ _ _ _ _ E) as [-> _].
  destruct (RegExp.new _) as [[re|e]|] eqn:Er; cbn [and_then];
    [|left; now exists e | now right].
  left.
  assert (Hin : In (key, d) ps1).
  { destruct (mentions key (seg_keys (scan t))) eqn:Em.
    - exfalso. apply mentions_In, seg_keys_In in Em.
      exact (replace_segments_no_conflict _ _ _ _ _ _ _ _ _ _ E Em Hd Hc).
    - cbn [andb] in Hk. rewrite Hd in Hk. now apply get_In. }
  unfold normalizeParams. destruct pol.
  - destruct (normalize_own types _) as [ps'|e] eqn:En; cbn [and_then]; [|now exists e].
    exfalso.
    assert (Hin' : In (key, inheriting d) (map (fun kv => (fst kv, inheriting (snd kv))) ps1)).
    { apply in_map_iff. exists (key, d). split; [reflexivity | exact Hin]. }
    destruct (normalize_own_all _ _ _ En _ _ Hin') as [p Hp].
    rewrite (normalize_param_invalid types _ src (inheriting_source _ _ Hs) Hn Hu Hq Hb) in Hp.
    discriminate.
  - destruct (normalize_own types ps1) as [ps'|e] eqn:En; cbn [and_then]; [|now exists e].
    exfalso. destruct (normalize_own_all _ _ _ En _ _ Hin) as [p Hp].
    rewrite (normalize_param_invalid types d src Hs Hn Hu Hq Hb) in Hp. discriminate.
Qed.

(** X5.  For a template without a segment [/:__proto__], [normalizePath]
    and [normalizeParams], the steps of the constructor modelled here, throw
    nothing but the conflicting-source error, the error of the [RegExp]
    constructor, the invalid-source error, and what [types.get] throws. *)
Theorem construction_errors t opts types e :
  ~ In (ISeg (lit "__proto__")) (scan t) ->
  Route t opts types = Throw e ->
  (exists found, e = conflicting_source found)
  \/ (exists src, e = SyntaxError src)
  \/ e = invalid_source
  \/ (exists spec, types_get types spec = Throw e).
Proof.
  unfold Route, normalizePath. intros Hno H.
  pose proof (replace_segments_clean _ Hno []
                (map (fun kv => (fst kv, expand (snd kv)))
                     (match o_params opts with Some ps => ps | None => [] end))) as Hc.
  destruct (replace_segments (scan t) [] _ false) as [[[[text ks] ps1] pol]|e'] eqn:E;
    cbn [and_then] in H.
  - subst pol.
    destruct (RegExp.new _) as [[re|e']|] eqn:Er; cbn [and_then] in H; try discriminate.
    + unfold normalizeParams in H.
      destruct (normalize_own types ps1) as [ps'|e''] eqn:En; cbn [and_then] in H.
      * destruct (has ps' (lit "__proto__")); discriminate.
      * injection H as <-.
        destruct (normalize_own_throws _ _ _ En) as [->|Hs]; auto.
    + injection H as <-. right; left.
      unfold RegExp.new in Er.
      destruct (RegExp.parse_pattern _) as [[tr n]| |]; try discriminate.
      injection Er as <-. eexists; reflexivity.
  - injection H as <-. left. exact Hc.
Qed.

(** X6.  The names of [params] after construction are the declared names
    and the segment names that [Object.prototype] does not have, and no
    other. *)
Theorem param_names t opts types self :
  Route t opts types = Ok self ->
  forall k, has (params self) k = true
            <-> has (declared opts) k = true \/ (In k (keys self) /\ inherited k = false).
Proof.
  intros Hr k.
  destruct (Route_steps _ _ _ _ Hr) as (text & ps1 & Hrep & _ & Hnorm & _).
  pose proof (replace_segments_params _ _ _ _ _ _ _ _ Hrep k) as Hk.
  apply replace_segments_ok in Hrep as [_ Hkeys]. cbn [app] in Hkeys.
  rewrite (has_same_names _ _ k (normalize_own_names _ _ _ Hnorm)).
  rewrite Hkeys, <- mentions_In. unfold has at 1. rewrite Hk.
  rewrite has_expand. unfold has at 2. rewrite get_expand.
  destruct (mentions k (seg_keys (scan t))); cbn [andb].
  - destruct (has (declared opts) k) eqn:Hd; cbn [orb].
    + split; auto.
    + destruct (inherited k); cbn [negb].
      * unfold has in Hd. destruct (get (declared opts) k); [discriminate|].
        split; [discriminate | intros [H|[_ H]]; discriminate].
      * split; auto.
  - unfold has. destruct (get (declared opts) k); split; auto;
      intros [H|[H _]]; auto; discriminate.
Qed.

(** *** Paths that fit in one way only *)

Lemma fits_shift items :
  forall q c d c',
  fits items q c -> fits items (d ++ q) c' -> forallb seg_char d = true -> d = [].
Proof.
  induction items as [|[a|key] items IH]; intros q c d c' Hq Hd Hs.
  - inversion Hq; subst. destruct d; [reflexivity | inversion Hd].
  - inversion Hq; subst. destruct d as [|b d]; [reflexivity|]. exfalso.
    simpl in Hd, Hs. inversion Hd; subst.
    apply andb_true_iff in Hs as [Ha Hs].
    match goal with
    | Hq1 : fits items ?q1 _, Hq2 : fits items (d ++ ?x :: ?q1) _ |- _ =>
        assert (Hq2' : fits items ((d ++ [x]) ++ q1) c')
          by (rewrite <- app_assoc; exact Hq2);
        assert (Hnil : d ++ [x] = [])
          by (apply (IH _ _ _ _ Hq1 Hq2');
              rewrite forallb_app, Hs; simpl; now rewrite Ha)
    end.
    now destruct d.
  - destruct d as [|b d]; [reflexivity|].
    inversion Hd; subst. discriminate Hs.
Qed.

Lemma fits_unique items :
  forall p caps caps', fits items p caps -> fits items p caps' -> caps = caps'.
Proof.
  induction items as [|[a|key] items IH]; intros p caps caps' H H'.
  - inversion H; inversion H'; subst; reflexivity.
  - inversion H; subst. inversion H'; subst. eauto.
  - inversion H as [| |? ? s q c0 Hne Hs Hq E1]; subst.
    inversion H' as [| |? ? s' q' c0' Hne' Hs' Hq' E2 E3]; subst.
    assert (Hsplit : exists d, (s = s' ++ d /\ q' = d ++ q) \/ (s' = s ++ d /\ q = d ++ q')).
    { clear -E3. revert s' E3. induction s as [|x s IHs]; intros s' E3.
      - exists s'. right. simpl in *. auto.
      - destruct s' as [|y s'].
        + exists (x :: s). left. simpl in *. auto.
        + simpl in E3. inversion E3; subst.
          destruct (IHs s' H1) as (d & [[-> ->]|[-> ->]]); exists d; [left|right]; auto. }
    destruct Hsplit as (d & [[-> ->]|[-> ->]]).
    + rewrite forallb_app in Hs. apply andb_true_iff in Hs as [_ Hd].
      pose proof (fits_shift _ _ _ _ _ Hq Hq' Hd) as ->.
      rewrite app_nil_r. f_equal. simpl in Hq'. eauto.
    + rewrite forallb_app in Hs'. apply andb_true_iff in Hs' as [_ Hd].
      pose proof (fits_shift _ _ _ _ _ Hq' Hq Hd) as ->.
      rewrite app_nil_r. f_equal. simpl in Hq. eauto.
Qed.

Lemma exec_plain_exact items src path caps :
  fits items path caps ->
  RegExp.exec (RegExp.RegExp_ src (tree_of items) (List.length (seg_keys items))) path
  = Some (map Some caps).
Proof.
  intro Hf.
  destruct (RegExp.exec _ path) as [m|] eqn:E.
  - apply exec_plain_sound in E as (caps' & Hf' & ->).
    now rewrite (fits_unique _ _ _ _ Hf Hf').
  - exfalso. now apply (exec_plain_complete items src path caps Hf).
Qed.

Lemma capture_at pre s rest :
  capture (map Some (pre ++ s :: rest)) (List.length pre + 1) = VStr s.
Proof.
  rewrite Nat.add_1_r. cbn [capture].
  rewrite map_app, app_nth2 by (rewrite length_map; lia).
  rewrite length_map, Nat.sub_diag. reflexivity.
Qed.

Lemma get_not_proto {A} (ps : obj A) k p :
  has ps (lit "__proto__") = false -> get ps k = Some p -> k <> lit "__proto__".
Proof. unfold has. intros Hno Hp ->. now rewrite Hp in Hno. Qed.

Lemma match_loop_accepts ps ks :
  has ps (lit "__proto__") = false ->
  forall rest pre lm,
  List.length ks = List.length rest ->
  (fst (match_loop ps (map Some (pre ++ rest)) ks (List.length pre) lm) = Ok true
   <-> Forall2 (accepted ps) ks rest).
Proof.
  intro Hno. induction ks as [|k ks IH]; intros rest pre lm Hlen.
  - destruct rest; [|discriminate]. cbn [match_loop fst]. split; auto.
  - destruct rest as [|s rest]; [discriminate|]. cbn [match_loop].
    rewrite capture_at.
    assert (Hpre : S (List.length pre) = List.length (pre ++ [s]))
      by (rewrite length_app; simpl; lia).
    assert (Happ : pre ++ s :: rest = (pre ++ [s]) ++ rest)
      by now rewrite <- app_assoc.
    simpl in Hlen. injection Hlen as Hlen.
    split.
    + destruct (get ps k) as [p|] eqn:Hp; [|destruct (inherited k); discriminate].
      destruct (parse (p_type p) (VStr s)) as [v|e] eqn:Hv; [|discriminate].
      destruct (check (p_type p) v) as [[|]|e] eqn:Hc; try discriminate.
      rewrite (put_plain _ _ _ (get_not_proto _ _ _ Hno Hp)).
      rewrite Hpre, Happ, (IH rest (pre ++ [s]) _ Hlen).
      intro H. constructor; [now exists p, v | exact H].
    + intro H. inversion H as [|? ? ? ? (p & v & Hp & Hv & Hc) Hrest]; subst.
      rewrite Hp, Hv, Hc, (put_plain _ _ _ (get_not_proto _ _ _ Hno Hp)), Hpre, Happ.
      now apply IH.
Qed.

Lemma Route_no_proto t opts types self :
  Route t opts types = Ok self -> has (params self) (lit "__proto__") = false.
Proof. intro Hr. now destruct (Route_steps _ _ _ _ Hr) as (? & ? & _ & _ & _ & _ & H). Qed.

Lemma match_plain_iff t opts types self path lm :
  plain t = true -> Route t opts types = Ok self ->
  (fst (match_ self path lm) = Ok true
   <-> exists caps, fits (scan t) path caps
                    /\ Forall2 (accepted (params self)) (keys self) caps).
Proof.
  intros Hp Hr.
  assert (Hkeys : keys self = seg_keys (scan t))
    by (rewrite (Route_keys _ _ _ _ Hr); symmetry; apply seg_keys_scan).
  pose proof (Route_no_proto _ _ _ _ Hr) as Hno.
  unfold match_. rewrite (Route_plain _ _ _ _ Hp Hr).
  split.
  - destruct (RegExp.exec _ path) as [m|] eqn:E; [|discriminate].
    apply exec_plain_sound in E as (caps & Hf & ->).
    intro H. exists caps. split; [exact Hf|].
    apply (match_loop_accepts _ _ Hno caps [] []); [|exact H].
    now rewrite Hkeys, (fits_length _ _ _ Hf).
  - intros (caps & Hf & Hacc).
    rewrite (exec_plain_exact _ _ _ _ Hf).
    apply (match_loop_accepts _ _ Hno caps [] []); [|exact Hacc].
    now rewrite Hkeys, (fits_length _ _ _ Hf).
Qed.

(** X9.  For a template without pattern syntax, [match] returns [true]
    exactly on the paths that are the template's text with every [/:name]
    replaced by [/] and a non-empty run of characters other than [/] and
    [\], each run being parsed and checked by the type of its name; a name
    without a parameter accepts no run. *)
Theorem match_accepts_exactly t opts types self path lastMatch :
  plain t = true -> Route t opts types = Ok self ->
  (fst (match_ self path lastMatch) = Ok true
   <-> exists caps, fits (scan t) path caps
                    /\ Forall2 (accepted (params self)) (keys self) caps).
Proof.
  intros Hp Hr.
  assert (Hkeys : keys self = seg_keys (scan t))
    by (rewrite (Route_keys _ _ _ _ Hr); symmetry; apply seg_keys_scan).
  pose proof (Route_no_proto _ _ _ _ Hr) as Hno.
  unfold match_. rewrite (Route_plain _ _ _ _ Hp Hr).
  split.
  - destruct (RegExp.exec _ path) as [m|] eqn:E; [|discriminate].
    apply exec_plain_sound in E as (caps & Hf & ->).
    intro H. exists caps. split; [exact Hf|].
    apply (match_loop_accepts _ _ Hno caps [] []); [|exact H].
    now rewrite Hkeys, (fits_length _ _ _ Hf).
  - intros (caps & Hf & Hacc).
    rewrite (exec_plain_exact _ _ _ _ Hf).
    apply (match_loop_accepts _ _ Hno caps [] []); [|exact Hacc].
    now rewrite Hkeys, (fits_length _ _ _ Hf).
Qed.

Lemma fits_literals items :
  seg_keys items = [] ->
  forall p caps, fits items p caps <-> p = flat_map item_source items /\ caps = [].
Proof.
  induction items as [|[a|key] items IH]; intros Hk p caps.
  - split; [intro H; inversion H; auto | intros [-> ->]; constructor].
  - simpl in Hk. split.
    + intro H. inversion H as [|? ? ? ? Hf|]; subst.
      apply (IH Hk) in Hf as [-> ->]. auto.
    + intros [-> ->]. simpl. constructor. now apply (IH Hk).
  - discriminate.
Qed.

(** X10.  A template without pattern syntax and without [/:name] place is
    matched by one path only, the template itself: its dots and slashes
    stand for themselves. *)
Theorem literal_template_matches_itself t opts types self path lastMatch :
  plain t = true -> names_at t = [] -> Route t opts types = Ok self ->
  (fst (match_ self path lastMatch) = Ok true <-> path = t).
Proof.
  intros Hp Hn Hr. rewrite (match_plain_iff _ _ _ _ _ _ Hp Hr).
  assert (Hk : seg_keys (scan t) = []) by now rewrite seg_keys_scan.
  assert (Hkeys : keys self = []) by now rewrite (Route_keys _ _ _ _ Hr).
  rewrite Hkeys. split.
  - intros (caps & Hf & _). apply (fits_literals _ Hk) in Hf as [-> _].
    apply scan_source.
  - intros ->. exists []. split; [|constructor].
    apply (fits_literals _ Hk). split; [symmetry; apply scan_source | reflexivity].
Qed.

(** ** More on [decodeParams] *)

Lemma filter_none {A} (f : A -> bool) l :
  filter f l = [] <-> forall x, In x l -> f x = false.
Proof.
  induction l as [|a l IH]; simpl.
  - split; [intros _ x [] | reflexivity].
  - destruct (f a) eqn:E.
    + split; [discriminate|]. intro H. specialize (H a (or_introl eq_refl)). congruence.
    + rewrite IH. split.
      * intros H x [<-|Hx]; auto.
      * intros H x Hx. apply H. now right.
Qed.

Lemma response_next errors : In Next (response_for errors) <-> errors = [].
Proof.
  destruct errors as [|v errors]; simpl.
  - split; auto.
  - split; [intros [H|[H|[]]]; discriminate | discriminate].
Qed.

(** X11.  When [decodeParams] returns, it has called [next] exactly when no
    declared parameter is violated, and then it has done nothing else. *)
Theorem next_iff_no_violation self lastMatch req evs rp :
  decodeParams self lastMatch req = Ok (evs, rp) ->
  (In Next evs
   <-> forall kp, In kp (params self) ->
         violated (body_of req) (query req) lastMatch kp = false)
  /\ (In Next evs -> evs = [Next]).
Proof.
  intro H. apply decodeParams_ok in H as (errors & H & ->).
  apply decode_loop_ok in H. simpl in H.
  split.
  - rewrite response_next, <- filter_none. subst errors.
    split; intro E.
    + destruct (filter _ (params self)); [reflexivity | discriminate].
    + rewrite E. reflexivity.
  - intro Hn. apply response_next in Hn. rewrite Hn. reflexivity.
Qed.

Lemma violated_cases bd q u key p :
  violated bd q u (key, p) = true ->
  (is_missing bd q u key p = true
   /\ p_optional p = false /\ supplied bd q u key p = false)
  \/ (is_missing bd q u key p = false
      /\ supplied bd q u key p = true
      /\ (is_source p "body" = true \/ is_source p "query" = true)).
Proof.
  unfold violated, supplied, is_missing, fails_check.
  source_cases p.
  - destruct (in_ bd key), (p_optional p); simpl; intro H; try discriminate; auto.
  - destruct (in_ q key), (p_optional p); simpl; intro H; try discriminate; auto.
  - destruct (in_ u key), (p_optional p); simpl; intro H; try discriminate; auto.
  - discriminate.
Qed.

(** X12.  An entry of [errors] is a [missing_field] entry only for a
    required parameter absent from its source, and an [invalid] entry only
    for a body or query parameter that is present: an optional parameter is
    never reported missing and a URL parameter never invalid.  Present is
    what [key in source] says: a name of [Object.prototype] is never
    missing. *)
Theorem when_entries_are_written self lastMatch req evs rp :
  decodeParams self lastMatch req = Ok (evs, rp) ->
  exists errors,
    evs = response_for errors
    /\ forall v, In v errors ->
         exists key p, In (key, p) (params self)
           /\ ((v = missing_field self key p
                /\ p_optional p = false
                /\ supplied (body_of req) (query req) lastMatch key p = false
                /\ inherited key = false)
               \/ (v = invalid self key p
                   /\ supplied (body_of req) (query req) lastMatch key p = true
                   /\ (is_source p "body" = true \/ is_source p "query" = true))).
Proof.
  intro H. apply decodeParams_ok in H as (errors & H & ->).
  exists errors. split; [reflexivity|]. intros v Hv.
  apply decode_loop_ok in H. simpl in H. subst errors.
  apply in_map_iff in Hv as ([key p] & <- & Hin).
  apply filter_In in Hin as [Hin Hviol].
  exists key, p. split; [exact Hin|].
  unfold entry_of. cbn [fst snd].
  destruct (violated_cases _ _ _ _ _ Hviol) as [(Hm & Ho & Hs)|(Hm & Hs & Hsrc)];
    rewrite Hm; auto.
  left. repeat split; auto.
  destruct (inherited key) eqn:Hi; [|reflexivity]. exfalso.
  unfold is_missing, in_ in Hm. rewrite Hi, !orb_true_r in Hm.
  destruct (p_optional p), (is_source p "body"), (is_source p "query"),
    (is_source p "url"); discriminate.
Qed.

(** What one round stores in [req.params]. *)
Lemma decode_param_params self bd q u key p errors rp errors' rp' :
  decode_param self bd q u key p (errors, rp) = Ok (errors', rp') ->
  rp' = match decoded bd q u key p with
        | Some v => set rp key v
        | None => rp
        end.
Proof.
  unfold decoded, decode_param, decode_value, violated, supplied, is_missing,
    fails_check.
  source_cases p.
  - destruct (in_ bd key), (p_optional p); simpl;
      try (intro H; inversion H; reflexivity);
      destruct (check (p_type p) (lookup bd key)) as [[]|e]; simpl;
      try (intro H; inversion H; reflexivity);
      try (intro H; now apply put_ok in H);
      (destruct (put rp key _) as [[o|e']|] eqn:Ep; simpl; intro H; inversion H; subst;
       now apply put_ok in Ep).
  - destruct (in_ q key), (p_optional p); simpl;
      try (intro H; inversion H; reflexivity);
      (destruct (parse (p_type p) (lookup q key)) as [w|e]; simpl;
       [destruct (check (p_type p) w) as [[]|e]; simpl|]);
      try (intro H; inversion H; reflexivity);
      (destruct (put rp key _) as [[o|e']|] eqn:Ep; simpl; intro H; inversion H; subst;
       now apply put_ok in Ep).
  - destruct (in_ u key), (p_optional p); simpl;
      try (intro H; inversion H; reflexivity);
      (destruct (put rp key _) as [[o|e']|] eqn:Ep; simpl; intro H; inversion H; subst;
       now apply put_ok in Ep).
  - rewrite !andb_false_r. simpl. intro H; inversion H; reflexivity.
Qed.

Lemma decode_loop_params self bd q u ps :
  unique_names ps ->
  forall errors rp errors' rp',
  decode_loop self bd q u ps (errors, rp) = Ok (errors', rp') ->
  forall key,
    get rp' key = match get ps key with
                  | Some p => match decoded bd q u key p with
                              | Some v => Some v
                              | None => get rp key
                              end
                  | None => get rp key
                  end.
Proof.
  unfold unique_names.
  induction ps as [|[k p] ps IH]; intros Hu errors rp errors' rp' H key.
  - simpl in H. inversion H; subst. reflexivity.
  - cbn [decode_loop] in H.
    destruct (decode_param self bd q u k p (errors, rp)) as [[[e1 r1]|e]|] eqn:E;
      cbn [and_then] in H; try discriminate.
    apply decode_param_params in E.
    simpl in Hu. inversion Hu as [|? ? Hnotin Hu']; subst.
    rewrite (IH Hu' _ _ _ _ H key). cbn [get].
    destruct (str_eqb k key) eqn:Ek.
    + apply str_eqb_eq in Ek; subst key.
      apply get_None_names in Hnotin. rewrite Hnotin.
      destruct (decoded bd q u k p); [apply get_set_same | reflexivity].
    + assert (Hrp : get (match decoded bd q u k p with
                         | Some v => set rp k v
                         | None => rp
                         end) key = get rp key).
      { destruct (decoded bd q u k p); [|reflexivity].
        apply get_set_other. now apply str_eqb_neq. }
      rewrite Hrp. reflexivity.
Qed.

Lemma decodeParams_params self lastMatch req evs rp :
  decodeParams self lastMatch req = Ok (evs, rp) ->
  unique_names (params self) ->
  forall key,
    get rp key = match get (params self) key with
                 | Some p => decoded (body_of req) (query req) lastMatch key p
                 | None => None
                 end.
Proof.
  intros H Hu key. apply decodeParams_ok in H as (errors & H & _).
  rewrite (decode_loop_params _ _ _ _ _ Hu _ _ _ _ H key). simpl.
  destruct (get (params self) key) as [p|]; [|reflexivity].
  now destruct (decoded _ _ _ key p).
Qed.

(** X13.  When [decodeParams] returns, [req.params] holds, for every
    declared parameter that is present and not violated, its value (the
    body value as it is, the parsed query value, the value of [lastMatch]),
    and has no property for any other name: an optional parameter that is
    absent is left out.  Present is what [key in source] says, and the value
    what [source[key]] reads: for a name of [Object.prototype] that the
    source does not have itself, the inherited property. *)
Theorem request_params self lastMatch req evs rp :
  decodeParams self lastMatch req = Ok (evs, rp) ->
  unique_names (params self) ->
  forall key,
    get rp key = match get (params self) key with
                 | Some p => decoded (body_of req) (query req) lastMatch key p
                 | None => None
                 end.
Proof.
  intros H Hu key. apply decodeParams_ok in H as (errors & H & _).
  rewrite (decode_loop_params _ _ _ _ _ Hu _ _ _ _ H key). simpl.
  destruct (get (params self) key) as [p|]; [|reflexivity].
  now destruct (decoded _ _ _ key p).
Qed.

(** ** Names stay unique *)

Lemma update_names {A} (o : obj A) k v : map fst (update o k v) = map fst o.
Proof.
  induction o as [|[k0 v0] o IH]; simpl; [reflexivity|].
  destruct (str_eqb k0 k); simpl; congruence.
Qed.

Lemma insert_index_perm {A} (o : obj A) n k v :
  Permutation (insert_index o n k v) ((k, v) :: o).
Proof.
  induction o as [|[k0 v0] o IH]; simpl; [reflexivity|].
  destruct (array_index k0) as [n'|]; [destruct (n' <? n)%N|]; try reflexivity.
  rewrite IH. apply perm_swap.
Qed.

Lemma set_names {A} (o : obj A) k v :
  has o k = false -> Permutation (map fst (set o k v)) (k :: map fst o).
Proof.
  intro H. unfold set. rewrite H. destruct (array_index k).
  - exact (Permutation_map fst (insert_index_perm o _ k v)).
  - rewrite map_app. simpl. symmetry. apply Permutation_cons_append.
Qed.

Lemma set_unique {A} (o : obj A) k v : unique_names o -> unique_names (set o k v).
Proof.
  unfold unique_names. intro Hu. destruct (has o k) eqn:H.
  - unfold set. rewrite H. now rewrite update_names.
  - apply (Permutation_NoDup (l := k :: map fst o)).
    + symmetry. now apply set_names.
    + constructor; [|exact Hu]. intro Hin. apply has_names in Hin. congruence.
Qed.

Lemma replace_segments_unique items :
  forall ks ps pol text ks' ps' pol',
  replace_segments items ks ps pol = Ok (text, ks', ps', pol') ->
  unique_names ps -> unique_names ps'.
Proof.
  induction items as [|[c|key] items IH]; intros ks ps pol text ks' ps' pol' H Hu;
    cbn [replace_segments] in H.
  - now inversion H; subst.
  - destruct (replace_segments items ks ps pol) as [[[[t k1] p1] b1]|e] eqn:E;
      cbn [bind] in H; [|discriminate].
    inversion H; subst. now apply (IH _ _ _ _ _ _ _ E).
  - destruct (on_segment key ks ps pol) as [[[[seg k1] p1] b1]|e] eqn:E1;
      cbn [bind] in H; [|discriminate].
    destruct (replace_segments items k1 p1 b1) as [[[[t k2] p2] b2]|e] eqn:E2;
      cbn [bind] in H; [|discriminate].
    inversion H; subst.
    apply on_segment_ok in E1 as (_ & _ & H1 & H2).
    apply (IH _ _ _ _ _ _ _ E2).
    destruct (has ps key || negb (inherited key)).
    + destruct (H1 eq_refl) as [-> _]. now apply set_unique.
    + now destruct (H2 eq_refl) as [-> _].
Qed.

Lemma Route_unique t opts types self :
  Route t opts types = Ok self ->
  unique_names (declared opts) -> unique_names (params self).
Proof.
  intros Hr Hu.
  destruct (Route_steps _ _ _ _ Hr) as (text & ps1 & Hrep & _ & Hnorm & _).
  unfold unique_names. rewrite (normalize_own_names _ _ _ Hnorm).
  apply (replace_segments_unique _ _ _ _ _ _ _ _ Hrep).
  unfold unique_names. now rewrite map_map.
Qed.

Lemma get_unique {A} (o : obj A) k v :
  unique_names o -> In (k, v) o -> get o k = Some v.
Proof.
  unfold unique_names. induction o as [|[k0 v0] o IH]; intros Hu Hin; [destruct Hin|].
  simpl in Hu. inversion Hu as [|? ? Hn Hu']; subst. cbn [get].
  destruct Hin as [Hin|Hin].
  - inversion Hin; subst. now rewrite str_eqb_refl.
  - destruct (str_eqb k0 k) eqn:E; [|now apply IH].
    apply str_eqb_eq in E. subst. exfalso. apply Hn.
    apply in_map_iff. now exists (k, v).
Qed.

(** ** [match], then [decodeParams] *)

(** X14.  On a constructed route, after a [match] that returned [true],
    [decodeParams] hands every segment name on with the value [match] bound
    to it, and writes no entry of [errors] for a segment name. *)
Theorem url_values_pass_through t opts types self path lastMatch lastMatch' req evs rp :
  Route t opts types = Ok self -> unique_names (declared opts) ->
  match_ self path lastMatch = (Ok true, lastMatch') ->
  decodeParams self lastMatch' req = Ok (evs, rp) ->
  forall key, In key (keys self) ->
    (exists v, get lastMatch' key = Some v /\ get rp key = Some v)
    /\ exists errors,
         evs = response_for errors
         /\ forall e, In e errors -> get e (lit "field") <> Some key.
Proof.
  intros Hr Hu Hm Hd key Hk.
  pose proof (Route_unique _ _ _ _ Hr Hu) as Hup.
  assert (Hx : fst (match_ self path lastMatch) = Ok true) by now rewrite Hm.
  destruct (match_true_params _ _ _ Hx key Hk) as [p0 Hp0].
  assert (Hset : settled opts key = true).
  { destruct (settled opts key) eqn:Hs; [reflexivity|].
    rewrite (Route_inherited_segment _ _ _ _ _ Hr Hs) in Hp0. discriminate. }
  destruct (Route_segment_param _ _ _ _ _ Hr Hk Hset) as (p & Hp & _ & Hs).
  pose proof (proj2 (match_binds_the_keys _ _ _ _ Hm key) Hk) as Hb.
  assert (Hin : in_ lastMatch' key = true) by now apply has_in.
  assert (Hurl : is_source p "url" = true) by (unfold is_source; rewrite Hs; reflexivity).
  assert (Hnb : is_source p "body" = false) by (unfold is_source; rewrite Hs; reflexivity).
  assert (Hnq : is_source p "query" = false) by (unfold is_source; rewrite Hs; reflexivity).
  assert (Hv : violated (body_of req) (query req) lastMatch' (key, p) = false).
  { unfold violated, supplied. now rewrite Hnb, Hnq, Hurl, Hin. }
  split.
  - rewrite (decodeParams_params _ _ _ _ _ Hd Hup key), Hp.
    unfold decoded. rewrite Hv, Hnb, Hnq, Hurl, Hin.
    rewrite (lookup_own _ _ Hb).
    unfold has in Hb. unfold get_or_undefined.
    destruct (get lastMatch' key) as [v|]; [|discriminate]. now exists v.
  - apply decodeParams_ok in Hd as (errors & Hd & ->).
    exists errors. split; [reflexivity|]. intros e He Hf.
    apply decode_loop_ok in Hd. simpl in Hd. subst errors.
    apply in_map_iff in He as ([k p'] & <- & Hin').
    apply filter_In in Hin' as [Hin' Hviol].
    rewrite entry_of_field in Hf. cbn [fst] in Hf. inversion Hf; subst k.
    rewrite (get_unique _ _ _ Hup Hin') in Hp. inversion Hp; subst p'.
    congruence.
Qed.

(** ** describe *)

Lemma describe_loop_ok (ps : obj param) :
  has ps (lit "__proto__") = false ->
  forall acc,
    describe_loop ps acc
    = Ok (fold_left (fun a kv => set a (fst kv) (describe_param (snd kv))) ps acc).
Proof.
  induction ps as [|[k p] ps IH]; intros Hno acc; [reflexivity|].
  apply has_cons_false in Hno as [Hk Hno].
  cbn [describe_loop fold_left fst snd]. rewrite put_plain by congruence.
  cbn [and_then]. now apply IH.
Qed.

Lemma described_get (ps : obj param) :
  unique_names ps ->
  forall acc k,
    get (fold_left (fun a kv => set a (fst kv) (describe_param (snd kv))) ps acc) k
    = match get ps k with
      | Some p => Some (describe_param p)
      | None => get acc k
      end.
Proof.
  unfold unique_names. induction ps as [|[k0 p0] ps IH]; intros Hu acc k.
  - reflexivity.
  - simpl in Hu. inversion Hu as [|? ? Hn Hu']; subst.
    cbn [fold_left fst snd get]. rewrite (IH Hu').
    destruct (str_eqb k0 k) eqn:E.
    + apply str_eqb_eq in E. subst.
      apply get_None_names in Hn. rewrite Hn. apply get_set_same.
    + destruct (get ps k); [reflexivity|].
      apply get_set_other. now apply str_eqb_neq.
Qed.

Lemma set_not_empty {A} (o : obj A) k v : set o k v <> [].
Proof.
  intro E. pose proof (get_set_same o k v) as H. rewrite E in H. discriminate.
Qed.

Lemma described_empty (ps : obj param) :
  forall acc,
    fold_left (fun a kv => set a (fst kv) (describe_param (snd kv))) ps acc = []
    <-> ps = [] /\ acc = [].
Proof.
  induction ps as [|[k0 p0] ps IH]; intro acc; cbn [fold_left fst snd].
  - intuition.
  - rewrite IH. split.
    + intros [_ H]. now apply set_not_empty in H.
    + intros [H _]. discriminate.
Qed.

Lemma describe_ok route opts self :
  has (params self) (lit "__proto__") = false ->
  describe route opts self
  = Ok (Description route (method self) (truthy (o_name opts)) (truthy (o_description opts))
          (match params self with
           | [] => None
           | _ :: _ =>
               Some (fold_left (fun a kv => set a (fst kv) (describe_param (snd kv)))
                               (params self) [])
           end)).
Proof.
  intro Hno. unfold describe. rewrite (describe_loop_ok _ Hno). cbn [and_then].
  destruct (params self) as [|kp ps] eqn:Ep; [reflexivity|].
  match goal with
  | |- context [match ?x with [] => None | _ :: _ => Some _ end] => destruct x eqn:E
  end; [|reflexivity].
  apply described_empty in E as [E _]. discriminate.
Qed.

(** X15.  [describe] on a constructed route returns; [params] is left out
    exactly when the route has no parameter, that is when the options
    declare none and every [/:name] place of the template is named after a
    property of [Object.prototype]; otherwise it has an entry for exactly
    the names of the route's parameters, each with the display name of the
    type, the source and [optional] of the parameter, and every segment
    name that has a parameter is listed with the source [url]. *)
Theorem describe_lists_the_params t opts types self :
  Route t opts types = Ok self -> unique_names (declared opts) ->
  exists d,
    describe t opts self = Ok d
    /\ (ds_params d = None
        <-> declared opts = [] /\ forall key, In key (keys self) -> inherited key = true)
    /\ (forall ps, ds_params d = Some ps ->
          forall k, get ps k = match get (params self) k with
                               | Some p => Some (describe_param p)
                               | None => None
                               end)
    /\ (forall key, In key (keys self) -> settled opts key = true ->
          exists ps e, ds_params d = Some ps
                       /\ get ps key = Some e /\ pd_source e = lit "url").
Proof.
  intros Hr Hu.
  pose proof (Route_unique _ _ _ _ Hr Hu) as Hup.
  pose proof (param_names_of_route := Route_no_proto _ _ _ _ Hr).
  assert (Hnames : forall k, has (params self) k = true
            <-> has (declared opts) k = true \/ (In k (keys self) /\ inherited k = false)).
  { intro k.
    destruct (Route_steps _ _ _ _ Hr) as (text & ps1 & Hrep & _ & Hnorm & _).
    pose proof (replace_segments_params _ _ _ _ _ _ _ _ Hrep k) as Hk.
    apply replace_segments_ok in Hrep as [_ Hkeys]. cbn [app] in Hkeys.
    rewrite (has_same_names _ _ k (normalize_own_names _ _ _ Hnorm)).
    rewrite Hkeys, <- mentions_In. unfold has at 1. rewrite Hk.
    rewrite has_expand. unfold has at 2. rewrite get_expand.
    destruct (mentions k (seg_keys (scan t))); cbn [andb].
    - destruct (has (declared opts) k) eqn:Hd; cbn [orb].
      + split; auto.
      + destruct (inherited k); cbn [negb].
        * unfold has in Hd. destruct (get (declared opts) k); [discriminate|].
          split; [discriminate | intros [H|[_ H]]; discriminate].
        * split; auto.
    - unfold has. destruct (get (declared opts) k); split; auto;
        intros [H|[H _]]; auto; discriminate. }
  rewrite (describe_ok _ _ _ param_names_of_route).
  eexists. split; [reflexivity|]. cbn [ds_params].
  assert (Hg : forall k,
            get (fold_left (fun a kv => set a (fst kv) (describe_param (snd kv)))
                           (params self) []) k
            = match get (params self) k with
              | Some p => Some (describe_param p)
              | None => None
              end).
  { intro k. now rewrite (described_get _ Hup). }
  revert Hg.
  generalize (fold_left (fun a kv => set a (fst kv) (describe_param (snd kv)))
                        (params self) []).
  intros described Hg.
  split; [|split].
  - destruct (params self) as [|[k p] ps] eqn:Ep.
    + split; [intros _|reflexivity]. split.
      * destruct (declared opts) as [|[k e] ps]; [reflexivity|]. exfalso.
        assert (H : has (@nil (str * param)) k = true).
        { apply Hnames. left. unfold has. cbn [get]. now rewrite str_eqb_refl. }
        discriminate.
      * intros key Hk. destruct (inherited key) eqn:Hi; [reflexivity|]. exfalso.
        assert (H : has (@nil (str * param)) key = true) by (apply Hnames; right; auto).
        discriminate.
    + split; [discriminate|]. intros [Hd Hk]. exfalso.
      assert (H : has ((k, p) :: ps) k = true)
        by (unfold has; cbn [get]; now rewrite str_eqb_refl).
      apply Hnames in H. rewrite Hd in H. destruct H as [H|[H1 H2]]; [discriminate|].
      rewrite (Hk _ H1) in H2. discriminate.
  - intros ps Hps k. rewrite <- Hg.
    destruct (params self); [discriminate | now injection Hps as <-].
  - intros key Hk Hs.
    destruct (Route_segment_param _ _ _ _ _ Hr Hk Hs) as (p & Hp & _ & Hsrc).
    exists described, (describe_param p).
    split; [destruct (params self); [discriminate | reflexivity]|].
    split; [|exact Hsrc]. now rewrite Hg, Hp.
Qed.

(** ** Declarations and their defaults *)

Lemma Route_declared_param t opts types self key :
  Route t opts types = Ok self -> ~ In key (keys self) ->
  forall e, get (declared opts) key = Some e ->
    exists p, get (params self) key = Some p
              /\ normalize_param types (expand e) = Ok p.
Proof.
  intros Hr Hk e He.
  destruct (Route_steps _ _ _ _ Hr) as (text & ps1 & Hrep & _ & Hnorm & _).
  pose proof (replace_segments_params _ _ _ _ _ _ _ _ Hrep key) as Hget.
  apply replace_segments_ok in Hrep as [_ Hkeys]. cbn [app] in Hkeys.
  rewrite Hkeys in Hk.
  destruct (mentions key (seg_keys (scan t))) eqn:Em;
    [apply mentions_In in Em; contradiction|].
  cbn [andb] in Hget. rewrite get_expand, He in Hget.
  destruct (normalize_own_all _ _ _ Hnorm key _ (get_In _ _ _ Hget)) as [p Hp].
  exists p. split; [|exact Hp].
  now rewrite (normalize_own_get _ _ _ Hnorm key), Hget, Hp.
Qed.

(** X16.  A parameter declared by a type name alone is, after construction,
    a required parameter of that registered type: of source [url] when its
    name is a segment name of the template, of source [body] otherwise. *)
Theorem shorthand_declaration t opts types self key s :
  Route t opts types = Ok self ->
  get (declared opts) key = Some (EString s) -> s <> [] ->
  exists p, get (params self) key = Some p
    /\ types_get types (Some (TName s)) = Ok (p_type p)
    /\ p_optional p = false
    /\ p_source p = (if mentions key (keys self) then lit "url" else lit "body").
Proof.
  intros Hr He Hs.
  destruct (mentions key (keys self)) eqn:Em.
  - apply mentions_In in Em.
    assert (Hset : settled opts key = true).
    { unfold settled, has. now rewrite He. }
    destruct (Route_segment_param _ _ _ _ _ Hr Em Hset) as (p & Hg & Hn & Hsrc).
    exists p. unfold decl_at in Hn. rewrite get_expand, He in Hn.
    destruct (normalize_param_url types _ p Hn eq_refl) as (_ & Ho & Ht).
    cbn in Ht, Ho. destruct s; [contradiction|]. auto.
  - assert (Hk : ~ In key (keys self))
      by (intro H; apply mentions_In in H; congruence).
    destruct (Route_declared_param _ _ _ _ _ Hr Hk _ He) as (p & Hg & Hn).
    exists p. split; [exact Hg|].
    unfold normalize_param in Hn. cbn in Hn. destruct s; [contradiction|].
    cbn in Hn.
    destruct (types_get types _) as [ty|e] eqn:E; cbn [bind] in Hn; [|discriminate].
    inversion Hn; subst. cbn. auto.
Qed.

Lemma query_is_not_body s :
  source_is s "query" = true -> falsy s || source_is s "body" = false.
Proof.
  unfold source_is, falsy. destruct s as [[|c x]|]; try discriminate.
  intro E. apply str_eqb_eq in E. now rewrite E.
Qed.

(** X17.  A parameter object declared without a type and whose name is no
    segment name gets the registry's [string] type when its source is
    [query], and the [json] type and the source [body] when its source is
    unset, empty or [body]; [optional] is what was declared. *)
Theorem default_types t opts types self key d :
  Route t opts types = Ok self -> ~ In key (keys self) ->
  get (declared opts) key = Some (EObject d) -> d_type d = None ->
  exists p, get (params self) key = Some p
    /\ p_optional p = d_optional d
    /\ (source_is (d_source d) "query" = true ->
        p_source p = lit "query"
        /\ types_get types (Some (TName (lit "string"))) = Ok (p_type p))
    /\ (falsy (d_source d) || source_is (d_source d) "body" = true ->
        p_source p = lit "body"
        /\ types_get types (Some (TName (lit "json"))) = Ok (p_type p)).
Proof.
  intros Hr Hk He Ht.
  destruct (Route_declared_param _ _ _ _ _ Hr Hk _ He) as (p & Hg & Hn).
  exists p. split; [exact Hg|].
  cbn [expand] in Hn. unfold normalize_param in Hn. rewrite Ht in Hn.
  destruct (source_is (d_source d) "query") eqn:Eq.
  - cbn in Hn.
    destruct (types_get types _) as [ty|e] eqn:E; cbn [bind] in Hn; [|discriminate].
    inversion Hn; subst. cbn. repeat split; auto;
      match goal with
      | H : falsy _ || _ = true |- _ =>
          rewrite (query_is_not_body _ Eq) in H; discriminate H
      end.
  - destruct (falsy (d_source d) || source_is (d_source d) "body") eqn:Eb.
    + cbn in Hn.
      destruct (types_get types _) as [ty|e] eqn:E; cbn [bind] in Hn; [|discriminate].
      inversion Hn; subst. cbn. repeat split; auto; discriminate.
    + destruct (negb (source_is (d_source d) "url")); [discriminate|].
      cbn in Hn.
      destruct (types_get types _) as [ty|e] eqn:E; cbn [bind] in Hn; [|discriminate].
      inversion Hn; subst. cbn. repeat split; auto; discriminate.
Qed.

(** ** The code on concrete requests *)

Import Sample.

Lemma built_ok r : is_ok r = true -> r = Ok (built r).
Proof. destruct r as [[?|?]|]; [reflexivity | discriminate | discriminate]. Qed.

Ltac run :=
  repeat match goal with |- _ /\ _ => split end;
  first [ apply built_ok; vm_compute; reflexivity | vm_compute; reflexivity ].

(** C1.  [match] on [/users/:id]: after [/users/42] has matched, a path the
    pattern does not match returns [false] and leaves the binding of the
    earlier match in [lastMatch]. *)
Theorem stale_lastMatch_after_failed_match :
  Route (lit "/users/:id") no_options types = Ok users
  /\ match_ users (lit "/users/42") [] = (Ok true, [(lit "id", VStr (lit "42"))])
  /\ match_ users (lit "/posts") [(lit "id", VStr (lit "42"))]
     = (Ok false, [(lit "id", VStr (lit "42"))]).
Proof. run. Qed.

(** C7.  The pattern of [/users/:id] is [^\/users\/([^\\/]+)$]: the second
    replacement escapes the [/] of the segment text, the class then excludes
    [\] as well, and a segment with a [\] in it is not matched. *)
Theorem backslash_segment_not_matched :
  Route (lit "/users/:id") no_options types = Ok users
  /\ RegExp.source (routeRe users) = lit "^\/users\/([^\\/]+)$"
  /\ match_ users (lit "/users/a\b") [] = (Ok false, [])
  /\ match_ users (lit "/users/a-b") [] = (Ok true, [(lit "id", VStr (lit "a-b"))]).
Proof. run. Qed.

(** C2 as stated fails: [/users/4] is a strict prefix of the accepted
    [/users/42] and [/users/423] extends it, and both are accepted; with
    [|] in the template, [/a|/b], the path [/a/extra] is accepted, and with
    a backslash at the end, [/a\], the path [/a$/x]; the template [/a/?]
    accepts [/a] and [/a/]. *)
Lemma prefix_and_extension_accepted :
  (Route (lit "/users/:id") no_options types = Ok users
   /\ fst (match_ users (lit "/users/42") []) = Ok true
   /\ fst (match_ users (lit "/users/4") []) = Ok true
   /\ fst (match_ users (lit "/users/423") []) = Ok true)
  /\ (Route (lit "/a|/b") no_options types = Ok either
      /\ fst (match_ either (lit "/a/extra") []) = Ok true)
  /\ (Route (lit "/a\") no_options types = Ok trailing_backslash
      /\ RegExp.source (routeRe trailing_backslash) = lit "^\/a\$"
      /\ fst (match_ trailing_backslash (lit "/a$/x") []) = Ok true)
  /\ (Route (lit "/a/?") no_options types = Ok optional_slash
      /\ fst (match_ optional_slash (lit "/a") []) = Ok true
      /\ fst (match_ optional_slash (lit "/a/") []) = Ok true)
  /\ ~ (forall path other extra,
          fst (match_ users path []) = Ok true ->
          extra <> [] -> (path = other ++ extra \/ other = path ++ extra) ->
          fst (match_ users other []) = Ok false).
Proof.
  split; [run|]. split; [run|]. split; [run|]. split; [run|].
  intro H.
  assert (E : fst (match_ users (lit "/users/4") []) = Ok false).
  { apply (H (lit "/users/42") (lit "/users/4") (lit "2")).
    - vm_compute; reflexivity.
    - discriminate.
    - left; reflexivity. }
  vm_compute in E. discriminate E.
Qed.

(** C6 as stated fails: the template [/(a)/:id] has one [/:name] place and
    its pattern two capture groups; the key [id] then reads the first. *)
Lemma group_of_the_template_counted :
  Route (lit "/(a)/:id") no_options types = Ok grouped
  /\ names_at (lit "/(a)/:id") = [lit "id"]
  /\ keys grouped = [lit "id"]
  /\ RegExp.groups (routeRe grouped) = 2
  /\ map fst (capturing (RegExp.tree (routeRe grouped))) = [1; 2]
  /\ match_ grouped (lit "/a/7") [] = (Ok true, [(lit "id", VStr (lit "a"))]).
Proof. run. Qed.


Lemma users_route : Route (lit "/users/:id") no_options types = Ok users.
Proof. run. Qed.

Lemma match_whole_path_witness :
  RegExp.source (routeRe users) = lit "^\/users\/([^\\/]+)$"
  /\ fst (match_ users (lit "/users/42") []) = Ok true
  /\ RegExp.matched (routeRe users) (lit "/users/42") = Some (0, lit "/users/42")
  /\ slashes (lit "/users/42") = slashes (lit "/users/:id")
  /\ match_ users (lit "/users/42/extra") [] = (Ok false, [])
  /\ match_ users (lit "/other/users/42") [] = (Ok false, []).
Proof.
  assert (Hm : fst (match_ users (lit "/users/42") []) = Ok true)
    by (vm_compute; reflexivity).
  destruct (match_whole_path (lit "/users/:id") no_options types users users_route)
    as (Hsrc & Hany & Hplain).
  destruct Hany as [_ Hwhole];
    [vm_compute; intuition discriminate | vm_compute; discriminate |].
  destruct (Hplain ltac:(vm_compute; reflexivity) _ _ Hm) as (_ & Hs & Hext).
  split; [exact Hsrc|]. split; [exact Hm|].
  split; [exact (Hwhole _ _ Hm)|]. split; [exact Hs|].
  split.
  - refine (proj1 (Hext (lit "/extra") [] _)). left; reflexivity.
  - refine (proj2 (Hext (lit "/other") [] _)). left; reflexivity.
Defined.

Lemma twice_route : Route (lit "/:id/x/:id") no_options types = Ok twice.
Proof. run. Qed.

Lemma counted_route : Route (lit "/a{2}/:id") no_options types = Ok counted.
Proof. run. Qed.

Lemma keys_and_groups_witness :
  (keys twice = [lit "id"; lit "id"]
   /\ RegExp.groups (routeRe twice) = 2
   /\ capturing (RegExp.tree (routeRe twice)) = [(1, seg_rule); (2, seg_rule)])
  /\ (keys counted = [lit "id"] /\ RegExp.groups (routeRe counted) = 1).
Proof.
  split.
  - destruct (proj2 (keys_and_groups (lit "/:id/x/:id") no_options types) twice twice_route)
      as [Hk Hg].
    destruct Hg as [Hn Hi]; [vm_compute; intuition discriminate|].
    split; [exact Hk|]. split; [exact Hn | exact Hi].
  - destruct (proj2 (keys_and_groups (lit "/a{2}/:id") no_options types) counted counted_route)
      as [Hk Hg].
    destruct Hg as [Hn _]; [vm_compute; intuition discriminate|].
    split; [exact Hk | exact Hn].
Defined.


Lemma items_route :
  Route (lit "/items/:id") (with_params items_params) types = Ok items
  /\ match_ items (lit "/items/42") [] = (Ok true, items_match).
Proof. run. Qed.

Lemma items_decode :
  decode_loop items (body_of items_request) (query items_request) items_match
              (params items) ([], [])
  = Ok (items_errors, items_match).
Proof. run. Qed.

Lemma items_response :
  decodeParams items items_match items_request
  = Ok (response_for items_errors, items_match).
Proof. run. Qed.

(** C3 as stated fails: the [invalid] entry for the query parameter [age]
    has no [source]. *)
Lemma invalid_entry_without_source :
  decodeParams items items_match items_request
    = Ok (response_for items_errors, items_match)
  /\ errors_of items items_match items_request = items_errors
  /\ ~ (forall v, In v (errors_of items items_match items_request) ->
          has v (lit "source") = true).
Proof.
  split; [exact items_response|]. split; [run|]. intro H.
  assert (E : has (nth 1 items_errors []) (lit "source") = true).
  { apply H. replace (errors_of items items_match items_request) with items_errors
      by (vm_compute; reflexivity).
    right; left; reflexivity. }
  vm_compute in E. discriminate E.
Qed.

Lemma violation_fields_witness :
  exists errors,
    response_for items_errors = response_for errors
    /\ Forall (fun v =>
         exists key p, In (key, p) (params items)
           /\ get v (lit "resource") = Some (resource_of items)
           /\ get v (lit "field") = Some key
           /\ ((get v (lit "code") = Some (lit "missing_field")
                /\ get v (lit "source") = Some (p_source p)
                /\ get v (lit "type_expected") = None)
               \/ (get v (lit "code") = Some (lit "invalid")
                   /\ get v (lit "type_expected") = Some (toString (p_type p))
                   /\ get v (lit "source") = None)))
         errors.
Proof.
  destruct (violation_fields items items_match items_request
              (response_for items_errors) items_match items_response)
    as (errors & He & Hall).
  exists errors. split; [exact He|]. apply Forall_forall. exact Hall.
Defined.

(** C4 as stated fails: on [/drafts] the required query parameter [page]
    is missing and its entry collected, then [check] of the body parameter
    [tags] throws on [null]; the exception leaves [decodeParams] and no
    response is written. *)
Lemma violation_then_exception :
  Route (lit "/drafts") (with_params drafts_params) types = Ok drafts
  /\ params drafts = [(lit "page", page_param); (lit "tags", tags_param)]
  /\ decode_loop drafts (body_of only_null_tags) (query only_null_tags) []
                 [(lit "page", page_param)] ([], [])
     = Ok ([missing_field drafts (lit "page") page_param], [])
  /\ decodeParams drafts [] only_null_tags
     = Throw (TypeError (lit "Cannot read properties of null")).
Proof. run. Qed.

Lemma items_schema :
  params items
  = [(lit "id", Param number_type (lit "url") false None None);
     (lit "name", Param string_type (lit "body") false None None);
     (lit "age", Param number_type (lit "query") false None None)].
Proof. vm_compute; reflexivity. Qed.

Lemma items_checks_total : checks_total (params items).
Proof.
  rewrite items_schema. intros key p v Hin.
  destruct Hin as [E|[E|[E|[]]]]; inversion E; subst; eexists; reflexivity.
Qed.

Lemma validation_failure_response_witness :
  (exists evs,
     decodeParams items items_match items_request = Ok (evs, items_match)
     /\ evs = [WriteHead 422 [(lit "Content-Type", lit "application/json")];
               End_ (quoted "{'message':'Validation failed','errors':[{'resource':'root','field':'name','source':'body','code':'missing_field'},{'resource':'root','field':'age','type_expected':'number','code':'invalid'}]}")]
     /\ items_errors
        = [missing_field items (lit "name") (Param string_type (lit "body") false None None);
           invalid items (lit "age") (Param number_type (lit "query") false None None)]
     /\ ~ In Next evs)
  /\ exists rp,
       decodeParams items items_match items_request
       = Ok ([WriteHead 422 [(lit "Content-Type", lit "application/json")];
              End_ (body_text
                      (map (entry_of items (body_of items_request) (query items_request)
                                     items_match)
                           (filter (violated (body_of items_request) (query items_request)
                                             items_match) (params items))))], rp).
Proof.
  destruct (validation_failure_response items items_match items_request) as [H1 H2].
  split.
  - destruct (H1 items_errors items_match items_decode ltac:(discriminate))
      as (evs & Hd & He & Hl & Hn).
    exists evs. split; [exact Hd|]. split; [rewrite He; vm_compute; reflexivity|].
    split; [vm_compute; reflexivity | exact Hn].
  - apply H2; [exact items_checks_total | reflexivity | vm_compute; discriminate].
Defined.

(** C5 as stated fails: on [/notes] the request violates exactly two
    parameters, [page] and [title]; [check] of the third, [tags], throws on
    [null], and no list of errors comes out. *)
Lemma violations_lost_to_exception :
  Route (lit "/notes") (with_params notes_params) types = Ok notes
  /\ map fst (filter (violated (body_of only_null_tags) (query only_null_tags) [])
                     (params notes))
     = [lit "page"; lit "title"]
  /\ decodeParams notes [] only_null_tags
     = Throw (TypeError (lit "Cannot read properties of null")).
Proof. run. Qed.

Lemma all_violations_collected_witness :
  (exists errors,
     response_for items_errors = response_for errors
     /\ List.length errors
        = List.length (filter (violated (body_of items_request) (query items_request)
                                        items_match) (params items)))
  /\ exists evs rp, decodeParams items items_match items_request = Ok (evs, rp).
Proof.
  destruct (all_violations_collected items items_match items_request) as [Hall Hends].
  split.
  - destruct (Hall (response_for items_errors) items_match items_response)
      as (errors & He & _ & Hlen).
    exists errors. split; [exact He | exact Hlen].
  - exact (Hends items_checks_total eq_refl).
Defined.

Lemma all_violations_collected_two :
  List.length (filter (violated (body_of items_request) (query items_request) items_match)
                      (params items)) = 2
  /\ List.length (errors_of items items_match items_request) = 2.
Proof. run. Qed.





Lemma conflicting_source_found :
  Route (lit "/users/:id") query_id types = Throw (conflicting_source (lit "query")).
Proof. run. Qed.

(** ** The added properties on concrete routes *)

Lemma items_built : Route (lit "/items/:id") (with_params items_params) types = Ok items.
Proof. run. Qed.

Lemma items_matched : match_ items (lit "/items/42") [] = (Ok true, items_match).
Proof. run. Qed.

Lemma items_declared_unique : unique_names (declared (with_params items_params)).
Proof.
  unfold unique_names. vm_compute.
  repeat constructor; simpl; intuition discriminate.
Qed.

Lemma status_built : Route (lit "/status.json") no_options types = Ok status.
Proof. run. Qed.

Lemma search_built : Route (lit "/search") (with_params search_params) types = Ok search.
Proof. run. Qed.

Lemma by_constructor_built : Route (lit "/:constructor") no_options types = Ok by_constructor.
Proof. run. Qed.

Lemma segment_names_are_url_params_witness :
  (exists p, get (params users) (lit "id") = Some p /\ p_source p = lit "url")
  /\ keys by_constructor = [lit "constructor"]
  /\ get (params by_constructor) (lit "constructor") = None
  /\ Forall (fun path => fst (match_ by_constructor path []) <> Ok true)
            [lit "/x"; lit "/constructor"].
Proof.
  split.
  - apply (segment_names_are_url_params _ _ _ users users_route (lit "id"));
      [vm_compute; left; reflexivity | reflexivity].
  - destruct (segment_names_are_url_params _ _ _ by_constructor by_constructor_built
                (lit "constructor")) as [_ H]; [vm_compute; left; reflexivity|].
    destruct (H eq_refl) as [Hn Hm].
    split; [vm_compute; reflexivity|]. split; [exact Hn|].
    repeat constructor; apply Hm.
Defined.

Lemma undeclared_segment_defaults_witness :
  exists p, get (params users) (lit "id") = Some p
    /\ types_get types (Some (TName (lit "string"))) = Ok (p_type p)
    /\ p_source p = lit "url" /\ p_optional p = false.
Proof.
  apply (undeclared_segment_defaults _ _ _ users (lit "id") users_route).
  - vm_compute. left; reflexivity.
  - reflexivity.
  - reflexivity.
Defined.

Lemma sources_are_normalized_witness :
  p_source page_param = lit "url" \/ p_source page_param = lit "query"
  \/ p_source page_param = lit "body".
Proof.
  apply (sources_are_normalized _ _ _ items items_built (lit "age") page_param).
  rewrite items_schema. right; right; left; reflexivity.
Defined.

Lemma invalid_source_aborts_witness :
  exists e, Route (lit "/users/:id") header_token types = Throw e.
Proof.
  destruct (invalid_source_aborts (lit "/users/:id") header_token types (lit "token")
              (Decl (Some (TName (lit "string"))) (Some (lit "header")) false None None)
              (lit "header") eq_refl eq_refl) as [H|H]; try discriminate.
  exact H.
Defined.

Lemma construction_errors_witness :
  Route (lit "/users/:id") query_id types = Throw (conflicting_source (lit "query"))
  /\ ((exists found, conflicting_source (lit "query") = conflicting_source found)
      \/ (exists src, conflicting_source (lit "query") = SyntaxError src)
      \/ conflicting_source (lit "query") = invalid_source
      \/ (exists spec, types_get types spec = Throw (conflicting_source (lit "query"))))
  /\ Route (lit "/(a") no_options types = Throw (SyntaxError (lit "^\/(a$"))
  /\ ((exists found, SyntaxError (lit "^\/(a$") = conflicting_source found)
      \/ (exists src, SyntaxError (lit "^\/(a$") = SyntaxError src)
      \/ SyntaxError (lit "^\/(a$") = invalid_source
      \/ (exists spec, types_get types spec = Throw (SyntaxError (lit "^\/(a$")))).
Proof.
  assert (H2 : Route (lit "/(a") no_options types = Throw (SyntaxError (lit "^\/(a$")))
    by (vm_compute; reflexivity).
  split; [exact conflicting_source_found|]. split.
  - apply (construction_errors (lit "/users/:id") query_id types);
      [vm_compute; intuition discriminate | exact conflicting_source_found].
  - split; [exact H2|].
    apply (construction_errors (lit "/(a") no_options types);
      [vm_compute; intuition discriminate | exact H2].
Defined.

Lemma param_names_witness :
  (has (params items) (lit "name") = true
   <-> has (declared (with_params items_params)) (lit "name") = true
       \/ (In (lit "name") (keys items) /\ inherited (lit "name") = false))
  /\ (has (params by_constructor) (lit "constructor") = true
      <-> has (declared no_options) (lit "constructor") = true
          \/ (In (lit "constructor") (keys by_constructor)
              /\ inherited (lit "constructor") = false)).
Proof.
  split.
  - exact (param_names _ _ _ items items_built (lit "name")).
  - exact (param_names _ _ _ by_constructor by_constructor_built (lit "constructor")).
Defined.

Lemma match_binds_the_keys_witness :
  has items_match (lit "id") = true <-> In (lit "id") (keys items).
Proof.
  exact (match_binds_the_keys items (lit "/items/42") [] items_match items_matched
           (lit "id")).
Defined.

Lemma match_does_not_throw_witness :
  exists b lastMatch', match_ items (lit "/items/abc") [] = (Ok b, lastMatch').
Proof.
  exact (match_does_not_throw _ _ _ items items_built items_checks_total
           (lit "/items/abc") []).
Defined.

Lemma users_plain : plain (lit "/users/:id") = true.
Proof. vm_compute; reflexivity. Qed.

Lemma match_accepts_exactly_witness :
  fst (match_ users (lit "/users/42") []) = Ok true
  <-> exists caps, fits (scan (lit "/users/:id")) (lit "/users/42") caps
                   /\ Forall2 (accepted (params users)) (keys users) caps.
Proof.
  exact (match_accepts_exactly _ _ _ users (lit "/users/42") [] users_plain users_route).
Defined.

Lemma status_plain : plain (lit "/status.json") = true.
Proof. vm_compute; reflexivity. Qed.

Lemma literal_template_matches_itself_witness :
  fst (match_ status (lit "/statusXjson") []) = Ok true
  <-> lit "/statusXjson" = lit "/status.json".
Proof.
  exact (literal_template_matches_itself _ _ _ status (lit "/statusXjson") []
           status_plain eq_refl status_built).
Defined.

Lemma next_iff_no_violation_witness :
  (In Next (response_for items_errors)
   <-> forall kp, In kp (params items) ->
         violated (body_of items_request) (query items_request) items_match kp = false)
  /\ (In Next (response_for items_errors) -> response_for items_errors = [Next]).
Proof.
  exact (next_iff_no_violation items items_match items_request _ _ items_response).
Defined.

Lemma when_entries_are_written_witness :
  exists errors,
    response_for items_errors = response_for errors
    /\ Forall (fun v =>
         exists key p, In (key, p) (params items)
           /\ ((v = missing_field items key p
                /\ p_optional p = false
                /\ supplied (body_of items_request) (query items_request)
                            items_match key p = false
                /\ inherited key = false)
               \/ (v = invalid items key p
                   /\ supplied (body_of items_request) (query items_request)
                               items_match key p = true
                   /\ (is_source p "body" = true \/ is_source p "query" = true))))
         errors.
Proof.
  destruct (when_entries_are_written items items_match items_request _ _ items_response)
    as (errors & He & Hall).
  exists errors. split; [exact He|]. apply Forall_forall. exact Hall.
Defined.

Lemma items_unique : unique_names (params items).
Proof.
  rewrite items_schema. unfold unique_names. simpl.
  repeat constructor; simpl; intuition discriminate.
Qed.

Lemma request_params_witness :
  get items_match (lit "id")
  = match get (params items) (lit "id") with
    | Some p => decoded (body_of items_request) (query items_request) items_match
                        (lit "id") p
    | None => None
    end.
Proof.
  exact (request_params items items_match items_request _ _ items_response
           items_unique (lit "id")).
Defined.

Lemma url_values_pass_through_witness :
  (exists v, get items_match (lit "id") = Some v /\ get items_match (lit "id") = Some v)
  /\ exists errors,
       response_for items_errors = response_for errors
       /\ forall e, In e errors -> get e (lit "field") <> Some (lit "id").
Proof.
  apply (url_values_pass_through _ _ _ items (lit "/items/42") [] items_match
           items_request _ _ items_built items_declared_unique items_matched
           items_response).
  vm_compute. left; reflexivity.
Defined.

Lemma describe_lists_the_params_witness :
  (exists d,
     describe (lit "/items/:id") (with_params items_params) items = Ok d
     /\ (exists ps e, ds_params d = Some ps
                      /\ get ps (lit "id") = Some e /\ pd_source e = lit "url"))
  /\ exists d,
       describe (lit "/:constructor") no_options by_constructor = Ok d
       /\ ds_params d = None.
Proof.
  split.
  - destruct (describe_lists_the_params _ _ _ items items_built items_declared_unique)
      as (d & Hd & _ & _ & Hk).
    exists d. split; [exact Hd|].
    apply Hk; [vm_compute; left; reflexivity | reflexivity].
  - destruct (describe_lists_the_params (lit "/:constructor") no_options types
                by_constructor by_constructor_built) as (d & Hd & Hn & _).
    { unfold unique_names. simpl. constructor. }
    exists d. split; [exact Hd|]. apply Hn. split; [reflexivity|].
    intros key Hk. vm_compute in Hk. destruct Hk as [<-|[]]. reflexivity.
Defined.

Lemma shorthand_declaration_witness :
  exists p, get (params items) (lit "name") = Some p
    /\ types_get types (Some (TName (lit "string"))) = Ok (p_type p)
    /\ p_optional p = false
    /\ p_source p = (if mentions (lit "name") (keys items) then lit "url" else lit "body").
Proof.
  apply (shorthand_declaration _ _ _ items (lit "name") (lit "string") items_built eq_refl).
  discriminate.
Defined.

Lemma default_types_witness :
  exists p, get (params search) (lit "q") = Some p
    /\ p_optional p = true
    /\ (source_is (Some (lit "query")) "query" = true ->
        p_source p = lit "query"
        /\ types_get types (Some (TName (lit "string"))) = Ok (p_type p))
    /\ (falsy (Some (lit "query")) || source_is (Some (lit "query")) "body" = true ->
        p_source p = lit "body"
        /\ types_get types (Some (TName (lit "json"))) = Ok (p_type p)).
Proof.
  apply (default_types _ _ _ search (lit "q")
           (Decl None (Some (lit "query")) true None None) search_built).
  - vm_compute. intros [].
  - reflexivity.
  - reflexivity.
Defined.

Lemma refused_segment_clears_lastMatch_witness :
  RegExp.exec (routeRe items) (lit "/items/abc") = Some [Some (lit "abc")]
  /\ match_ items (lit "/items/abc") items_match = (Ok false, []).
Proof.
  assert (Hm : RegExp.exec (routeRe items) (lit "/items/abc") = Some [Some (lit "abc")])
    by (vm_compute; reflexivity).
  split; [exact Hm|].
  destruct (match_ items (lit "/items/abc") items_match) as [[[[|]|e]|] lm'] eqn:E;
    try (vm_compute in E; discriminate E).
  f_equal. exact (refused_segment_clears_lastMatch items _ items_match lm' _ Hm E).
Defined.

